(** * Wire art: lattice codec, occupancy store, generator and reveal queue

    A shallow embedding of [src/art.ts].  JavaScript numbers that the
    program keeps integral (grid coordinates, cursors, millisecond clock
    readings) are values of [Z].  The numbers that are not integral (the
    results of [Math.random], the interpolation factor [lerp], the pixel
    coordinates passed to the canvas) are doubles: they are carried as
    the rationals of [Q] that they denote, and every arithmetic operation
    of the source on them is followed by [fl], the rounding of IEEE 754
    binary64 (to nearest, ties to even).  Overflow to infinity is not
    modelled: no operation of the program on grid coordinates and factors
    in [0,1] comes near the largest double.  Strings are [string], one
    character per code unit; the object used as a "2d integer hashmap" is
    a [gmap string WirePiece].  [Math.random] and [new Date().getTime()]
    are inputs: a stream of numbers read through a call counter, and
    clock readings passed to the tick that takes them.  Code that throws
    returns [Throw]; the calls made on the canvas context are returned as
    a list. *)

From Stdlib Require Import ZArith QArith Qround Qabs Qpower Lqa String Ascii List Lia.
From stdpp Require Import base option list strings gmap.

Local Open Scope string_scope.
Local Open Scope list_scope.
Local Open Scope Z_scope.

(** ** Binary64 arithmetic *)

(** 2^k *)
Definition pow2 (k : Z) : Q := (2 ^ k)%Q.

(** floor(log2 q) for a positive [q]. *)
Definition Qlog2 (q : Q) : Z :=
  let e0 := Z.log2 (Qnum q) - Z.log2 (Z.pos (Qden q)) in
  if Qle_bool (pow2 e0) q then e0 else e0 - 1.

(** The nearest integer, ties to even. *)
Definition roundEven (m : Q) : Z :=
  let f := Qfloor m in
  match ((m - inject_Z f) ?= (1 # 2))%Q with
  | Lt => f
  | Gt => f + 1
  | Eq => if Z.even f then f else f + 1
  end.

(** The binary exponent at which a positive number is rounded: that of
    its leading bit, or -1022 for the subnormal range. *)
Definition expo (x : Q) : Z := Z.max (Qlog2 x) (-1022).

(** Rounding of a positive number: 53 significant bits at its exponent. *)
Definition flPos (x : Q) : Q :=
  (inject_Z (roundEven (x * pow2 (52 - expo x))) * pow2 (expo x - 52))%Q.

(** The double nearest to [x]. *)
Definition fl (x : Q) : Q :=
  match (x ?= 0)%Q with
  | Eq => 0%Q
  | Gt => flPos x
  | Lt => (- flPos (- x))%Q
  end.

(** [x] is (the value of) a double. *)
Definition isDouble (x : Q) : Prop := (fl x == x)%Q.

(** The largest double below 1. *)
Definition belowOne : Q := (1 - pow2 (-53))%Q.

(** ** Lattice coordinate codec *)

(** [x | 0]: ToInt32 on an integral number, i.e. reduction modulo 2^32 into
    the signed 32-bit range. *)
Definition toInt32 (x : Z) : Z := (x + 2 ^ 31) mod 2 ^ 32 - 2 ^ 31.

Definition digitChar (d : Z) : ascii := ascii_of_nat (48 + Z.to_nat d).

(** Decimal digits of a non-negative integer, most significant first,
    pushed in front of [rest].  [fuel] bounds the number of further
    digits after the one emitted by this call. *)
Fixpoint toDigits (fuel : nat) (n : Z) (rest : string) : string :=
  let rest' := String (digitChar (n mod 10)) rest in
  match fuel with
  | O => rest'
  | S f => if n <? 10 then rest' else toDigits f (n / 10) rest'
  end.

(** Number::toString on an integer: a minus sign for negatives, then the
    decimal digits without leading zeros. *)
Definition numberToString (n : Z) : string :=
  if n <? 0
  then String "-" (toDigits (Z.to_nat (Z.log2 (- n))) (- n) "")
  else toDigits (Z.to_nat (Z.log2 n)) n "".

(** [`${x | 0},${y | 0}`] on integral coordinates. *)
Definition toLatticePoint (x y : Z) : string :=
  numberToString (toInt32 x) +:+ "," +:+ numberToString (toInt32 y).

(** The integer part of a finite number, rounding toward zero: the first
    step of [x | 0] on a number that is not integral. *)
Definition truncate (x : Q) : Z := Z.quot (Qnum x) (Z.pos (Qden x)).

(** [`${x | 0},${y | 0}`] on arbitrary finite numbers. *)
Definition toLatticePointQ (x y : Q) : string :=
  toLatticePoint (truncate x) (truncate y).

(** [String.prototype.split] with a one-character separator. *)
Fixpoint split (sep : ascii) (s : string) : list string :=
  match s with
  | EmptyString => [EmptyString]
  | String c s' =>
      if Ascii.eqb c sep then EmptyString :: split sep s'
      else match split sep s' with
           | h :: t => String c h :: t
           | [] => [String c EmptyString]
           end
  end.

(** The result of [parseInt]: an integer or [NaN]. *)
Inductive jsnum : Type :=
| Num (z : Z)
| NaN.

Definition isWhiteSpace (c : ascii) : bool :=
  let n := nat_of_ascii c in
  (Nat.eqb n 9 || Nat.eqb n 10 || Nat.eqb n 11 || Nat.eqb n 12
   || Nat.eqb n 13 || Nat.eqb n 32 || Nat.eqb n 160)%bool.

Fixpoint skipWhiteSpace (s : string) : string :=
  match s with
  | String c s' => if isWhiteSpace c then skipWhiteSpace s' else s
  | EmptyString => s
  end.

(** The value of a character as a digit of any radix up to 36. *)
Definition digitValue (c : ascii) : option Z :=
  let n := Z.of_nat (nat_of_ascii c) in
  if (48 <=? n) && (n <=? 57) then Some (n - 48)
  else if (97 <=? n) && (n <=? 122) then Some (n - 87)
  else if (65 <=? n) && (n <=? 90) then Some (n - 55)
  else None.

Definition radixDigit (R : Z) (c : ascii) : option Z :=
  match digitValue c with
  | Some d => if d <? R then Some d else None
  | None => None
  end.

(** Value of the longest prefix of [s] made of radix-[R] digits; [acc] is
    [None] until a first digit has been read. *)
Fixpoint parseDigits (R : Z) (s : string) (acc : option Z) : option Z :=
  match s with
  | EmptyString => acc
  | String c s' =>
      match radixDigit R c with
      | Some d => parseDigits R s' (Some (R * default 0 acc + d))
      | None => acc
      end
  end.

(** An optional sign in front of the digits. *)
Definition readSign (s : string) : Z * string :=
  match s with
  | String "-" t => (-1, t)
  | String "+" t => (1, t)
  | _ => (1, s)
  end.

(** Without a radix argument, a [0x]/[0X] prefix selects radix 16. *)
Definition readRadix (s : string) : Z * string :=
  match s with
  | String "0" (String "x" t) => (16, t)
  | String "0" (String "X" t) => (16, t)
  | _ => (10, s)
  end.

(** [parseInt(s)] without a radix argument: leading white space is
    skipped, an optional sign is read, the radix is chosen, and the
    longest digit prefix is evaluated; no digit gives [NaN]. *)
Definition parseInt (s : string) : jsnum :=
  let '(sign, s2) := readSign (skipWhiteSpace s) in
  let '(R, s3) := readRadix s2 in
  match parseDigits R s3 None with
  | Some n => Num (sign * n)
  | None => NaN
  end.

(** [const [x, y] = p.split(',').map(s => parseInt(s)); return [x, y]].
    A missing array element destructures to [undefined], here [None]. *)
Definition fromLatticePoint (p : string) : option jsnum * option jsnum :=
  let parts := map parseInt (split "," p) in
  (parts !! 0%nat, parts !! 1%nat).

(** ** Data model *)

Definition Point2i : Type := Z * Z.

(** A direction slot holds a JavaScript value: a string, or [undefined]
    (here [None]) when it was read from an array out of range. *)
Definition WireDirection : Type := option string.

Definition down : WireDirection := Some "down".
Definition down_left : WireDirection := Some "down-left".
Definition down_right : WireDirection := Some "down-right".

Inductive TipPosition : Type :=
| tip_false
| tip_begin
| tip_end
| tip_begin_end.

(** The object stored per lattice key.  [piece_point] is the extra
    [point] property that the spread [...currentNode] copies into an
    in-progress piece; a finalized piece has none. *)
Record WirePiece : Type := mkWirePiece {
  piece_direction : WireDirection;
  piece_lerp : Q;
  piece_tipPosition : TipPosition;
  piece_point : option Point2i
}.

Record WireNode : Type := mkWireNode {
  point : Point2i;
  direction : WireDirection
}.

Abbreviation Wire := (list WireNode).

Record QueueEntry : Type := mkQueueEntry {
  wire : Wire;
  cursor : nat
}.

Record World : Type := mkWorld {
  dimensions : Point2i;
  wirePieces : gmap string WirePiece;
  wiresQueue : list QueueEntry
}.

(** ** Outcomes and the random source *)

(** A computation either returns or throws a string. *)
Inductive outcome (A : Type) : Type :=
| Ok (a : A)
| Throw (msg : string).
Arguments Ok {A} a.
Arguments Throw {A} msg.

(** Computations that call [Math.random]: the source is a stream of
    numbers, the state is the number of calls made so far. *)
Definition Rand (A : Type) : Type := (nat -> Q) -> nat -> outcome A * nat.

Definition ret {A} (a : A) : Rand A := fun _ i => (Ok a, i).

Definition bind {A B} (m : Rand A) (f : A -> Rand B) : Rand B :=
  fun rnd i =>
    match m rnd i with
    | (Ok a, j) => f a rnd j
    | (Throw e, j) => (Throw e, j)
    end.

Definition lift {A} (o : outcome A) : Rand A := fun _ i => (o, i).

Notation "x <- m ;; k" := (bind m (fun x => k))
  (at level 100, m at next level, right associativity).

Definition Math_random : Rand Q := fun rnd i => (Ok (rnd i), S i).

(** [x < y] on rationals. *)
Definition Qltb (x y : Q) : bool := (Qnum x * QDen y <? Qnum y * QDen x)%Z.

(** [array[i]] for an integral index: [undefined] out of range. *)
Definition jsIndex {T} (array : list T) (i : Z) : option T :=
  if i <? 0 then None else array !! Z.to_nat i.

(** [array[Math.floor(Math.random() * array.length)]]: the floor is taken
    of the rounded product. *)
Definition randomChoice {T} (array : list T) : Rand (option T) :=
  u <- Math_random ;;
  ret (jsIndex array (Qfloor (fl (u * inject_Z (Z.of_nat (length array)))))).

Definition randomDirection : Rand WireDirection :=
  randomChoice ["down"; "down-left"; "down-right"].

(** ** Successor computation and intersection test *)

(** [nextPoint([x, y], direction)], with its [throw 'invalid']. *)
Definition nextPoint (p : Point2i) (direction : WireDirection) : outcome Point2i :=
  let '(x, y) := p in
  if bool_decide (direction = down) then Ok (x, y + 1)
  else if bool_decide (direction = down_left) then Ok (x - 1, y + 1)
  else if bool_decide (direction = down_right) then Ok (x + 1, y + 1)
  else Throw "invalid".

(** [!!world.wirePieces[toLatticePoint(x, y)]]: a stored piece is an
    object, hence truthy; a key of the form [x,y] names no inherited
    property of the object. *)
Definition checkPoint (world : World) (p : Point2i) : bool :=
  let '(x, y) := p in
  match wirePieces world !! toLatticePoint x y with
  | Some _ => true
  | None => false
  end.

(** The callback passed to [wire.some]. *)
Definition nodeIntersects (world : World) (node : WireNode) : bool :=
  let '(x, y) := point node in
  if bool_decide (direction node = down) then
    checkPoint world (x, y) || checkPoint world (x, y + 1)
  else if bool_decide (direction node = down_left) then
    checkPoint world (x, y) || checkPoint world (x - 1, y)
  else if bool_decide (direction node = down_right) then
    checkPoint world (x, y) || checkPoint world (x + 1, y)
  else false.

(** [wire.some(...)] *)
Definition wireIntersects (world : World) (wire : Wire) : bool :=
  existsb (nodeIntersects world) wire.

(** ** Wire generator *)

(** [randomPoint]; [Math.pow(u, 2)] is the rounded square, and each of
    the two products that follow is rounded in turn. *)
Definition randomPoint (w h : Z) : Rand Point2i :=
  u1 <- Math_random ;;
  u2 <- Math_random ;;
  ret (Qfloor (fl (u1 * inject_Z w)),
       Qfloor (fl (fl (fl (u2 * u2) * inject_Z h) * (1 # 2)))).

(** The body of the [for] loop, run [n] more times.  [wire.push] appends
    at the end and [prev] is read back as the last element.  The literal
    [0.35] is the double nearest to 35/100. *)
Fixpoint generateLoop (n : nat) (wire : Wire) (prev : WireNode) (dir : WireDirection)
  : Rand Wire :=
  match n with
  | O => ret wire
  | S n' =>
      p <- lift (nextPoint (point prev) dir) ;;
      u <- Math_random ;;
      dir' <- (if Qltb u (fl (35 # 100)) then
                 if bool_decide (dir = down)
                 then randomChoice ["down-left"; "down-right"]
                 else ret down
               else ret dir) ;;
      let wire' := (wire ++ [mkWireNode p dir'])%list in
      let prev' := default prev (last wire') in
      generateLoop n' wire' prev' dir'
  end.

(** [generateWire(world)]; the calls of [Math.random] are made in the
    order of the source: the length, the x and the y of the first point,
    the first direction, then one or two per iteration. *)
Definition generateWire (world : World) : Rand Wire :=
  let '(w, h) := dimensions world in
  u <- Math_random ;;
  let wireLength := 3 + Qfloor (fl (u * 12)) in
  p0 <- randomPoint w h ;;
  d0 <- randomDirection ;;
  let wire := [mkWireNode p0 d0] in
  let prev := default (mkWireNode p0 d0) (head wire) in
  let dir := direction prev in
  generateLoop (Z.to_nat wireLength) wire prev dir.

(** ** The [Art] controller: admission and animation timers *)

Definition CELL_SIZE : Z := 24.
Definition TIP_RADIUS : Z := 4.
Definition WIRE_LERP_SPEED : Z := 50.

(** The fields of [Art] and the variables captured by the closures of
    [setup].  A timer flag is [true] while its interval is scheduled and
    [false] once [clearInterval] has been called on it. *)
Record ArtState : Type := mkArtState {
  world : World;
  dirty : bool;
  failedTries : nat;
  pieceLerpBeginTime : Z;
  wireGeneratorTimer : bool;
  wireQueueTimer : bool
}.

(** [Math.ceil(a / CELL_SIZE)] on an integral [a]. *)
Definition ceilDiv (a b : Z) : Z := - ((- a) / b).

(** [setup($canvas)]: [now] is the reading of [new Date().getTime()];
    [dirty] is left as it was. *)
Definition setup (offsetWidth offsetHeight now : Z) (wasDirty : bool) : ArtState :=
  {| world := {| dimensions := (ceilDiv offsetWidth CELL_SIZE, ceilDiv offsetHeight CELL_SIZE);
                 wirePieces := ∅;
                 wiresQueue := [] |};
     dirty := wasDirty;
     failedTries := 0;
     pieceLerpBeginTime := now;
     wireGeneratorTimer := true;
     wireQueueTimer := true |}.

Definition unMount (s : ArtState) : ArtState :=
  {| world := world s; dirty := dirty s; failedTries := failedTries s;
     pieceLerpBeginTime := pieceLerpBeginTime s;
     wireGeneratorTimer := false; wireQueueTimer := false |}.

(** What one firing of the admission timer did. *)
Inductive GeneratorEvent : Type :=
| gen_not_scheduled
| gen_queue_busy
| gen_stopped
| gen_threw (msg : string)
| gen_rejected (candidate : Wire)
| gen_enqueued (candidate : Wire).

(** [clearInterval(wireGeneratorTimer)] *)
Definition clearGenerator (s : ArtState) : ArtState :=
  {| world := world s; dirty := dirty s; failedTries := failedTries s;
     pieceLerpBeginTime := pieceLerpBeginTime s;
     wireGeneratorTimer := false; wireQueueTimer := wireQueueTimer s |}.

(** [failedTries++] *)
Definition countFailure (s : ArtState) : ArtState :=
  {| world := world s; dirty := dirty s; failedTries := S (failedTries s);
     pieceLerpBeginTime := pieceLerpBeginTime s;
     wireGeneratorTimer := wireGeneratorTimer s;
     wireQueueTimer := wireQueueTimer s |}.

(** [failedTries = 0; this.world.wiresQueue.push({ wire, cursor: 0 })] *)
Definition enqueue (s : ArtState) (candidate : Wire) : ArtState :=
  {| world := {| dimensions := dimensions (world s);
                 wirePieces := wirePieces (world s);
                 wiresQueue := wiresQueue (world s) ++ [mkQueueEntry candidate 0] |};
     dirty := dirty s; failedTries := 0;
     pieceLerpBeginTime := pieceLerpBeginTime s;
     wireGeneratorTimer := wireGeneratorTimer s;
     wireQueueTimer := wireQueueTimer s |}.

(** The callback of [wireGeneratorTimer].  A cleared interval does not
    run its callback; an exception thrown by the generator leaves the
    callback with the state as it was. *)
Definition wireGeneratorTick (rnd : nat -> Q) (i : nat) (s : ArtState)
  : GeneratorEvent * ArtState * nat :=
  if negb (wireGeneratorTimer s) then (gen_not_scheduled, s, i)
  else if (0 <? length (wiresQueue (world s)))%nat then (gen_queue_busy, s, i)
  else if (200 <? failedTries s)%nat then (gen_stopped, clearGenerator s, i)
  else
    match generateWire (world s) rnd i with
    | (Throw e, j) => (gen_threw e, s, j)
    | (Ok candidate, j) =>
        if negb (wireIntersects (world s) candidate)
        then (gen_enqueued candidate, enqueue s candidate, j)
        else (gen_rejected candidate, countFailure s, j)
    end.

(** What one firing of the animation timer did; a write carries the key
    and the piece stored under it. *)
Inductive QueueEvent : Type :=
| queue_not_scheduled
| queue_empty
| queue_type_error
| queue_finalized (key : string) (piece : WirePiece)
| queue_progress (key : string) (piece : WirePiece)
| queue_removed.

(** [this.world.wirePieces[key] = piece; this.dirty = true], together with
    the new head cursor and segment timer. *)
Definition writePiece (s : ArtState) (key : string) (piece : WirePiece)
    (head : QueueEntry) (tail : list QueueEntry) (beginTime : Z) : ArtState :=
  {| world := {| dimensions := dimensions (world s);
                 wirePieces := <[key := piece]> (wirePieces (world s));
                 wiresQueue := head :: tail |};
     dirty := true;
     failedTries := failedTries s;
     pieceLerpBeginTime := beginTime;
     wireGeneratorTimer := wireGeneratorTimer s;
     wireQueueTimer := wireQueueTimer s |}.

(** The object literal written when a segment is finalized; [cursor'] is
    the cursor after [wireInterp.cursor++]. *)
Definition finalizedPiece (currentNode : WireNode) (cursor' wireLength : nat) : WirePiece :=
  {| piece_direction := direction currentNode;
     piece_lerp := 1;
     piece_tipPosition :=
       if (cursor' =? 1)%nat then tip_begin
       else if (cursor' =? wireLength)%nat then tip_end
       else tip_false;
     piece_point := None |}.

(** The object literal written while a segment is growing:
    [{...currentNode, tipPosition, lerp}]. *)
Definition growingPiece (currentNode : WireNode) (cursor : nat) (lerp : Q) : WirePiece :=
  {| piece_direction := direction currentNode;
     piece_lerp := lerp;
     piece_tipPosition := if (cursor =? 0)%nat then tip_begin_end else tip_end;
     piece_point := Some (point currentNode) |}.

(** The callback of [wireQueueTimer].  [now] is the clock reading taken
    before the comparison, [now'] the one taken when the segment timer is
    reset. *)
Definition wireQueueTick (now now' : Z) (s : ArtState) : QueueEvent * ArtState :=
  if negb (wireQueueTimer s) then (queue_not_scheduled, s)
  else
    match wiresQueue (world s) with
    | [] => (queue_empty, s)
    | wireInterp :: tail =>
        if (cursor wireInterp <? length (wire wireInterp))%nat then
          match wire wireInterp !! cursor wireInterp with
          | None => (queue_type_error, s)
          | Some currentNode =>
              let pieceLerpEndTime := pieceLerpBeginTime s + 1000 / WIRE_LERP_SPEED in
              let '(x, y) := point currentNode in
              if pieceLerpEndTime <? now then
                let cursor' := S (cursor wireInterp) in
                let piece := finalizedPiece currentNode cursor' (length (wire wireInterp)) in
                (queue_finalized (toLatticePoint x y) piece,
                 writePiece s (toLatticePoint x y) piece
                   (mkQueueEntry (wire wireInterp) cursor') tail now')
              else
                let lerp := fl (fl (inject_Z (now - pieceLerpBeginTime s) / inject_Z 1000)
                                * inject_Z WIRE_LERP_SPEED)%Q in
                let piece := growingPiece currentNode (cursor wireInterp) lerp in
                (queue_progress (toLatticePoint x y) piece,
                 writePiece s (toLatticePoint x y) piece wireInterp tail
                   (pieceLerpBeginTime s))
          end
        else
          (queue_removed,
           {| world := {| dimensions := dimensions (world s);
                          wirePieces := wirePieces (world s);
                          wiresQueue := tail |};
              dirty := dirty s; failedTries := failedTries s;
              pieceLerpBeginTime := pieceLerpBeginTime s;
              wireGeneratorTimer := wireGeneratorTimer s;
              wireQueueTimer := wireQueueTimer s |})
    end.

(** ** Schedules: the two timers firing in any order *)

Inductive Tick : Type :=
| admission_tick
| animation_tick (now now' : Z).

Inductive Event : Type :=
| ev_generator (e : GeneratorEvent)
| ev_queue (e : QueueEvent).

Definition artStep (rnd : nat -> Q) (t : Tick) (s : ArtState) (i : nat)
  : Event * ArtState * nat :=
  match t with
  | admission_tick =>
      let '(e, s', j) := wireGeneratorTick rnd i s in (ev_generator e, s', j)
  | animation_tick now now' =>
      let '(e, s') := wireQueueTick now now' s in (ev_queue e, s', i)
  end.

Fixpoint artRun (rnd : nat -> Q) (ticks : list Tick) (s : ArtState) (i : nat)
  : list Event * ArtState * nat :=
  match ticks with
  | [] => ([], s, i)
  | t :: ticks' =>
      let '(e, s', j) := artStep rnd t s i in
      let '(es, s'', k) := artRun rnd ticks' s' j in
      (e :: es, s'', k)
  end.

(** ** Vocabulary of the statements *)

Fixpoint stringForall (P : ascii -> Prop) (s : string) : Prop :=
  match s with
  | EmptyString => True
  | String c s' => P c /\ stringForall P s'
  end.

Definition isDecimalDigit (c : ascii) : Prop :=
  exists d, 0 <= d < 10 /\ c = digitChar d.

Definition int32 (x : Z) : Prop := - 2 ^ 31 <= x < 2 ^ 31.

Definition validDirection (d : WireDirection) : Prop :=
  d = down \/ d = down_left \/ d = down_right.

(** A cell is occupied when a piece is stored under its key. *)
Definition occupied (world : World) (x y : Z) : Prop :=
  is_Some (wirePieces world !! toLatticePoint x y).

(** The direction-dependent rule of the intersection tester, as the
    specification words it. *)
Definition nodeHits (world : World) (node : WireNode) : Prop :=
  let '(x, y) := point node in
  (direction node = down /\ (occupied world x y \/ occupied world x (y + 1)))
  \/ (direction node = down_left /\ (occupied world x y \/ occupied world (x - 1) y))
  \/ (direction node = down_right /\ (occupied world x y \/ occupied world (x + 1) y)).

(** What [Math.random] returns: every value of the random source is a
    double and lies in [0,1). *)
Definition unitRange (rnd : nat -> Q) : Prop :=
  forall i, isDouble (rnd i) /\ (0 <= rnd i /\ rnd i < 1)%Q.

(** The step from [n1] to [n2] is the fixed offset of [n1]'s direction. *)
Definition stepMatches (n1 n2 : WireNode) : Prop :=
  let '(x, y) := point n1 in
  (direction n1 = down /\ point n2 = (x, y + 1))
  \/ (direction n1 = down_left /\ point n2 = (x - 1, y + 1))
  \/ (direction n1 = down_right /\ point n2 = (x + 1, y + 1)).

(** Each node of the wire leads to the next one through [nextPoint]. *)
Definition chained (wire : Wire) : Prop :=
  forall k n1 n2,
    wire !! k = Some n1 -> wire !! S k = Some n2 ->
    nextPoint (point n1) (direction n1) = Ok (point n2).

(** The key under which the piece of a node is stored. *)
Definition nodeKey (node : WireNode) : string :=
  toLatticePoint (fst (point node)) (snd (point node)).

(** A state with one wire of four nodes waiting at cursor [c]; the
    current segment started at time 1000. *)
Definition exampleWire : Wire :=
  [mkWireNode (28, 2) down; mkWireNode (28, 3) down;
   mkWireNode (28, 4) down; mkWireNode (28, 5) down_left].

Definition exampleState (c : nat) : ArtState :=
  {| world := mkWorld (40, 30) ∅ [mkQueueEntry exampleWire c];
     dirty := false; failedTries := 0; pieceLerpBeginTime := 1000;
     wireGeneratorTimer := true; wireQueueTimer := true |}.

(** Every candidate the generator produces on this world intersects. *)
Definition alwaysIntersects (rnd : nat -> Q) (w : World) : Prop :=
  forall i, exists candidate j,
    generateWire w rnd i = (Ok candidate, j) /\ wireIntersects w candidate = true.

(** The tick called [generateWire]. *)
Definition generatesCandidate (e : Event) : bool :=
  match e with
  | ev_generator (gen_rejected _) => true
  | ev_generator (gen_enqueued _) => true
  | ev_generator (gen_threw _) => true
  | _ => false
  end.

(** The tick pushed a wire on the queue. *)
Definition enqueuesWire (e : Event) : bool :=
  match e with
  | ev_generator (gen_enqueued _) => true
  | _ => false
  end.

Definition isAdmission (t : Tick) : bool :=
  match t with
  | admission_tick => true
  | animation_tick _ _ => false
  end.

(** Number of admission ticks in a schedule. *)
Definition admissions (ticks : list Tick) : nat :=
  length (filter (fun t => isAdmission t = true) ticks).

(** Number of candidates generated along a trace. *)
Definition candidates (events : list Event) : nat :=
  length (filter (fun e => generatesCandidate e = true) events).

(** A world whose single column and single row leave (0,0) as the only
    starting point, with that cell occupied. *)
Definition fullWorld : World :=
  mkWorld (1, 1) {[ toLatticePoint 0 0 := mkWirePiece down 1 tip_begin None ]} [].

Definition fullState (failed : nat) : ArtState :=
  {| world := fullWorld; dirty := false; failedTries := failed;
     pieceLerpBeginTime := 0;
     wireGeneratorTimer := true; wireQueueTimer := true |}.

(** [key] is the lattice key of a node of the wire. *)
Definition keyOfWire (w : Wire) (key : string) : Prop :=
  exists node, node ∈ w /\ key = nodeKey node.

(** Between [s] and [s'] the store changed at keys of nodes of [w] only. *)
Definition onlyWrote (w : Wire) (s s' : ArtState) : Prop :=
  forall key, ~ keyOfWire w key ->
    wirePieces (world s') !! key = wirePieces (world s) !! key.

(** In [s'] the wire [w] is still at the head of the queue, with cursor
    [c], in front of the entries [behind], and since [s] only pieces of
    nodes of [w] have been written. *)
Definition headAt (w : Wire) (behind : list QueueEntry) (c : nat)
    (s s' : ArtState) : Prop :=
  wiresQueue (world s') = mkQueueEntry w c :: behind /\ onlyWrote w s s'.

Definition stateAfter (rnd : nat -> Q) (ticks : list Tick) (s : ArtState) (i : nat)
  : ArtState :=
  snd (fst (artRun rnd ticks s i)).

(** Two wires waiting, the first one at cursor [c]. *)
Definition twoWires (c : nat) : ArtState :=
  {| world := mkWorld (40, 30) ∅
                [mkQueueEntry exampleWire c;
                 mkQueueEntry [mkWireNode (3, 0) down; mkWireNode (3, 1) down] 0];
     dirty := false; failedTries := 0; pieceLerpBeginTime := 1000;
     wireGeneratorTimer := true; wireQueueTimer := true |}.

(** ** Rendering *)

(** A number as the renderer computes with it: a finite value, or [NaN]
    (here [None]), which is also what [undefined] becomes in arithmetic.
    Sums, differences and products are rounded. *)
Abbreviation num := (option Q).

Definition toNumber (v : option jsnum) : num :=
  match v with
  | Some (Num z) => Some (inject_Z z)
  | Some NaN => None
  | None => None
  end.

Definition numAdd (a b : num) : num :=
  match a, b with
  | Some x, Some y => Some (fl (x + y))
  | _, _ => None
  end.

Definition numSub (a b : num) : num :=
  match a, b with
  | Some x, Some y => Some (fl (x - y))
  | _, _ => None
  end.

Definition numMul (a b : num) : num :=
  match a, b with
  | Some x, Some y => Some (fl (x * y))
  | _, _ => None
  end.

(** [y !== 0]: [NaN] differs from 0. *)
Definition numNonZero (a : num) : bool :=
  match a with
  | Some x => negb (Qeq_bool x 0)
  | None => true
  end.

#[global] Instance TipPosition_eq_dec : EqDecision TipPosition.
Proof. solve_decision. Defined.

(** The calls made on the 2d context.  [ellipse cx cy rx ry] stands for
    the full turn [g.ellipse(cx, cy, rx, ry, 0, 0, 2 * Math.PI)]. *)
Inductive CanvasCall : Type :=
| clearRect (x y w h : Z)
| setLineWidth (w : Z)
| setStrokeStyle (style : string)
| setLineCap (cap : string)
| setLineJoin (join : string)
| setFillStyle (style : string)
| beginPath
| moveTo (x y : num)
| lineTo (x y : num)
| ellipse (cx cy : num) (rx ry : Z)
| stroke
| fill.

(** The body of the first loop of [render]: the segment of one entry. *)
Definition strokeCalls (lp : string) (piece : WirePiece) : list CanvasCall :=
  let '(x0, y0) := fromLatticePoint lp in
  let x := toNumber x0 in
  let y := toNumber y0 in
  let cell := Some (inject_Z CELL_SIZE) in
  let lerp := Some (piece_lerp piece) in
  [beginPath; moveTo (numMul x cell) (numMul y cell)]
  ++ (if bool_decide (piece_direction piece = down_left) then
        [lineTo (numMul (numSub x lerp) cell) (numMul (numAdd y lerp) cell)]
      else if bool_decide (piece_direction piece = down) then
        [lineTo (numMul x cell) (numMul (numAdd y lerp) cell)]
      else if bool_decide (piece_direction piece = down_right) then
        [lineTo (numMul (numAdd x lerp) cell) (numMul (numAdd y lerp) cell)]
      else [])
  ++ [stroke].

(** [drawTip()] for an entry decoded to [x], [y]. *)
Definition drawTip (x y : num) (piece : WirePiece) : list CanvasCall :=
  let cell := Some (inject_Z CELL_SIZE) in
  let lerp := Some (piece_lerp piece) in
  let tip := piece_tipPosition piece in
  (if numNonZero y
      && (bool_decide (tip = tip_begin) || bool_decide (tip = tip_begin_end))
   then
     if bool_decide (piece_direction piece = down_left) then
       [ellipse (numMul x cell) (numMul y cell) TIP_RADIUS TIP_RADIUS]
     else if bool_decide (piece_direction piece = down) then
       [ellipse (numMul x cell) (numMul y cell) TIP_RADIUS TIP_RADIUS]
     else if bool_decide (piece_direction piece = down_right) then
       [ellipse (numMul x cell) (numMul y cell) TIP_RADIUS TIP_RADIUS]
     else []
   else [])
  ++ (if bool_decide (tip = tip_end) || bool_decide (tip = tip_begin_end)
      then
        if bool_decide (piece_direction piece = down_left) then
          [ellipse (numMul (numSub x lerp) cell) (numMul (numAdd y lerp) cell)
             TIP_RADIUS TIP_RADIUS]
        else if bool_decide (piece_direction piece = down) then
          [ellipse (numMul x cell) (numMul (numAdd y lerp) cell)
             TIP_RADIUS TIP_RADIUS]
        else if bool_decide (piece_direction piece = down_right) then
          [ellipse (numMul (numAdd x lerp) cell) (numMul (numAdd y lerp) cell)
             TIP_RADIUS TIP_RADIUS]
        else []
      else []).

(** The body of the second loop of [render]: the tips of one entry,
    filled and then stroked. *)
Definition tipCalls (lp : string) (piece : WirePiece) : list CanvasCall :=
  let '(x0, y0) := fromLatticePoint lp in
  let x := toNumber x0 in
  let y := toNumber y0 in
  if bool_decide (piece_tipPosition piece = tip_false) then []
  else [setFillStyle "#ededed"; beginPath] ++ drawTip x y piece ++ [fill]
       ++ [beginPath] ++ drawTip x y piece ++ [stroke].

(** [render(g, width, height)].  [entries] is what
    [Object.entries(this.world.wirePieces)] returns: the entries of the
    store in the order in which their keys were first written. *)
Definition render (entries : list (string * WirePiece)) (width height : Z)
  : list CanvasCall :=
  [clearRect 0 0 width height; setLineWidth 3; setStrokeStyle "#c8c8c8";
   setLineCap "round"; setLineJoin "round"]
  ++ flat_map (fun e => strokeCalls (fst e) (snd e)) entries
  ++ flat_map (fun e => tipCalls (fst e) (snd e)) entries.

(** The fields of [Art] seen by the frame callback. *)
Record ArtView : Type := mkArtView {
  art : ArtState;
  renewGraphicsContext : bool
}.

(** What one animation frame did: whether the canvas was resized and a
    new context taken, and the calls of [render] if it ran. *)
Record Frame : Type := mkFrame {
  contextRenewed : bool;
  drawn : option (list CanvasCall)
}.

Definition clearDirty (s : ArtState) : ArtState :=
  {| world := world s; dirty := false; failedTries := failedTries s;
     pieceLerpBeginTime := pieceLerpBeginTime s;
     wireGeneratorTimer := wireGeneratorTimer s;
     wireQueueTimer := wireQueueTimer s |}.

(** [renderFn], the callback of [requestAnimationFrame]. *)
Definition renderFn (entries : list (string * WirePiece)) (offsetWidth offsetHeight : Z)
    (v : ArtView) : Frame * ArtView :=
  ({| contextRenewed := renewGraphicsContext v;
      drawn := if dirty (art v) || renewGraphicsContext v
               then Some (render entries offsetWidth offsetHeight)
               else None |},
   {| art := clearDirty (art v); renewGraphicsContext := false |}).

(** The [resize] listener of the constructor:
    [renewGraphicsContext = true; unMount(); unMount = this.setup($canvas)]. *)
Definition onResize (offsetWidth offsetHeight now : Z) (v : ArtView) : ArtView :=
  {| art := setup offsetWidth offsetHeight now (dirty (unMount (art v)));
     renewGraphicsContext := true |}.

(** ** Vocabulary of the further statements *)

(** [entries] lists the store: each key once, with its piece. *)
Definition enumerates (entries : list (string * WirePiece))
    (store : gmap string WirePiece) : Prop :=
  NoDup (map fst entries)
  /\ forall key piece, (key, piece) ∈ entries <-> store !! key = Some piece.

(** The tick stored a piece. *)
Definition writesPiece (e : Event) : bool :=
  match e with
  | ev_queue (queue_finalized _ _) => true
  | ev_queue (queue_progress _ _) => true
  | _ => false
  end.

(** How the direction of a node may differ from that of its predecessor:
    not at all, from [down] to a diagonal, or from a diagonal to [down]. *)
Definition turnOk (d d' : WireDirection) : Prop :=
  d' = d
  \/ (d = down /\ (d' = down_left \/ d' = down_right))
  \/ ((d = down_left \/ d = down_right) /\ d' = down).

(** All directions of the wire are valid and consecutive ones obey
    [turnOk]. *)
Definition wellTurned (w : Wire) : Prop :=
  Forall (fun node => validDirection (direction node)) w
  /\ forall k n1 n2,
       w !! k = Some n1 -> w !! S k = Some n2 ->
       turnOk (direction n1) (direction n2).

(** Clock readings of successive animation ticks, each taken after the
    end time of the segment started at the previous one. *)
Fixpoint allLate (beginTime : Z) (times : list (Z * Z)) : Prop :=
  match times with
  | [] => True
  | (now, now') :: rest =>
      beginTime + 1000 / WIRE_LERP_SPEED < now /\ allLate now' rest
  end.

Definition animationTicks (times : list (Z * Z)) : list Tick :=
  map (fun t => animation_tick (fst t) (snd t)) times.

(** The direction carried to the next iteration, as the loop computes it. *)
Definition turn (dir : WireDirection) (u : Q) : Rand WireDirection :=
  if Qltb u (fl (35 # 100)) then
    if bool_decide (dir = down)
    then randomChoice ["down-left"; "down-right"]
    else ret down
  else ret dir.

(** [m] reads the random source only at the indices from its starting
    counter up to its final counter, which does not go back: on a source
    that agrees there it behaves the same. *)
Definition readsDrawn {A} (m : Rand A) : Prop :=
  forall rnd rnd' i o j,
    m rnd i = (o, j) ->
    (forall k, (i <= k < j)%nat -> rnd' k = rnd k) ->
    (i <= j)%nat /\ m rnd' i = (o, j).

(** The source that agrees with [rnd] from [i] up to [j] and is 0
    elsewhere. *)
Definition window (rnd : nat -> Q) (i j : nat) : nat -> Q :=
  fun k => if (i <=? k)%nat && (k <? j)%nat then rnd k else 0%Q.

(** The tick left the state as it was. *)
Definition idleEvent (e : Event) : bool :=
  match e with
  | ev_generator gen_not_scheduled => true
  | ev_generator gen_queue_busy => true
  | ev_generator (gen_threw _) => true
  | ev_queue queue_not_scheduled => true
  | ev_queue queue_empty => true
  | ev_queue queue_type_error => true
  | _ => false
  end.

(** The state with the head of the queue removed:
    [this.world.wiresQueue.splice(0, 1)]. *)
Definition dropHead (s : ArtState) (tail : list QueueEntry) : ArtState :=
  {| world := {| dimensions := dimensions (world s);
                 wirePieces := wirePieces (world s);
                 wiresQueue := tail |};
     dirty := dirty s; failedTries := failedTries s;
     pieceLerpBeginTime := pieceLerpBeginTime s;
     wireGeneratorTimer := wireGeneratorTimer s;
     wireQueueTimer := wireQueueTimer s |}.

(** The ways in which one tick of either timer can change the state, with
    what is known of the state it started from. *)
Inductive Transition (s : ArtState) : Event -> ArtState -> Prop :=
| tr_idle e :
    idleEvent e = true -> Transition s e s
| tr_stopped :
    wiresQueue (world s) = [] ->
    Transition s (ev_generator gen_stopped) (clearGenerator s)
| tr_rejected candidate :
    wiresQueue (world s) = [] ->
    wireIntersects (world s) candidate = true ->
    Transition s (ev_generator (gen_rejected candidate)) (countFailure s)
| tr_enqueued candidate :
    wiresQueue (world s) = [] ->
    wireIntersects (world s) candidate = false ->
    Transition s (ev_generator (gen_enqueued candidate)) (enqueue s candidate)
| tr_finalized head tail node now' :
    wiresQueue (world s) = head :: tail ->
    wire head !! cursor head = Some node ->
    let piece := finalizedPiece node (S (cursor head)) (length (wire head)) in
    Transition s (ev_queue (queue_finalized (nodeKey node) piece))
      (writePiece s (nodeKey node) piece
         (mkQueueEntry (wire head) (S (cursor head))) tail now')
| tr_progress head tail node lerp :
    wiresQueue (world s) = head :: tail ->
    wire head !! cursor head = Some node ->
    let piece := growingPiece node (cursor head) lerp in
    Transition s (ev_queue (queue_progress (nodeKey node) piece))
      (writePiece s (nodeKey node) piece head tail (pieceLerpBeginTime s))
| tr_removed head tail :
    wiresQueue (world s) = head :: tail ->
    (length (wire head) <= cursor head)%nat ->
    Transition s (ev_queue queue_removed) (dropHead s tail).

(* ===================================================================== *)
(** * Rounding to binary64 *)
(* ===================================================================== *)

Section Rounding.

Local Open Scope Q_scope.


Lemma pow2_pos k : 0 < pow2 k.
Proof. apply Qpower_0_lt. reflexivity. Qed.

Lemma pow2_add a b : pow2 (a + b) == pow2 a * pow2 b.
Proof. apply Qpower_plus. discriminate. Qed.

Lemma pow2_le a b : (a <= b)%Z -> pow2 a <= pow2 b.
Proof. intros H. apply Qpower_le_compat_l; [exact H | discriminate]. Qed.

Lemma pow2_lt a b : (a < b)%Z -> pow2 a < pow2 b.
Proof. intros H. apply Qpower_lt_compat_l; [exact H | reflexivity]. Qed.

Lemma pow2_lt_inv a b : pow2 a < pow2 b -> (a < b)%Z.
Proof. intros H. apply (Qpower_lt_compat_l_inv 2); [exact H | reflexivity]. Qed.

Lemma pow2_Z k : (0 <= k)%Z -> pow2 k == inject_Z (2 ^ k).
Proof. intros H. symmetry. now apply Zpower_Qpower. Qed.

Lemma pow2_cancel a b : (a + b = 0)%Z -> pow2 a * pow2 b == 1.
Proof. intros H. rewrite <- pow2_add, H. reflexivity. Qed.

Lemma pow2_succ a : pow2 (a + 1) == 2 * pow2 a.
Proof. rewrite pow2_add. change (pow2 1) with 2. ring. Qed.

Lemma Qlog2_spec q : 0 < q -> pow2 (Qlog2 q) <= q /\ q < pow2 (Qlog2 q + 1).
Proof.
  intros Hq. destruct q as [n d]. unfold Qlog2. cbn [Qnum Qden].
  assert (Hn : (0 < n)%Z) by (unfold Qlt in Hq; simpl in Hq; lia).
  set (a := Z.log2 n). set (b := Z.log2 (Z.pos d)).
  assert (Ha0 : (0 <= a)%Z) by apply Z.log2_nonneg.
  assert (Hb0 : (0 <= b)%Z) by apply Z.log2_nonneg.
  destruct (Z.log2_spec n Hn) as [Ha1 Ha2]. fold a in Ha1, Ha2.
  destruct (Z.log2_spec (Z.pos d) ltac:(lia)) as [Hb1 Hb2]. fold b in Hb1, Hb2.
  rewrite Zle_Qle, <- pow2_Z in Ha1 by lia.
  rewrite Zlt_Qlt, <- pow2_Z in Ha2 by lia.
  rewrite Zle_Qle, <- pow2_Z in Hb1 by lia.
  rewrite Zlt_Qlt, <- pow2_Z in Hb2 by lia.
  replace (Z.succ a) with (a + 1)%Z in Ha2 by lia.
  replace (Z.succ b) with (b + 1)%Z in Hb2 by lia.
  rewrite pow2_succ in Ha2, Hb2.
  pose proof (pow2_pos a) as HA. pose proof (pow2_pos b) as HB.
  pose proof (pow2_pos (a - b)) as HAB.
  assert (Hab : pow2 (a - b) * pow2 b == pow2 a).
  { rewrite <- pow2_add. now replace (a - b + b)%Z with a by lia. }
  assert (Hq' : (n # d) * inject_Z (Z.pos d) == inject_Z n).
  { rewrite (Qmake_Qdiv n d). field. discriminate. }
  set (q := n # d) in *. set (D := inject_Z (Z.pos d)) in *. set (N := inject_Z n) in *.
  assert (HD : 0 < D) by (unfold D; reflexivity).
  destruct (Qle_bool (pow2 (a - b)) q) eqn:E.
  - apply Qle_bool_iff in E. split; [exact E|].
    rewrite pow2_succ.
    apply Qmult_lt_r with (z := D * pow2 b); [nra|]. nra.
  - assert (E' : q < pow2 (a - b)).
    { apply Qnot_le_lt. intros H. apply Qle_bool_iff in H. congruence. }
    replace (a - b - 1 + 1)%Z with (a - b)%Z by lia. split; [|exact E'].
    assert (Hhalf : 2 * pow2 (a - b - 1) == pow2 (a - b)).
    { rewrite <- pow2_succ. now replace (a - b - 1 + 1)%Z with (a - b)%Z by lia. }
    apply Qmult_le_r with (z := D * pow2 b); [nra|]. nra.
Qed.

Lemma Qlog2_unique q e : 0 < q -> pow2 e <= q -> q < pow2 (e + 1) -> Qlog2 q = e.
Proof.
  intros Hq Hl Hu. destruct (Qlog2_spec q Hq) as [Hl' Hu'].
  assert (H1 : (e < Qlog2 q + 1)%Z) by (apply pow2_lt_inv; lra).
  assert (H2 : (Qlog2 q < e + 1)%Z) by (apply pow2_lt_inv; lra).
  lia.
Qed.

Lemma Qlog2_comp x y : 0 < x -> x == y -> Qlog2 x = Qlog2 y.
Proof.
  intros Hx Hxy. symmetry. destruct (Qlog2_spec x Hx) as [Hl Hu].
  apply Qlog2_unique; rewrite <- ?Hxy; assumption.
Qed.

Lemma Qlog2_mono x y : 0 < x -> x <= y -> (Qlog2 x <= Qlog2 y)%Z.
Proof.
  intros Hx Hxy. destruct (Qlog2_spec x Hx) as [Hl _].
  destruct (Qlog2_spec y ltac:(lra)) as [_ Hu].
  assert (H : (Qlog2 x < Qlog2 y + 1)%Z) by (apply pow2_lt_inv; lra). lia.
Qed.

(** *** roundEven *)

Lemma roundEven_floor m : (Qfloor m <= roundEven m <= Qfloor m + 1)%Z.
Proof.
  unfold roundEven. destruct (m - inject_Z (Qfloor m) ?= 1 # 2); [|lia|lia].
  destruct (Z.even (Qfloor m)); lia.
Qed.

Lemma roundEven_near m :
  m - (1 # 2) <= inject_Z (roundEven m) /\ inject_Z (roundEven m) <= m + (1 # 2).
Proof.
  pose proof (Qfloor_le m) as Hf. pose proof (Qlt_floor m) as Hc.
  rewrite inject_Z_plus in Hc. change (inject_Z 1) with 1 in Hc.
  unfold roundEven.
  destruct (Qcompare_spec (m - inject_Z (Qfloor m)) (1 # 2)) as [E | E | E].
  - destruct (Z.even (Qfloor m)); rewrite ?inject_Z_plus; change (inject_Z 1) with 1; lra.
  - lra.
  - rewrite inject_Z_plus. change (inject_Z 1) with 1. lra.
Qed.

Lemma roundEven_Z z : roundEven (inject_Z z) = z.
Proof.
  unfold roundEven. rewrite Qfloor_Z.
  destruct (Qcompare_spec (inject_Z z - inject_Z z) (1 # 2)) as [E | E | E]; [lra | reflexivity | lra].
Qed.

#[global] Instance roundEven_comp : Proper (Qeq ==> eq) roundEven.
Proof.
  intros x y Hxy. unfold roundEven. rewrite (Qfloor_comp x y Hxy).
  now rewrite Hxy.
Qed.

Lemma roundEven_mono a b : a <= b -> (roundEven a <= roundEven b)%Z.
Proof.
  intros Hab. pose proof (Qfloor_resp_le a b Hab) as Hfl.
  pose proof (roundEven_floor a) as Ha. pose proof (roundEven_floor b) as Hb.
  destruct (Z.eq_dec (Qfloor a) (Qfloor b)) as [Heq | Hne]; [|lia].
  unfold roundEven. rewrite Heq.
  destruct (Qcompare_spec (a - inject_Z (Qfloor b)) (1 # 2)) as [Ea | Ea | Ea];
    destruct (Qcompare_spec (b - inject_Z (Qfloor b)) (1 # 2)) as [Eb | Eb | Eb];
    try lia; try lra; destruct (Z.even (Qfloor b)); lia.
Qed.

Lemma roundEven_ge_Z z m : inject_Z z <= m -> (z <= roundEven m)%Z.
Proof. intros H. rewrite <- (roundEven_Z z). now apply roundEven_mono. Qed.

Lemma roundEven_le_Z z m : m <= inject_Z z -> (roundEven m <= z)%Z.
Proof. intros H. rewrite <- (roundEven_Z z). now apply roundEven_mono. Qed.


(** *** flPos and fl *)

Lemma flPos_unfold x :
  flPos x = inject_Z (roundEven (x * pow2 (52 - expo x))) * pow2 (expo x - 52).
Proof. reflexivity. Qed.

Lemma expo_comp x y : 0 < x -> x == y -> expo x = expo y.
Proof. intros Hx Hxy. unfold expo. now rewrite (Qlog2_comp x y Hx Hxy). Qed.

Lemma flPos_comp x y : 0 < x -> x == y -> flPos x == flPos y.
Proof.
  intros Hx Hxy. rewrite !flPos_unfold, (expo_comp x y Hx Hxy).
  now rewrite Hxy.
Qed.

Lemma fl_pos x : 0 < x -> fl x = flPos x.
Proof. intros H. unfold fl. destruct (Qcompare_spec x 0); [lra | lra | reflexivity]. Qed.

Lemma fl_neg x : x < 0 -> fl x = - flPos (- x).
Proof. intros H. unfold fl. destruct (Qcompare_spec x 0); [lra | reflexivity | lra]. Qed.

Lemma fl_zero x : x == 0 -> fl x = 0.
Proof. intros H. unfold fl. destruct (Qcompare_spec x 0); [reflexivity | lra | lra]. Qed.

#[global] Instance fl_comp : Proper (Qeq ==> Qeq) fl.
Proof.
  intros x y Hxy. destruct (Qlt_le_dec 0 x) as [Hpos | Hle].
  - rewrite (fl_pos x Hpos), (fl_pos y) by lra. now apply flPos_comp.
  - destruct (Qlt_le_dec x 0) as [Hneg | Hge].
    + rewrite (fl_neg x Hneg), (fl_neg y) by lra.
      apply Qopp_comp. apply flPos_comp; lra.
    + rewrite (fl_zero x), (fl_zero y) by lra. reflexivity.
Qed.

Lemma fl_opp x : fl (- x) == - fl x.
Proof.
  destruct (Qlt_le_dec 0 x) as [Hpos | Hle].
  - rewrite (fl_pos x Hpos), (fl_neg (- x)) by lra.
    apply Qopp_comp. apply flPos_comp; [lra | ring].
  - destruct (Qlt_le_dec x 0) as [Hneg | Hge].
    + rewrite (fl_neg x Hneg), (fl_pos (- x)) by lra. ring.
    + rewrite (fl_zero x), (fl_zero (- x)) by lra. reflexivity.
Qed.

Lemma flPos_nonneg x : 0 < x -> 0 <= flPos x.
Proof.
  intros Hx. rewrite flPos_unfold.
  pose proof (pow2_pos (52 - expo x)). pose proof (pow2_pos (expo x - 52)).
  assert (Hr : (0 <= roundEven (x * pow2 (52 - expo x)))%Z).
  { apply roundEven_ge_Z. change (inject_Z 0) with 0. nra. }
  rewrite Zle_Qle in Hr. change (inject_Z 0) with 0 in Hr. nra.
Qed.

Lemma expo_spec x : 0 < x -> x < pow2 (expo x + 1) /\ (-1022 <= expo x)%Z
                              /\ ((-1022 < expo x)%Z -> pow2 (expo x) <= x).
Proof.
  intros Hx. destruct (Qlog2_spec x Hx) as [Hl Hu]. unfold expo. split; [|split].
  - eapply Qlt_le_trans; [exact Hu|]. apply pow2_le. lia.
  - lia.
  - intros H. replace (Z.max (Qlog2 x) (-1022)) with (Qlog2 x) by lia. exact Hl.
Qed.

Lemma flPos_mono x y : 0 < x -> x <= y -> flPos x <= flPos y.
Proof.
  intros Hx Hxy. assert (Hy : 0 < y) by lra.
  assert (He : (expo x <= expo y)%Z).
  { unfold expo. pose proof (Qlog2_mono x y Hx Hxy). lia. }
  destruct (expo_spec x Hx) as (Hux & Hmx & _).
  destruct (expo_spec y Hy) as (_ & _ & Hly).
  rewrite !flPos_unfold.
  destruct (Z.eq_dec (expo x) (expo y)) as [Heq | Hne].
  - rewrite Heq. pose proof (pow2_pos (52 - expo y)). pose proof (pow2_pos (expo y - 52)).
    assert (Hr : (roundEven (x * pow2 (52 - expo y)) <= roundEven (y * pow2 (52 - expo y)))%Z).
    { apply roundEven_mono. nra. }
    rewrite Zle_Qle in Hr. nra.
  - specialize (Hly ltac:(lia)).
    pose proof (pow2_pos (52 - expo x)) as Hsx. pose proof (pow2_pos (expo x - 52)) as Hsx'.
    pose proof (pow2_pos (52 - expo y)) as Hsy. pose proof (pow2_pos (expo y - 52)) as Hsy'.
    assert (H1 : (roundEven (x * pow2 (52 - expo x)) <= 2 ^ 53)%Z).
    { apply roundEven_le_Z. rewrite <- pow2_Z by lia.
      replace 53%Z with ((expo x + 1) + (52 - expo x))%Z by lia.
      rewrite pow2_add. nra. }
    assert (H2 : (2 ^ 52 <= roundEven (y * pow2 (52 - expo y)))%Z).
    { apply roundEven_ge_Z. rewrite <- pow2_Z by lia.
      replace 52%Z with (expo y + (52 - expo y))%Z at 1 by lia.
      rewrite pow2_add. nra. }
    rewrite Zle_Qle, <- pow2_Z in H1 by lia. rewrite Zle_Qle, <- pow2_Z in H2 by lia.
    apply Qle_trans with (pow2 (expo x + 1)).
    + replace (expo x + 1)%Z with (53 + (expo x - 52))%Z by lia. rewrite pow2_add. nra.
    + apply Qle_trans with (pow2 (expo y)); [apply pow2_le; lia|].
      replace (expo y) with (52 + (expo y - 52))%Z at 1 by lia. rewrite pow2_add. nra.
Qed.

(** Rounding is monotone. *)
Lemma fl_mono x y : x <= y -> fl x <= fl y.
Proof.
  intros Hxy.
  destruct (Qlt_le_dec 0 x) as [Hx | Hx].
  - rewrite (fl_pos x Hx), (fl_pos y) by lra. now apply flPos_mono.
  - destruct (Qlt_le_dec 0 y) as [Hy | Hy].
    + rewrite (fl_pos y Hy). pose proof (flPos_nonneg y Hy).
      destruct (Qlt_le_dec x 0) as [Hx' | Hx'].
      * rewrite (fl_neg x Hx'). pose proof (flPos_nonneg (- x) ltac:(lra)). lra.
      * rewrite (fl_zero x) by lra. assumption.
    + destruct (Qlt_le_dec y 0) as [Hy' | Hy'].
      * rewrite (fl_neg x), (fl_neg y) by lra.
        pose proof (flPos_mono (- y) (- x) ltac:(lra) ltac:(lra)). lra.
      * rewrite (fl_zero y) by lra.
        destruct (Qlt_le_dec x 0) as [Hx' | Hx'].
        -- rewrite (fl_neg x Hx'). pose proof (flPos_nonneg (- x) ltac:(lra)). lra.
        -- rewrite (fl_zero x) by lra. lra.
Qed.

Lemma fl_nonneg x : 0 <= x -> 0 <= fl x.
Proof. intros H. change 0 with (fl 0) at 1. now apply fl_mono. Qed.

(** A positive number whose scaled value is an integer rounds to itself. *)
Lemma flPos_exact x z :
  0 < x -> x * pow2 (52 - expo x) == inject_Z z -> flPos x == x.
Proof.
  intros Hx Hz. rewrite flPos_unfold, Hz, roundEven_Z, <- Hz.
  rewrite <- Qmult_assoc, (pow2_cancel (52 - expo x) (expo x - 52)) by lia. ring.
Qed.

(** An integer of at most 53 bits times a power of two not below the
    smallest subnormal is a double. *)
Lemma fl_repr (r k : Z) :
  (0 <= r <= 2 ^ 53)%Z -> (-1074 <= k)%Z ->
  fl (inject_Z r * pow2 k) == inject_Z r * pow2 k.
Proof.
  intros Hr Hk. pose proof (pow2_pos k) as Hpk.
  destruct (Z.eq_dec r 0%Z) as [-> | Hr0].
  { rewrite fl_zero; [|ring]. ring. }
  assert (Hrq : 0 < inject_Z r) by (change 0 with (inject_Z 0); rewrite <- Zlt_Qlt; lia).
  set (x := inject_Z r * pow2 k).
  assert (Hx : 0 < x) by (unfold x; nra).
  rewrite (fl_pos x Hx).
  set (a := Z.log2 r).
  destruct (Z.log2_spec r ltac:(lia)) as [Ha1 Ha2]. fold a in Ha1, Ha2.
  assert (Ha0 : (0 <= a)%Z) by apply Z.log2_nonneg.
  assert (Ha53 : (a <= 53)%Z).
  { destruct (Z_le_gt_dec a 53) as [H | H]; [exact H|].
    assert (2 ^ 54 <= 2 ^ a)%Z by (apply Z.pow_le_mono_r; lia). lia. }
  assert (Hlog : Qlog2 x = (a + k)%Z).
  { apply Qlog2_unique; [exact Hx | |].
    - unfold x. rewrite pow2_add, (pow2_Z a Ha0).
      rewrite Zle_Qle in Ha1. nra.
    - unfold x. replace (a + k + 1)%Z with ((a + 1) + k)%Z by lia.
      rewrite pow2_add, (pow2_Z (a + 1)) by lia.
      replace (Z.succ a) with (a + 1)%Z in Ha2 by lia.
      rewrite Zlt_Qlt in Ha2. nra. }
  assert (He : expo x = Z.max (a + k) (-1022)) by (unfold expo; now rewrite Hlog).
  destruct (Z_le_gt_dec (k + 52 - expo x) (-1)) as [Hsmall | Hbig].
  - (* only possible for r = 2^53 *)
    assert (Ha : a = 53%Z) by lia.
    assert (Hr53 : r = (2 ^ 53)%Z).
    { rewrite Ha in Ha1. lia. }
    apply (flPos_exact x (2 ^ 52)); [exact Hx|].
    assert (Hex : (k + (52 - expo x))%Z = (-1)%Z) by lia.
    unfold x at 1. rewrite Hr53, <- Qmult_assoc, <- pow2_add, Hex. reflexivity.
  - apply (flPos_exact x (r * 2 ^ (k + 52 - expo x))); [exact Hx|].
    assert (Hex : (k + (52 - expo x))%Z = (k + 52 - expo x)%Z) by lia.
    unfold x at 1. rewrite <- Qmult_assoc, <- pow2_add, Hex.
    rewrite inject_Z_mult, pow2_Z by lia. reflexivity.
Qed.

Lemma fl_pow2 k : (-1074 <= k)%Z -> fl (pow2 k) == pow2 k.
Proof.
  intros Hk. pose proof (fl_repr 1 k ltac:(lia) Hk) as H.
  change (inject_Z 1) with 1 in H. rewrite Qmult_1_l in H. exact H.
Qed.

(** Integers of at most 53 bits are doubles. *)
Lemma fl_inject_Z n : (Z.abs n <= 2 ^ 53)%Z -> fl (inject_Z n) == inject_Z n.
Proof.
  intros Hn. destruct (Z_le_gt_dec 0 n) as [Hpos | Hneg].
  - pose proof (fl_repr n 0 ltac:(lia) ltac:(lia)) as H.
    change (pow2 0) with 1 in H. rewrite Qmult_1_r in H. exact H.
  - pose proof (fl_repr (- n) 0 ltac:(lia) ltac:(lia)) as H.
    change (pow2 0) with 1 in H. rewrite Qmult_1_r in H.
    rewrite inject_Z_opp, fl_opp in H. lra.
Qed.

(** The result of rounding a positive number, as mantissa and exponent. *)
Lemma flPos_shape x :
  0 < x ->
  exists r k, flPos x = inject_Z r * pow2 k
              /\ (0 <= r <= 2 ^ 53)%Z /\ (-1074 <= k)%Z /\ k = (expo x - 52)%Z.
Proof.
  intros Hx. destruct (expo_spec x Hx) as (Hu & Hm & _).
  exists (roundEven (x * pow2 (52 - expo x))), (expo x - 52)%Z.
  split; [apply flPos_unfold|]. split; [|split; [lia | reflexivity]].
  pose proof (pow2_pos (52 - expo x)). split.
  - apply roundEven_ge_Z. change (inject_Z 0) with 0. nra.
  - apply roundEven_le_Z. rewrite <- pow2_Z by lia.
    replace 53%Z with ((expo x + 1) + (52 - expo x))%Z by lia.
    rewrite pow2_add. nra.
Qed.

(** Rounding is idempotent. *)
Lemma fl_idem x : fl (fl x) == fl x.
Proof.
  assert (Hpos : forall y, 0 < y -> fl (flPos y) == flPos y).
  { intros y Hy. destruct (flPos_shape y Hy) as (r & k & -> & Hr & Hk & _).
    now apply fl_repr. }
  destruct (Qlt_le_dec 0 x) as [Hx | Hx].
  - rewrite (fl_pos x Hx). now apply Hpos.
  - destruct (Qlt_le_dec x 0) as [Hx' | Hx'].
    + rewrite (fl_neg x Hx'), fl_opp. apply Qopp_comp. apply Hpos. lra.
    + rewrite (fl_zero x) by lra. reflexivity.
Qed.

(** A double below 1 is at most [belowOne]. *)
Lemma double_below_one u : fl u == u -> 0 <= u -> u < 1 -> u <= belowOne.
Proof.
  intros Hd H0 H1. destruct (Qlt_le_dec belowOne u) as [Hgt | Hle]; [|exact Hle].
  exfalso. unfold belowOne in Hgt.
  assert (Hu : 0 < u).
  { eapply Qlt_trans; [|exact Hgt]. reflexivity. }
  assert (Hlog : Qlog2 u = (-1)%Z).
  { apply Qlog2_unique; [exact Hu | | exact H1].
    apply Qlt_le_weak. eapply Qle_lt_trans; [|exact Hgt]. discriminate. }
  assert (He : expo u = (-1)%Z) by (unfold expo; rewrite Hlog; reflexivity).
  rewrite (fl_pos u Hu), flPos_unfold, He in Hd.
  change (52 - -1)%Z with 53%Z in Hd. change (-1 - 52)%Z with (-53)%Z in Hd.
  set (R := roundEven (u * pow2 53)) in *.
  assert (Hm : inject_Z R == u * pow2 53).
  { rewrite <- Hd at 1. rewrite <- Qmult_assoc, (pow2_cancel (-53) 53) by lia. ring. }
  assert (Hp : pow2 (-53) * pow2 53 == 1) by (apply pow2_cancel; lia).
  pose proof (pow2_pos 53) as H53. pose proof (pow2_pos (-53)) as H53'.
  assert (Hlo : (2 ^ 53 - 1 < R)%Z).
  { rewrite Zlt_Qlt, Hm. unfold Z.sub. rewrite inject_Z_plus, <- pow2_Z by lia.
    change (inject_Z (- (1))) with (- (1)). nra. }
  assert (Hhi : (R < 2 ^ 53)%Z).
  { rewrite Zlt_Qlt, Hm, <- pow2_Z by lia. nra. }
  lia.
Qed.

(** [Math.floor(u * n)] stays below [n]: the product of a number of at
    most [belowOne] and a positive integer rounds below that integer. *)
Lemma fl_scale_below (v : Q) (n : Z) :
  0 <= v -> v <= belowOne -> (0 < n)%Z ->
  0 <= fl (v * inject_Z n) /\ fl (v * inject_Z n) < inject_Z n.
Proof.
  intros Hv0 Hv1 Hn.
  assert (Hnq : 0 < inject_Z n) by (change 0 with (inject_Z 0); now rewrite <- Zlt_Qlt).
  split; [apply fl_nonneg; nra|].
  set (x0 := belowOne * inject_Z n).
  apply Qle_lt_trans with (fl x0); [apply fl_mono; unfold x0; nra|].
  set (a := Z.log2 n).
  destruct (Z.log2_spec n Hn) as [Ha1 Ha2]. fold a in Ha1, Ha2.
  assert (Ha0 : (0 <= a)%Z) by apply Z.log2_nonneg.
  replace (Z.succ a) with (a + 1)%Z in Ha2 by lia.
  pose proof (pow2_pos (-53)) as H53'.
  assert (Hc : pow2 (-53) * pow2 53 == 1) by (apply pow2_cancel; lia).
  destruct (Z.eq_dec n (2 ^ a)%Z) as [Heq | Hne].
  - (* n is a power of two: the bound is itself a double *)
    assert (Hx0 : x0 == inject_Z (2 ^ 53 - 1) * pow2 (a - 53)).
    { unfold x0, belowOne. rewrite Heq, <- pow2_Z by lia.
      unfold Z.sub at 1. rewrite inject_Z_plus, <- pow2_Z by lia.
      change (inject_Z (- (1))) with (- (1)).
      replace (a - 53)%Z with (a + -53)%Z by lia. rewrite pow2_add.
      pose proof (pow2_pos a). nra. }
    rewrite Hx0, fl_repr by lia. rewrite <- Hx0. unfold x0, belowOne. nra.
  - assert (Hlt : (2 ^ a < n)%Z) by lia.
    rewrite Zlt_Qlt, <- pow2_Z in Hlt by lia.
    rewrite Zlt_Qlt, <- pow2_Z in Ha2 by lia.
    pose proof (pow2_pos a) as Hpa.
    destruct (Qlt_le_dec x0 (pow2 a)) as [Hlow | Hhigh].
    + apply Qle_lt_trans with (fl (pow2 a)); [apply fl_mono; lra|].
      rewrite fl_pow2 by lia. exact Hlt.
    + assert (Hx0 : 0 < x0) by lra.
      assert (Hlog : Qlog2 x0 = a).
      { apply Qlog2_unique; [exact Hx0 | exact Hhigh |].
        unfold x0, belowOne. nra. }
      assert (He : expo x0 = a) by (unfold expo; rewrite Hlog; lia).
      rewrite (fl_pos x0 Hx0), flPos_unfold, He.
      pose proof (pow2_pos (52 - a)) as Hs. pose proof (pow2_pos (a - 52)) as Hs'.
      assert (Hss : pow2 (52 - a) * pow2 (a - 52) == 1) by (apply pow2_cancel; lia).
      assert (H52 : pow2 a * pow2 (52 - a) == pow2 52).
      { rewrite <- pow2_add. now replace (a + (52 - a))%Z with 52%Z by lia. }
      assert (Hhalf : pow2 52 * pow2 (-53) == 1 # 2).
      { rewrite <- pow2_add. reflexivity. }
      set (t := inject_Z n * pow2 (52 - a)).
      assert (Ht : pow2 52 < t) by (unfold t; nra).
      assert (Hm : x0 * pow2 (52 - a) < t - (1 # 2)).
      { unfold x0, belowOne. fold t.
        assert (Hexp : (1 - pow2 (-53)) * inject_Z n * pow2 (52 - a)
                       == t - t * pow2 (-53)) by (unfold t; ring).
        rewrite Hexp. nra. }
      destruct (roundEven_near (x0 * pow2 (52 - a))) as [_ Hr].
      assert (Hfin : inject_Z (roundEven (x0 * pow2 (52 - a))) < t) by lra.
      assert (Hnt : inject_Z n == t * pow2 (a - 52)).
      { unfold t. rewrite <- Qmult_assoc, Hss. ring. }
      rewrite Hnt. nra.
Qed.


(** Halving a double that is at least 1 is exact. *)
Lemma fl_half x : 1 <= fl x -> fl (fl x * (1 # 2)) == fl x * (1 # 2).
Proof.
  intros H1.
  assert (Hx : 0 < x).
  { destruct (Qlt_le_dec 0 x) as [Hx | Hx]; [exact Hx|]. exfalso.
    assert (Hle : fl x <= fl 0) by now apply fl_mono.
    change (fl 0) with 0 in Hle. lra. }
  rewrite (fl_pos x Hx) in *.
  destruct (flPos_shape x Hx) as (r & k & Hshape & Hr & Hk & Hke).
  destruct (Z.eq_dec (expo x) (-1022)%Z) as [Hsub | Hnorm].
  - exfalso. destruct (expo_spec x Hx) as (Hu & _ & _). rewrite Hsub in Hu.
    assert (Hle : flPos x <= pow2 (-1022 + 1)).
    { rewrite <- (fl_pos x Hx), <- (fl_pow2 (-1022 + 1)) by lia.
      apply fl_mono. lra. }
    assert (Hsmall : pow2 (-1022 + 1) < 1).
    { change 1 with (pow2 0). apply pow2_lt. lia. }
    lra.
  - destruct (expo_spec x Hx) as (_ & Hm & _).
    rewrite Hshape.
    assert (Hhalf : inject_Z r * pow2 k * (1 # 2) == inject_Z r * pow2 (k - 1)).
    { replace (k - 1)%Z with (k + -1)%Z by lia. rewrite pow2_add.
      change (pow2 (-1)) with (1 # 2). ring. }
    rewrite Hhalf. apply fl_repr; [exact Hr | lia].
Qed.

End Rounding.

(* ===================================================================== *)
(** * Properties of the codec *)
(* ===================================================================== *)

Section CodecProofs.

Lemma digit_cases d :
  0 <= d < 10 ->
  d = 0 \/ d = 1 \/ d = 2 \/ d = 3 \/ d = 4 \/ d = 5 \/ d = 6 \/ d = 7 \/ d = 8 \/ d = 9.
Proof. lia. Qed.

Ltac each_digit H :=
  apply digit_cases in H;
  repeat (destruct H as [H | H]); subst.

Lemma radixDigit_digitChar d : 0 <= d < 10 -> radixDigit 10 (digitChar d) = Some d.
Proof. intros H. each_digit H; reflexivity. Qed.

Lemma digitChar_plain c :
  isDecimalDigit c ->
  isWhiteSpace c = false /\ c <> "-"%char /\ c <> "+"%char /\ c <> ","%char
  /\ c <> "x"%char /\ c <> "X"%char.
Proof.
  intros (d & H & ->). each_digit H; repeat split; discriminate.
Qed.

Lemma mod10_digit n : isDecimalDigit (digitChar (n mod 10)).
Proof. exists (n mod 10). split; [apply Z.mod_pos_bound; lia | reflexivity]. Qed.

Lemma parseDigits_cons R c s acc :
  parseDigits R (String c s) acc
  = match radixDigit R c with
    | Some d => parseDigits R s (Some (R * default 0 acc + d))
    | None => acc
    end.
Proof. reflexivity. Qed.

(** Reading back what [toDigits] printed shifts the accumulator by the
    number of digits and adds [n]. *)
Lemma parseDigits_toDigits f : forall n rest,
  0 <= n < 10 * 2 ^ Z.of_nat f ->
  exists k, 0 <= k /\ forall acc,
    parseDigits 10 (toDigits f n rest) acc
    = parseDigits 10 rest (Some (10 ^ k * default 0 acc + n)).
Proof.
  induction f as [|f IH]; intros n rest Hn.
  - exists 1. split; [lia|]. intros acc. simpl toDigits. rewrite parseDigits_cons.
    change (2 ^ Z.of_nat 0) with 1 in Hn.
    rewrite Z.mod_small by lia. rewrite radixDigit_digitChar by lia.
    f_equal.
  - simpl toDigits. destruct (n <? 10) eqn:Hlt.
    + apply Z.ltb_lt in Hlt. exists 1. split; [lia|]. intros acc.
      rewrite parseDigits_cons. rewrite Z.mod_small by lia.
      rewrite radixDigit_digitChar by lia. f_equal.
    + apply Z.ltb_ge in Hlt.
      destruct (IH (n / 10) (String (digitChar (n mod 10)) rest)) as (k & Hk & Hparse).
      { split; [apply Z.div_pos; lia|].
        apply Z.div_lt_upper_bound; [lia|].
        replace (Z.of_nat (S f)) with (Z.of_nat f + 1) in Hn by lia.
        rewrite Z.pow_add_r in Hn by lia. lia. }
      exists (k + 1). split; [lia|]. intros acc. rewrite Hparse.
      rewrite parseDigits_cons.
      rewrite radixDigit_digitChar by (apply Z.mod_pos_bound; lia).
      f_equal. f_equal. simpl default.
      rewrite Z.pow_add_r by lia.
      pose proof (Z.div_mod n 10). lia.
Qed.

(** The string printed by [toDigits] starts with a decimal digit which
    is followed by [rest] or by another decimal digit. *)
Lemma toDigits_shape f : forall n rest,
  exists c s, toDigits f n rest = String c s /\ isDecimalDigit c
              /\ (s = rest \/ exists c' s', s = String c' s' /\ isDecimalDigit c').
Proof.
  induction f as [|f IH]; intros n rest.
  - simpl. eexists _, _. split; [reflexivity|]. split; [apply mod10_digit | now left].
  - simpl. destruct (n <? 10).
    + eexists _, _. split; [reflexivity|]. split; [apply mod10_digit | now left].
    + destruct (IH (n / 10) (String (digitChar (n mod 10)) rest))
        as (c & s & -> & Hc & Hs).
      exists c, s. split; [reflexivity|]. split; [assumption|]. right.
      destruct Hs as [-> | Hs]; [|assumption].
      eexists _, _. split; [reflexivity | apply mod10_digit].
Qed.

Lemma toDigits_digits f : forall n rest,
  stringForall isDecimalDigit rest -> stringForall isDecimalDigit (toDigits f n rest).
Proof.
  induction f as [|f IH]; intros n rest Hrest; simpl.
  - split; [apply mod10_digit | assumption].
  - destruct (n <? 10).
    + split; [apply mod10_digit | assumption].
    + apply IH. split; [apply mod10_digit | assumption].
Qed.

Lemma log2_fuel n : 0 <= n -> 0 <= n < 10 * 2 ^ Z.of_nat (Z.to_nat (Z.log2 n)).
Proof.
  intros Hn. split; [assumption|].
  rewrite Z2Nat.id by apply Z.log2_nonneg.
  destruct (Z.eq_dec n 0) as [-> | Hne]; [simpl; lia|].
  pose proof (Z.log2_spec n ltac:(lia)) as [_ Hup].
  rewrite Z.pow_succ_r in Hup by apply Z.log2_nonneg. lia.
Qed.

Lemma readRadix_toDigits f n rest :
  (forall c s, rest = String c s -> c <> "x"%char /\ c <> "X"%char) ->
  readRadix (toDigits f n rest) = (10, toDigits f n rest).
Proof.
  intros Hrest.
  destruct (toDigits_shape f n rest) as (c & s & -> & Hc & Hs).
  unfold readRadix.
  destruct (Ascii.eqb_spec c "0") as [-> | Hne].
  - destruct s as [|c' s']; [reflexivity|].
    assert (Hx : c' <> "x"%char /\ c' <> "X"%char).
    { destruct Hs as [<- | (c2 & s2 & [= -> ->] & Hc2)].
      - now apply (Hrest c' s').
      - apply digitChar_plain in Hc2. tauto. }
    destruct Hx as [Hx HX].
    destruct (Ascii.eqb_spec c' "x") as [-> | Hnx]; [contradiction|].
    destruct (Ascii.eqb_spec c' "X") as [-> | HnX]; [contradiction|].
    destruct c' as [[] [] [] [] [] [] [] []]; try reflexivity; congruence.
  - destruct c as [[] [] [] [] [] [] [] []]; try reflexivity; congruence.
Qed.

Lemma readSign_toDigits f n rest :
  readSign (toDigits f n rest) = (1, toDigits f n rest).
Proof.
  destruct (toDigits_shape f n rest) as (c & s & -> & Hc & _).
  apply digitChar_plain in Hc as (_ & Hm & Hp & _).
  unfold readSign.
  destruct c as [[] [] [] [] [] [] [] []]; try reflexivity; congruence.
Qed.

Lemma skipWhiteSpace_toDigits f n rest :
  skipWhiteSpace (toDigits f n rest) = toDigits f n rest.
Proof.
  destruct (toDigits_shape f n rest) as (c & s & -> & Hc & _).
  apply digitChar_plain in Hc as (Hws & _).
  cbn [skipWhiteSpace]. now rewrite Hws.
Qed.

Lemma parseDigits_toDigits_all f n :
  0 <= n < 10 * 2 ^ Z.of_nat f ->
  parseDigits 10 (toDigits f n "") None = Some n.
Proof.
  intros Hn. destruct (parseDigits_toDigits f n "" Hn) as (k & Hk & ->).
  cbn [parseDigits default]. f_equal. lia.
Qed.

Lemma parseInt_numberToString n : parseInt (numberToString n) = Num n.
Proof.
  unfold numberToString, parseInt. destruct (n <? 0) eqn:Hneg.
  - apply Z.ltb_lt in Hneg.
    change (skipWhiteSpace (String "-" ?t)) with (String "-" t).
    change (readSign (String "-" ?t)) with (-1, t).
    cbv iota beta. rewrite readRadix_toDigits by discriminate.
    rewrite parseDigits_toDigits_all by (apply log2_fuel; lia).
    f_equal. lia.
  - apply Z.ltb_ge in Hneg.
    rewrite skipWhiteSpace_toDigits, readSign_toDigits.
    rewrite readRadix_toDigits by discriminate.
    rewrite parseDigits_toDigits_all by (apply log2_fuel; lia).
    f_equal. lia.
Qed.

Lemma numberToString_no_comma n :
  stringForall (fun c => c <> ","%char) (numberToString n).
Proof.
  assert (Hweak : forall s, stringForall isDecimalDigit s ->
                            stringForall (fun c => c <> ","%char) s).
  { induction s as [|c s IH]; simpl; [trivial|]. intros [Hc Hs].
    split; [apply digitChar_plain in Hc; tauto | auto]. }
  unfold numberToString. destruct (n <? 0).
  - split; [discriminate|]. apply Hweak, toDigits_digits. exact I.
  - apply Hweak, toDigits_digits. exact I.
Qed.

Lemma split_no_sep sep s :
  stringForall (fun c => c <> sep) s -> split sep s = [s].
Proof.
  induction s as [|c s IH]; simpl; [reflexivity|]. intros [Hc Hs].
  destruct (Ascii.eqb_spec c sep); [contradiction|]. now rewrite IH.
Qed.

Lemma split_app sep a b :
  stringForall (fun c => c <> sep) a ->
  split sep (a +:+ String sep b) = a :: split sep b.
Proof.
  induction a as [|c a IH]; simpl.
  - intros _. now rewrite Ascii.eqb_refl.
  - intros [Hc Ha]. destruct (Ascii.eqb_spec c sep); [contradiction|].
    now rewrite IH.
Qed.

(** Decoding an encoded key gives back the coordinates as [x | 0] and
    [y | 0] left them. *)
Lemma fromLatticePoint_toLatticePoint x y :
  fromLatticePoint (toLatticePoint x y)
  = (Some (Num (toInt32 x)), Some (Num (toInt32 y))).
Proof.
  unfold fromLatticePoint, toLatticePoint.
  change ("," +:+ numberToString (toInt32 y))
    with (String "," (numberToString (toInt32 y))).
  rewrite split_app by apply numberToString_no_comma.
  rewrite split_no_sep by apply numberToString_no_comma.
  simpl. now rewrite !parseInt_numberToString.
Qed.

Lemma toInt32_id x : int32 x -> toInt32 x = x.
Proof.
  unfold int32, toInt32. intros H. rewrite Z.mod_small; lia.
Qed.

Lemma toInt32_range x : int32 (toInt32 x).
Proof.
  unfold int32, toInt32.
  pose proof (Z.mod_pos_bound (x + 2 ^ 31) (2 ^ 32) ltac:(lia)). lia.
Qed.

End CodecProofs.

Lemma truncate_inject_Z x : truncate (inject_Z x) = x.
Proof. unfold truncate. simpl. apply Z.quot_1_r. Qed.

(** On numbers that are not integral the key is that of the truncated
    coordinates, which is what decoding returns. *)
Lemma fromLatticePoint_toLatticePointQ x y :
  int32 (truncate x) -> int32 (truncate y) ->
  fromLatticePoint (toLatticePointQ x y)
  = (Some (Num (truncate x)), Some (Num (truncate y))).
Proof.
  intros Hx Hy. unfold toLatticePointQ. rewrite fromLatticePoint_toLatticePoint.
  now rewrite (toInt32_id _ Hx), (toInt32_id _ Hy).
Qed.

Example toLatticePointQ_ex : toLatticePointQ (-7 # 2) (5 # 2) = "-3,2".
Proof. reflexivity. Qed.

Example toLatticePoint_ex1 : toLatticePoint 0 0 = "0,0".
Proof. reflexivity. Qed.

Example toLatticePoint_ex2 : toLatticePoint (-15) 7 = "-15,7".
Proof. reflexivity. Qed.

Example toLatticePoint_wraps :
  toLatticePoint (2 ^ 31) 1234567890 = "-2147483648,1234567890".
Proof. vm_compute. reflexivity. Qed.

Example fromLatticePoint_ex1 :
  fromLatticePoint "-15,7" = (Some (Num (-15)), Some (Num 7)).
Proof. reflexivity. Qed.

Example fromLatticePoint_prefixes :
  fromLatticePoint "0x1f,+08z" = (Some (Num 31), Some (Num 8)).
Proof. reflexivity. Qed.

Example fromLatticePoint_malformed : fromLatticePoint "abc" = (Some NaN, None).
Proof. reflexivity. Qed.

(** C2.  For all integers [x], [y] in the signed 32-bit range, decoding
    the encoded key gives back the pair: [fromLatticePoint (toLatticePoint
    x y) = (x, y)]. *)
Theorem codec_round_trip x y :
  int32 x -> int32 y ->
  fromLatticePoint (toLatticePoint x y) = (Some (Num x), Some (Num y)).
Proof.
  intros Hx Hy. rewrite fromLatticePoint_toLatticePoint.
  now rewrite (toInt32_id x Hx), (toInt32_id y Hy).
Qed.

Lemma codec_round_trip_witness :
  int32 (-15) /\ int32 7
  /\ fromLatticePoint (toLatticePoint (-15) 7) = (Some (Num (-15)), Some (Num 7)).
Proof.
  assert (H1 : int32 (-15)) by (unfold int32; lia).
  assert (H2 : int32 7) by (unfold int32; lia).
  split; [exact H1|]. split; [exact H2|].
  exact (codec_round_trip (-15) 7 H1 H2).
Defined.

(* ===================================================================== *)
(** * Successor computation and intersection test *)
(* ===================================================================== *)

Section Intersection.

Lemma checkPoint_occupied world x y :
  checkPoint world (x, y) = true <-> occupied world x y.
Proof.
  unfold checkPoint, occupied.
  destruct (wirePieces world !! toLatticePoint x y) as [piece|].
  - split; [eauto | reflexivity].
  - split; [discriminate | intros [? [=]]].
Qed.

Lemma directions_distinct :
  down <> down_left /\ down <> down_right /\ down_left <> down_right.
Proof. repeat split; discriminate. Qed.

Lemma nodeIntersects_nodeHits world node :
  nodeIntersects world node = true <-> nodeHits world node.
Proof.
  destruct directions_distinct as (Hdl & Hdr & Hlr).
  unfold nodeIntersects, nodeHits. destruct (point node) as [x y].
  case_bool_decide as Hd; [|case_bool_decide as Hl; [|case_bool_decide as Hr]];
    rewrite ?orb_true_iff, ?checkPoint_occupied.
  - split; [tauto|]. intros [[_ H] | [[E _] | [E _]]]; [tauto | congruence | congruence].
  - split; [tauto|]. intros [[E _] | [[_ H] | [E _]]]; [congruence | tauto | congruence].
  - split; [tauto|]. intros [[E _] | [[E _] | [_ H]]]; [congruence | congruence | tauto].
  - split; [discriminate|]. intros [[E _] | [[E _] | [E _]]]; contradiction.
Qed.

Lemma nodeIntersects_invalid world node :
  ~ validDirection (direction node) -> nodeIntersects world node = false.
Proof.
  unfold validDirection, nodeIntersects. intros Hinv.
  destruct (point node) as [x y].
  repeat case_bool_decide; tauto.
Qed.

Lemma nextPoint_invalid p d :
  ~ validDirection d -> nextPoint p d = Throw "invalid".
Proof.
  unfold validDirection, nextPoint. intros Hinv. destruct p as [x y].
  repeat case_bool_decide; tauto.
Qed.

(** The successor of a point along each of the three directions. *)
Lemma nextPoint_valid x y d :
  validDirection d ->
  nextPoint (x, y) d
  = Ok (if bool_decide (d = down) then (x, y + 1)
        else if bool_decide (d = down_left) then (x - 1, y + 1)
        else (x + 1, y + 1)).
Proof.
  unfold validDirection, nextPoint. intros Hv.
  repeat case_bool_decide; try reflexivity. tauto.
Qed.

End Intersection.

(** C1.  [wireIntersects] rejects a wire exactly when one of its nodes
    triggers the rule of its direction: [down] looks at (x,y) and
    (x,y+1), [down-left] at (x,y) and (x-1,y), [down-right] at (x,y) and
    (x+1,y).  With only cell (0,0) occupied, the one-node wire at (0,0)
    going down is rejected and the one at (1,1) going down is accepted. *)
Theorem wireIntersects_correct :
  (forall world wire,
      wireIntersects world wire = true
      <-> exists node, node ∈ wire /\ nodeHits world node)
  /\ (forall dims queue piece,
        let world := mkWorld dims {[ toLatticePoint 0 0 := piece ]} queue in
        wireIntersects world [mkWireNode (0, 0) down] = true
        /\ wireIntersects world [mkWireNode (1, 1) down] = false).
Proof.
  split.
  - intros world wire. unfold wireIntersects. rewrite existsb_exists.
    split; intros (node & Hin & Hhit); exists node.
    + split; [now apply list_elem_of_In | now apply nodeIntersects_nodeHits].
    + split; [now apply list_elem_of_In | now apply nodeIntersects_nodeHits].
  - intros dims queue piece world. split.
    + apply existsb_exists. exists (mkWireNode (0, 0) down).
      split; [now left|]. apply nodeIntersects_nodeHits.
      left. split; [reflexivity|]. left. unfold occupied, world. simpl.
      rewrite lookup_singleton_eq. eauto.
    + unfold wireIntersects. cbn [existsb]. rewrite orb_false_r.
      apply not_true_iff_false. rewrite nodeIntersects_nodeHits.
      unfold nodeHits, occupied, world. cbn [point direction wirePieces].
      assert (H1 : toLatticePoint 0 0 <> toLatticePoint 1 1) by (vm_compute; discriminate).
      assert (H2 : toLatticePoint 0 0 <> toLatticePoint 1 (1 + 1)) by (vm_compute; discriminate).
      rewrite !lookup_singleton_ne by assumption.
      intros [[_ [[? [=]] | [? [=]]]] | [[[=] _] | [[=] _]]].
Qed.

(** C9.  [nextPoint] throws for every direction value that is none of
    the three valid ones, and returns a point for each of the three. *)
Theorem nextPoint_fails_iff_invalid p d :
  (~ validDirection d -> nextPoint p d = Throw "invalid")
  /\ (validDirection d -> exists q, nextPoint p d = Ok q).
Proof.
  split.
  - apply nextPoint_invalid.
  - intros Hv. destruct p as [x y]. rewrite nextPoint_valid by assumption. eauto.
Qed.

Lemma nextPoint_fails_iff_invalid_witness :
  nextPoint (3, 4) (Some "up") = Throw "invalid"
  /\ nextPoint (3, 4) None = Throw "invalid"
  /\ exists q, nextPoint (3, 4) down_left = Ok q.
Proof.
  split; [|split].
  - apply (proj1 (nextPoint_fails_iff_invalid (3, 4) (Some "up"))).
    intros [H | [H | H]]; discriminate H.
  - apply (proj1 (nextPoint_fails_iff_invalid (3, 4) None)).
    intros [H | [H | H]]; discriminate H.
  - apply (proj2 (nextPoint_fails_iff_invalid (3, 4) down_left)).
    right. left. reflexivity.
Defined.

(** C10.  [wireIntersects] is a total function of the store and the
    wire whatever the direction values are: a node whose direction is none
    of the three valid ones is tested as not intersecting, so it can be
    dropped from the wire without changing the answer, whereas
    [nextPoint] throws on that same node. *)
Theorem wireIntersects_total_on_invalid world wire1 node wire2 :
  ~ validDirection (direction node) ->
  nodeIntersects world node = false
  /\ wireIntersects world (wire1 ++ node :: wire2)%list
     = wireIntersects world (wire1 ++ wire2)%list
  /\ (exists b, wireIntersects world (wire1 ++ node :: wire2)%list = b)
  /\ nextPoint (point node) (direction node) = Throw "invalid".
Proof.
  intros Hinv. pose proof (nodeIntersects_invalid world node Hinv) as Hn.
  split; [exact Hn|]. split; [|split].
  - unfold wireIntersects. rewrite !existsb_app. cbn [existsb]. now rewrite Hn.
  - eauto.
  - now apply nextPoint_invalid.
Qed.

Lemma wireIntersects_total_on_invalid_witness :
  let world := mkWorld (1, 1) {[ toLatticePoint 0 0 := mkWirePiece down 1 tip_false None ]} [] in
  let node := mkWireNode (0, 0) (Some "up") in
  nodeIntersects world node = false
  /\ wireIntersects world ([] ++ node :: [])%list = wireIntersects world ([] ++ [])%list
  /\ (exists b, wireIntersects world ([] ++ node :: [])%list = b)
  /\ nextPoint (point node) (direction node) = Throw "invalid".
Proof.
  intros world node.
  apply (wireIntersects_total_on_invalid world [] node []).
  intros [H | [H | H]]; discriminate H.
Defined.

(* ===================================================================== *)
(** * The wire generator *)
(* ===================================================================== *)

Section Generator.

Lemma bind_Ok {A B} (m : Rand A) (f : A -> Rand B) rnd i b j :
  bind m f rnd i = (Ok b, j) ->
  exists a k, m rnd i = (Ok a, k) /\ f a rnd k = (Ok b, j).
Proof.
  unfold bind. destruct (m rnd i) as [[a | e] k]; [eauto | discriminate].
Qed.

Lemma bind_eq {A B} (m : Rand A) (f : A -> Rand B) rnd i a k :
  m rnd i = (Ok a, k) -> bind m f rnd i = f a rnd k.
Proof. unfold bind. now intros ->. Qed.

(** The floor of the rounded product of a double of [0,1) and a positive
    integer is an index below that integer. *)
Lemma Qfloor_unit u n :
  isDouble u /\ (0 <= u /\ u < 1)%Q -> 0 < n -> 0 <= Qfloor (fl (u * inject_Z n)) < n.
Proof.
  intros (Hd & H0 & H1) Hn.
  destruct (fl_scale_below u n H0 (double_below_one u Hd H0 H1) Hn) as [Hlo Hhi].
  split.
  - change 0 with (Qfloor 0). now apply Qfloor_resp_le.
  - rewrite Zlt_Qlt. eapply Qle_lt_trans; [apply Qfloor_le | exact Hhi].
Qed.

Lemma jsIndex_in_range {T} (array : list T) k :
  0 <= k < Z.of_nat (length array) ->
  exists x, jsIndex array k = Some x /\ x ∈ array.
Proof.
  intros Hk. unfold jsIndex.
  destruct (k <? 0) eqn:E; [apply Z.ltb_lt in E; lia|].
  destruct (lookup_lt_is_Some_2 array (Z.to_nat k)) as [x Hx]; [lia|].
  exists x. split; [assumption|]. apply list_elem_of_lookup. eauto.
Qed.

Variable rnd : nat -> Q.

Lemma randomChoice_in_range {T} (array : list T) i :
  unitRange rnd -> (0 < length array)%nat ->
  exists x, randomChoice array rnd i = (Ok (Some x), S i) /\ x ∈ array.
Proof.
  intros Hr Hlen. unfold randomChoice, bind, Math_random, ret.
  destruct (jsIndex_in_range array
              (Qfloor (fl (rnd i * inject_Z (Z.of_nat (length array))))))
    as (x & -> & Hx); [apply Qfloor_unit; [apply Hr | lia] | eauto].
Qed.

(** The direction carried to the next iteration is valid again. *)
Lemma turn_valid dir u i :
  unitRange rnd -> validDirection dir ->
  exists dir' j,
    (if Qltb u (fl (35 # 100)) then
       if bool_decide (dir = down)
       then randomChoice ["down-left"; "down-right"]
       else ret down
     else ret dir) rnd i = (Ok dir', j)
    /\ validDirection dir'.
Proof.
  intros Hr Hv. destruct (Qltb u (fl (35 # 100))).
  - case_bool_decide.
    + destruct (randomChoice_in_range ["down-left"; "down-right"] i Hr) as (x & -> & Hx);
        [simpl; lia|].
      exists (Some x), (S i). split; [reflexivity|].
      apply elem_of_cons in Hx as [-> | Hx]; [right; left; reflexivity|].
      apply elem_of_cons in Hx as [-> | Hx]; [right; right; reflexivity|].
      now apply elem_of_nil in Hx.
    + exists down, i. split; [reflexivity | left; reflexivity].
  - exists dir, i. split; [reflexivity | assumption].
Qed.

Lemma generateLoop_total n : forall wire prev dir i,
  unitRange rnd -> validDirection dir ->
  exists wire' j,
    generateLoop n wire prev dir rnd i = (Ok wire', j)
    /\ length wire' = (length wire + n)%nat.
Proof.
  induction n as [|n IH]; intros wire prev dir i Hr Hv.
  - exists wire, i. split; [reflexivity | lia].
  - cbn [generateLoop]. destruct (point prev) as [x y] eqn:Hp.
    erewrite bind_eq; [|unfold lift; rewrite (nextPoint_valid x y dir Hv); reflexivity].
    erewrite bind_eq; [|reflexivity].
    destruct (turn_valid dir (rnd i) (S i) Hr Hv) as (dir' & j & Hturn & Hv').
    erewrite bind_eq; [|exact Hturn].
    match goal with
    | |- context [generateLoop n ?w ?p dir' rnd j] =>
        destruct (IH w p dir' j Hr Hv') as (wire' & j' & Hloop & Hlen)
    end.
    exists wire', j'. split; [exact Hloop|].
    rewrite Hlen, length_app. simpl. lia.
Qed.

Lemma chained_snoc wire prev node :
  chained wire -> last wire = Some prev ->
  nextPoint (point prev) (direction prev) = Ok (point node) ->
  chained (wire ++ [node]).
Proof.
  intros Hch Hlast Hnext k n1 n2 H1 H2.
  assert (Hk : (S k < length (wire ++ [node]))%nat) by (apply lookup_lt_is_Some; eauto).
  rewrite length_app in Hk. simpl in Hk.
  destruct (decide (S k < length wire)%nat) as [Hlt | Hge].
  - rewrite lookup_app_l in H1 by lia. rewrite lookup_app_l in H2 by lia.
    now apply (Hch k).
  - assert (Hk' : S k = length wire) by lia.
    rewrite lookup_app_l in H1 by lia.
    rewrite lookup_app_r in H2 by lia.
    replace (S k - length wire)%nat with 0%nat in H2 by lia.
    injection H2 as <-.
    rewrite last_lookup in Hlast.
    replace (Nat.pred (length wire)) with k in Hlast by lia.
    rewrite H1 in Hlast. injection Hlast as ->. exact Hnext.
Qed.

Lemma generateLoop_chained n : forall wire prev dir i wire' j,
  generateLoop n wire prev dir rnd i = (Ok wire', j) ->
  last wire = Some prev -> direction prev = dir -> chained wire ->
  chained wire'.
Proof.
  induction n as [|n IH]; intros wire prev dir i wire' j Hrun Hlast Hdir Hch.
  - injection Hrun as <- _. exact Hch.
  - cbn [generateLoop] in Hrun.
    apply bind_Ok in Hrun as (p & i1 & Hnext & Hrun).
    apply bind_Ok in Hrun as (u & i2 & _ & Hrun).
    apply bind_Ok in Hrun as (dir' & i3 & _ & Hrun).
    unfold lift in Hnext. injection Hnext as Hnext _.
    rewrite last_snoc in Hrun. cbn [default] in Hrun.
    apply (IH _ _ _ _ _ _ Hrun).
    + apply last_snoc.
    + reflexivity.
    + apply (chained_snoc wire prev); [assumption | assumption |].
      rewrite Hdir. exact Hnext.
Qed.

Lemma nextPoint_stepMatches n1 n2 :
  nextPoint (point n1) (direction n1) = Ok (point n2) -> stepMatches n1 n2.
Proof.
  unfold nextPoint, stepMatches. destruct (point n1) as [x y].
  repeat case_bool_decide; intros [=]; auto.
Qed.

End Generator.

(** C4.  For every world and every outcome of the random source (doubles
    in [0,1)), [generateWire] returns a wire of 1 + (3 + floor(U*12))
    nodes, U being the first value drawn and the product the rounded one
    of the source: between 4 and 15 nodes. *)
Theorem generateWire_length world rnd i :
  unitRange rnd ->
  exists wire j,
    generateWire world rnd i = (Ok wire, j)
    /\ Z.of_nat (length wire) = 1 + (3 + Qfloor (fl (rnd i * 12)))
    /\ (4 <= length wire <= 15)%nat.
Proof.
  intros Hr. unfold generateWire. destruct (dimensions world) as [w h].
  erewrite bind_eq; [|reflexivity].
  erewrite bind_eq; [|reflexivity].
  destruct (randomChoice_in_range rnd ["down"; "down-left"; "down-right"] (S (S (S i))) Hr)
    as (d & Hd & Hin); [simpl; lia|].
  unfold randomDirection. erewrite bind_eq; [|exact Hd].
  cbn [head default direction].
  assert (Hv : validDirection (Some d)).
  { apply elem_of_cons in Hin as [-> | Hin]; [left; reflexivity|].
    apply elem_of_cons in Hin as [-> | Hin]; [right; left; reflexivity|].
    apply elem_of_cons in Hin as [-> | Hin]; [right; right; reflexivity|].
    now apply elem_of_nil in Hin. }
  pose proof (Qfloor_unit (rnd i) 12 (Hr i) ltac:(lia)) as Hfloor.
  change (inject_Z 12) with 12%Q in Hfloor.
  match goal with
  | |- context [generateLoop ?n ?w ?p ?dir rnd ?k] =>
      destruct (generateLoop_total rnd n w p dir k Hr Hv) as (wire & j & Hloop & Hlen)
  end.
  exists wire, j. split; [exact Hloop|].
  rewrite Hlen. simpl length. split; lia.
Qed.

(** Both bounds are reached. *)
Example generateWire_shortest :
  exists wire j,
    generateWire (mkWorld (40, 30) ∅ []) (fun _ => 0%Q) 0%nat = (Ok wire, j)
    /\ length wire = 4%nat.
Proof. eexists _, _. split; [vm_compute; reflexivity | reflexivity]. Qed.

Example generateWire_longest :
  exists wire j,
    generateWire (mkWorld (40, 30) ∅ []) (fun _ => 15 # 16) 0%nat = (Ok wire, j)
    /\ length wire = 15%nat.
Proof. eexists _, _. split; [vm_compute; reflexivity | reflexivity]. Qed.

(** The floor is that of the rounded product: at the double just below
    5/6 (0.8333333333333333) the exact product is below 10, the rounded
    one is 10, and the wire has 14 nodes. *)
Example generateWire_rounded_length :
  let u := 7505999378950826 # 9007199254740992 in
  isDouble u /\ (u * 12 < 10)%Q /\ (fl (u * 12) == 10)%Q
  /\ exists wire j,
       generateWire (mkWorld (40, 30) ∅ []) (fun _ => u) 0%nat = (Ok wire, j)
       /\ length wire = 14%nat.
Proof.
  intros u. split; [vm_compute; reflexivity|].
  split; [vm_compute; reflexivity|]. split; [vm_compute; reflexivity|].
  eexists _, _. split; [vm_compute; reflexivity | reflexivity].
Qed.

(** Outside [0,1) the random source can make the generator throw: the
    direction read out of range is [undefined]. *)
Example generateWire_out_of_range :
  generateWire (mkWorld (40, 30) ∅ []) (fun _ => 3 # 2) 0%nat = (Throw "invalid", 4%nat).
Proof. vm_compute. reflexivity. Qed.

Lemma generateWire_length_witness :
  exists wire j,
    generateWire (mkWorld (40, 30) ∅ []) (fun _ => 1 # 2) 0%nat = (Ok wire, j)
    /\ Z.of_nat (length wire) = 1 + (3 + Qfloor (fl ((1 # 2) * 12)))
    /\ (4 <= length wire <= 15)%nat.
Proof.
  apply (generateWire_length (mkWorld (40, 30) ∅ []) (fun _ => 1 # 2) 0%nat).
  intros i. vm_compute. repeat split; discriminate.
Defined.

(** C5.  In every wire returned by [generateWire], each node that has a
    successor leads to it by the fixed offset of its own direction:
    (0,1) for [down], (-1,1) for [down-left], (+1,1) for [down-right]. *)
Theorem generateWire_steps world rnd i wire j k n1 n2 :
  generateWire world rnd i = (Ok wire, j) ->
  wire !! k = Some n1 -> wire !! S k = Some n2 ->
  stepMatches n1 n2.
Proof.
  intros Hgen H1 H2. apply nextPoint_stepMatches.
  unfold generateWire in Hgen. destruct (dimensions world) as [w h].
  apply bind_Ok in Hgen as (u & i1 & _ & Hgen).
  apply bind_Ok in Hgen as (p0 & i2 & _ & Hgen).
  apply bind_Ok in Hgen as (d0 & i3 & _ & Hgen).
  cbn [head default direction] in Hgen.
  refine (generateLoop_chained rnd _ _ _ _ _ _ _ Hgen _ _ _ k n1 n2 H1 H2).
  - reflexivity.
  - reflexivity.
  - intros k' m1 m2 _ Hm2. destruct k'; discriminate Hm2.
Qed.

Lemma generateWire_steps_witness :
  let world := mkWorld (40, 30) ∅ [] in
  let rnd := fun i : nat => fl (Z.of_nat (i * 5 mod 7) # 7) in
  let wire := [mkWireNode (28, 2) down; mkWireNode (28, 3) down;
               mkWireNode (28, 4) down; mkWireNode (28, 5) down_left] in
  generateWire world rnd 0%nat = (Ok wire, 8%nat)
  /\ stepMatches (mkWireNode (28, 4) down) (mkWireNode (28, 5) down_left).
Proof.
  intros world rnd wire.
  assert (Hgen : generateWire world rnd 0%nat = (Ok wire, 8%nat)) by (vm_compute; reflexivity).
  split; [exact Hgen|].
  apply (generateWire_steps world rnd 0%nat wire 8%nat 2%nat _ _ Hgen); reflexivity.
Defined.

(* ===================================================================== *)
(** * The reveal queue: one animation tick *)
(* ===================================================================== *)

Section AnimationTick.

Variables (now now' : Z) (s : ArtState) (wireInterp : QueueEntry)
          (tail : list QueueEntry) (currentNode : WireNode).
Hypothesis timer_on : wireQueueTimer s = true.
Hypothesis queue_head : wiresQueue (world s) = wireInterp :: tail.
Hypothesis current : wire wireInterp !! cursor wireInterp = Some currentNode.

Lemma cursor_in_range : (cursor wireInterp <? length (wire wireInterp))%nat = true.
Proof. apply Nat.ltb_lt. apply lookup_lt_is_Some. eauto. Qed.

Lemma wireQueueTick_finalize :
  pieceLerpBeginTime s + 1000 / WIRE_LERP_SPEED < now ->
  let piece := finalizedPiece currentNode (S (cursor wireInterp)) (length (wire wireInterp)) in
  wireQueueTick now now' s
  = (queue_finalized (nodeKey currentNode) piece,
     writePiece s (nodeKey currentNode) piece
       (mkQueueEntry (wire wireInterp) (S (cursor wireInterp))) tail now').
Proof.
  intros Hlate. unfold wireQueueTick, nodeKey.
  rewrite timer_on, queue_head, cursor_in_range, current. cbn [negb].
  destruct (point currentNode) as [x y]. cbn [fst snd].
  apply Z.ltb_lt in Hlate. now rewrite Hlate.
Qed.

Lemma wireQueueTick_progress :
  now <= pieceLerpBeginTime s + 1000 / WIRE_LERP_SPEED ->
  let lerp := fl (fl (inject_Z (now - pieceLerpBeginTime s) / inject_Z 1000)
                  * inject_Z WIRE_LERP_SPEED)%Q in
  let piece := growingPiece currentNode (cursor wireInterp) lerp in
  wireQueueTick now now' s
  = (queue_progress (nodeKey currentNode) piece,
     writePiece s (nodeKey currentNode) piece wireInterp tail (pieceLerpBeginTime s)).
Proof.
  intros Hearly. unfold wireQueueTick, nodeKey.
  rewrite timer_on, queue_head, cursor_in_range, current. cbn [negb].
  destruct (point currentNode) as [x y]. cbn [fst snd].
  apply Z.ltb_ge in Hearly. now rewrite Hearly.
Qed.

End AnimationTick.

(** The factor computed within the budget, for each of the 21 possible
    elapsed times: it is the double next to the elapsed fraction, it lies
    in [0,1], and it reaches 1 at the budget only. *)
Lemma lerp_within_budget elapsed :
  0 <= elapsed <= 1000 / WIRE_LERP_SPEED ->
  let lerp := fl (fl (inject_Z elapsed / inject_Z 1000) * inject_Z WIRE_LERP_SPEED)%Q in
  (Qabs (lerp - inject_Z elapsed / inject_Z (1000 / WIRE_LERP_SPEED)) <= pow2 (-53))%Q
  /\ (0 <= lerp)%Q /\ (lerp <= 1)%Q
  /\ ((lerp < 1)%Q <-> elapsed < 1000 / WIRE_LERP_SPEED).
Proof.
  change (1000 / WIRE_LERP_SPEED) with 20. intros He.
  assert (Hn : exists n, (n <= 20)%nat /\ elapsed = Z.of_nat n)
    by (exists (Z.to_nat elapsed); lia).
  destruct Hn as (n & Hn & ->). clear He.
  do 21 (destruct n as [|n];
         [vm_compute; repeat split; intros; solve [discriminate | reflexivity | assumption]|]).
  lia.
Qed.

(** The factor does not decrease with the elapsed time. *)
Lemma lerp_mono e1 e2 :
  e1 <= e2 ->
  (fl (fl (inject_Z e1 / inject_Z 1000) * inject_Z WIRE_LERP_SPEED)
   <= fl (fl (inject_Z e2 / inject_Z 1000) * inject_Z WIRE_LERP_SPEED))%Q.
Proof.
  intros He. apply fl_mono.
  assert (H1 : (fl (inject_Z e1 / inject_Z 1000) <= fl (inject_Z e2 / inject_Z 1000))%Q).
  { apply fl_mono. rewrite Zle_Qle in He.
    unfold Qdiv. apply Qmult_le_compat_r; [exact He | discriminate]. }
  apply Qmult_le_compat_r; [exact H1 | discriminate].
Qed.

(** C6.  A tick that finalizes the current segment (the clock is past
    the segment's end time) stores for the current node a piece with
    [lerp = 1] whose tip is [begin] when the cursor advances to 1, [end]
    when it advances to the length of a wire longer than 1, and none for an
    interior node; a tick that leaves the segment growing at cursor 0
    stores a piece whose tip is [begin-end]. *)
Theorem tick_tip_positions now now' s wireInterp tail currentNode :
  wireQueueTimer s = true ->
  wiresQueue (world s) = wireInterp :: tail ->
  wire wireInterp !! cursor wireInterp = Some currentNode ->
  let cursor' := S (cursor wireInterp) in
  let len := length (wire wireInterp) in
  (pieceLerpBeginTime s + 1000 / WIRE_LERP_SPEED < now ->
   exists piece s',
     wireQueueTick now now' s = (queue_finalized (nodeKey currentNode) piece, s')
     /\ wirePieces (world s') !! nodeKey currentNode = Some piece
     /\ wiresQueue (world s') = mkQueueEntry (wire wireInterp) cursor' :: tail
     /\ piece_direction piece = direction currentNode
     /\ piece_lerp piece = 1%Q
     /\ (cursor' = 1%nat -> piece_tipPosition piece = tip_begin)
     /\ (cursor' = len -> (1 < len)%nat -> piece_tipPosition piece = tip_end)
     /\ (cursor' <> 1%nat -> cursor' <> len -> piece_tipPosition piece = tip_false))
  /\ (now <= pieceLerpBeginTime s + 1000 / WIRE_LERP_SPEED ->
      cursor wireInterp = 0%nat ->
      exists piece s',
        wireQueueTick now now' s = (queue_progress (nodeKey currentNode) piece, s')
        /\ wirePieces (world s') !! nodeKey currentNode = Some piece
        /\ piece_tipPosition piece = tip_begin_end).
Proof.
  intros Htimer Hqueue Hcur cursor' len. split.
  - intros Hlate. eexists _, _. split.
    { apply (wireQueueTick_finalize now now' s wireInterp tail currentNode); assumption. }
    cbn [writePiece world wirePieces wiresQueue finalizedPiece
         piece_direction piece_lerp piece_tipPosition].
    rewrite lookup_insert_eq. repeat split.
    + intros Hone. fold cursor'. rewrite Hone. reflexivity.
    + intros Hlen Hlong. fold cursor' len.
      destruct (Nat.eqb_spec cursor' 1); [lia|].
      destruct (Nat.eqb_spec cursor' len); [reflexivity | contradiction].
    + intros Hne1 Hnelen. fold cursor' len.
      destruct (Nat.eqb_spec cursor' 1); [contradiction|].
      destruct (Nat.eqb_spec cursor' len); [contradiction | reflexivity].
  - intros Hearly Hzero. eexists _, _. split.
    { apply (wireQueueTick_progress now now' s wireInterp tail currentNode); assumption. }
    cbn [writePiece world wirePieces growingPiece piece_tipPosition].
    rewrite lookup_insert_eq, Hzero. split; reflexivity.
Qed.

Lemma tick_tip_positions_witness :
  (exists piece s',
      wireQueueTick 1021 1022 (exampleState 3) = (queue_finalized "28,5" piece, s')
      /\ piece_lerp piece = 1%Q /\ piece_tipPosition piece = tip_end)
  /\ (exists piece s',
         wireQueueTick 1007 1007 (exampleState 0) = (queue_progress "28,2" piece, s')
         /\ piece_tipPosition piece = tip_begin_end).
Proof.
  split.
  - destruct (tick_tip_positions 1021 1022 (exampleState 3) _ _ _ eq_refl eq_refl eq_refl)
      as [Hfin _].
    destruct (Hfin eq_refl) as (piece & s' & Htick & _ & _ & _ & Hlerp & _ & Hend & _).
    exists piece, s'. split; [exact Htick|]. split; [exact Hlerp|].
    apply Hend; [reflexivity | simpl; lia].
  - destruct (tick_tip_positions 1007 1007 (exampleState 0) _ _ _ eq_refl eq_refl eq_refl)
      as [_ Hgrow].
    destruct (Hgrow ltac:(vm_compute; discriminate) eq_refl) as (piece & s' & Htick & _ & Htip).
    exists piece, s'. split; [exact Htick | exact Htip].
Defined.

(** C7 as stated fails when the elapsed time equals the budget exactly:
    the clock is not past the end time, the segment is not finalized, and
    the piece written has [lerp] equal to 1. *)
Lemma progress_lerp_half_open_counterexample :
  let s := exampleState 0 in
  pieceLerpBeginTime s <= 1020
  /\ 1020 <= pieceLerpBeginTime s + 1000 / WIRE_LERP_SPEED
  /\ exists piece s',
       wireQueueTick 1020 1020 s = (queue_progress "28,2" piece, s')
       /\ wirePieces (world s') !! "28,2" = Some piece
       /\ (piece_lerp piece == 1)%Q
       /\ ~ (piece_lerp piece < 1)%Q.
Proof.
  intros s. split; [vm_compute; discriminate|]. split; [vm_compute; discriminate|].
  eexists _, _. split; [vm_compute; reflexivity|].
  split; [vm_compute; reflexivity|].
  split; [vm_compute; reflexivity | vm_compute; discriminate].
Qed.

(** C7, amended.  A tick at which the clock has not passed the
    segment's end time, on a clock that does not run backwards, stores for
    the current node a growing piece whose [lerp] is the elapsed fraction
    as the source computes it in doubles, [(elapsed / 1000) * 50] with
    both operations rounded: a double within 2^-53 of the elapsed time
    over the budget of 1000/WIRE_LERP_SPEED; it lies in the closed
    interval [0,1], and is below 1 exactly when the elapsed time is below
    the budget. *)
Theorem progress_lerp_closed_interval now now' s wireInterp tail currentNode :
  wireQueueTimer s = true ->
  wiresQueue (world s) = wireInterp :: tail ->
  wire wireInterp !! cursor wireInterp = Some currentNode ->
  pieceLerpBeginTime s <= now ->
  now <= pieceLerpBeginTime s + 1000 / WIRE_LERP_SPEED ->
  exists piece s',
    wireQueueTick now now' s = (queue_progress (nodeKey currentNode) piece, s')
    /\ wirePieces (world s') !! nodeKey currentNode = Some piece
    /\ piece_lerp piece
       = fl (fl (inject_Z (now - pieceLerpBeginTime s) / inject_Z 1000)
             * inject_Z WIRE_LERP_SPEED)
    /\ (Qabs (piece_lerp piece
              - inject_Z (now - pieceLerpBeginTime s) / inject_Z (1000 / WIRE_LERP_SPEED))
        <= pow2 (-53))%Q
    /\ (0 <= piece_lerp piece /\ piece_lerp piece <= 1)%Q
    /\ ((piece_lerp piece < 1)%Q <-> now < pieceLerpBeginTime s + 1000 / WIRE_LERP_SPEED).
Proof.
  intros Htimer Hqueue Hcur Hmono Hearly. eexists _, _. split.
  { apply (wireQueueTick_progress now now' s wireInterp tail currentNode); assumption. }
  cbn [writePiece world wirePieces growingPiece piece_lerp].
  rewrite lookup_insert_eq. split; [reflexivity|]. split; [reflexivity|].
  destruct (lerp_within_budget (now - pieceLerpBeginTime s)) as (Hnear & H0 & H1 & Hlt);
    [lia|].
  split; [exact Hnear|]. split; [split; assumption|].
  rewrite Hlt. lia.
Qed.

(** After 7 ms the factor stored is the double 0.35000000000000003, not
    7/20. *)
Lemma progress_lerp_closed_interval_witness :
  exists piece s',
    wireQueueTick 1007 1007 (exampleState 0) = (queue_progress "28,2" piece, s')
    /\ (piece_lerp piece == 6305039478318695 # 18014398509481984)%Q
    /\ ~ (piece_lerp piece == 7 # 20)%Q
    /\ (Qabs (piece_lerp piece - (7 # 20)) <= pow2 (-53))%Q.
Proof.
  destruct (progress_lerp_closed_interval 1007 1007 (exampleState 0) _ _ _
              eq_refl eq_refl eq_refl
              ltac:(vm_compute; discriminate) ltac:(vm_compute; discriminate))
    as (piece & s' & Htick & _ & Hval & Hnear & _).
  exists piece, s'. split; [exact Htick|]. rewrite Hval.
  split; [vm_compute; reflexivity|]. split; [vm_compute; discriminate|].
  vm_compute; discriminate.
Defined.

(* ===================================================================== *)
(** * Admission: the failure budget *)
(* ===================================================================== *)

Section Admission.

Variable rnd : nat -> Q.

Lemma artRun_cons t ticks s i :
  artRun rnd (t :: ticks) s i
  = let '(e, s', j) := artStep rnd t s i in
    let '(es, s'', k) := artRun rnd ticks s' j in
    (e :: es, s'', k).
Proof. reflexivity. Qed.

Lemma animation_empty_queue now now' s :
  wiresQueue (world s) = [] ->
  exists e, wireQueueTick now now' s = (e, s)
            /\ generatesCandidate (ev_queue e) = false.
Proof.
  intros Hq. unfold wireQueueTick. rewrite Hq.
  destruct (wireQueueTimer s); eexists; split; reflexivity.
Qed.

Lemma wireGeneratorTick_stop s i :
  wireGeneratorTimer s = true -> wiresQueue (world s) = [] ->
  (200 < failedTries s)%nat ->
  wireGeneratorTick rnd i s = (gen_stopped, clearGenerator s, i).
Proof.
  intros Hon Hq Hfull. unfold wireGeneratorTick. rewrite Hon, Hq.
  apply Nat.ltb_lt in Hfull. now rewrite Hfull.
Qed.

Lemma wireGeneratorTick_reject s i candidate j :
  wireGeneratorTimer s = true -> wiresQueue (world s) = [] ->
  (failedTries s <= 200)%nat ->
  generateWire (world s) rnd i = (Ok candidate, j) ->
  wireIntersects (world s) candidate = true ->
  wireGeneratorTick rnd i s = (gen_rejected candidate, countFailure s, j).
Proof.
  intros Hon Hq Hroom Hgen Hhit. unfold wireGeneratorTick.
  rewrite Hon, Hq. apply Nat.ltb_ge in Hroom. rewrite Hroom, Hgen, Hhit. reflexivity.
Qed.

(** Once the admission timer is cleared and the queue is empty nothing
    changes any more. *)
Lemma artRun_stopped ticks : forall s i,
  wireGeneratorTimer s = false -> wiresQueue (world s) = [] ->
  exists events,
    artRun rnd ticks s i = (events, s, i)
    /\ candidates events = 0%nat
    /\ Forall (fun e => enqueuesWire e = false) events.
Proof.
  induction ticks as [|t ticks IH]; intros s i Hoff Hq.
  - exists []. repeat split; constructor.
  - destruct (IH s i Hoff Hq) as (events & Hrun & Hcount & Hnone).
    rewrite artRun_cons. destruct t as [|now now'].
    + unfold artStep, wireGeneratorTick. rewrite Hoff. cbn [negb].
      rewrite Hrun. eexists. split; [reflexivity|].
      split; [exact Hcount | constructor; [reflexivity | exact Hnone]].
    + destruct (animation_empty_queue now now' s Hq) as (e & He & Hgen).
      unfold artStep. rewrite He, Hrun. eexists. split; [reflexivity|].
      split; [|constructor; [reflexivity | exact Hnone]].
      unfold candidates. rewrite filter_cons_False by (rewrite Hgen; discriminate).
      exact Hcount.
Qed.

(** The state after a run during which every candidate was rejected,
    started with [f] failures already counted. *)
Lemma artRun_rejecting ticks : forall s i,
  alwaysIntersects rnd (world s) ->
  wiresQueue (world s) = [] ->
  wireGeneratorTimer s = true ->
  (failedTries s <= 201)%nat ->
  exists events s' i',
    artRun rnd ticks s i = (events, s', i')
    /\ candidates events = Nat.min (admissions ticks) (201 - failedTries s)
    /\ Forall (fun e => enqueuesWire e = false) events
    /\ world s' = world s
    /\ failedTries s' = Nat.min (failedTries s + admissions ticks) 201
    /\ wireGeneratorTimer s' = (failedTries s + admissions ticks <=? 201)%nat.
Proof.
  induction ticks as [|t ticks IH]; intros s i Hall Hq Hon Hf.
  - exists [], s, i. cbn. rewrite Nat.add_0_r.
    repeat split; [constructor | lia |].
    rewrite Hon. symmetry. now apply Nat.leb_le.
  - rewrite artRun_cons. destruct t as [|now now'].
    + unfold artStep.
      destruct (le_lt_dec (failedTries s) 200) as [Hroom | Hfull].
      * (* a candidate is generated and rejected *)
        destruct (Hall i) as (candidate & j & Hgen & Hhit).
        rewrite (wireGeneratorTick_reject s i candidate j Hon Hq Hroom Hgen Hhit).
        destruct (IH (countFailure s) j Hall Hq Hon)
          as (events & s' & i' & -> & Hcount & Hnone & Hw & Hft & Htm).
        { cbn [countFailure failedTries]. lia. }
        cbn [countFailure world failedTries] in *.
        eexists _, _, _. split; [reflexivity|].
        unfold candidates, admissions in *.
        rewrite filter_cons_True by reflexivity.
        rewrite filter_cons_True by reflexivity. cbn [length].
        repeat split;
          [lia | constructor; [reflexivity | exact Hnone] | exact Hw | lia |].
        rewrite Htm. apply eq_true_iff_eq. rewrite !Nat.leb_le. lia.
      * (* the budget is used up: the timer is cleared *)
        rewrite (wireGeneratorTick_stop s i Hon Hq Hfull).
        destruct (artRun_stopped ticks (clearGenerator s) i eq_refl Hq)
          as (events & -> & Hcount & Hnone).
        eexists _, _, _. split; [reflexivity|].
        cbn [clearGenerator world failedTries wireGeneratorTimer].
        unfold candidates, admissions in *.
        rewrite filter_cons_False by discriminate.
        rewrite filter_cons_True by reflexivity. cbn [length].
        repeat split; [lia | constructor; [reflexivity | exact Hnone] | lia |].
        symmetry. apply Nat.leb_gt. lia.
    + destruct (animation_empty_queue now now' s Hq) as (e & He & Hgen).
      unfold artStep. rewrite He.
      destruct (IH s i Hall Hq Hon Hf) as (events & s' & i' & -> & Hcount & Hnone & Hw & Hft & Htm).
      eexists _, _, _. split; [reflexivity|].
      unfold candidates, admissions in *.
      rewrite filter_cons_False by (rewrite Hgen; discriminate).
      rewrite filter_cons_False by discriminate.
      repeat split; [exact Hcount | constructor; [reflexivity | exact Hnone]
                     | exact Hw | exact Hft | exact Htm].
Qed.

End Admission.

Lemma fullWorld_alwaysIntersects : alwaysIntersects (fun _ => 0%Q) fullWorld.
Proof.
  intros i. eexists _, _. split; [vm_compute; reflexivity | vm_compute; reflexivity].
Qed.

(** C3 as stated fails: after 200 consecutive failed attempts the
    counter equals 200, which does not exceed 200, so the next admission
    tick still calls the generator. *)
Lemma admission_stops_after_200_counterexample :
  let rnd := fun _ : nat => 0%Q in
  alwaysIntersects rnd fullWorld
  /\ exists events s200 i200,
       artRun rnd (repeat admission_tick 200) (fullState 0) 0%nat = (events, s200, i200)
       /\ candidates events = 200%nat
       /\ failedTries s200 = 200%nat
       /\ wiresQueue (world s200) = []
       /\ exists candidate s201 i201,
            wireGeneratorTick rnd i200 s200 = (gen_rejected candidate, s201, i201)
            /\ generatesCandidate (ev_generator (gen_rejected candidate)) = true.
Proof.
  intros rnd. split; [exact fullWorld_alwaysIntersects|].
  eexists _, _, _. split; [vm_compute; reflexivity|].
  split; [vm_compute; reflexivity|].
  split; [reflexivity|]. split; [reflexivity|].
  eexists _, _, _. split; [vm_compute; reflexivity | reflexivity].
Qed.

(** On that world the 202nd admission tick clears the timer and the
    203rd does not run. *)
Example admission_stop_tick :
  let rnd := fun _ : nat => 0%Q in
  exists events s201 i201 s202,
    artRun rnd (repeat admission_tick 201) (fullState 0) 0%nat = (events, s201, i201)
    /\ candidates events = 201%nat
    /\ failedTries s201 = 201%nat
    /\ wireGeneratorTimer s201 = true
    /\ wireGeneratorTick rnd i201 s201 = (gen_stopped, s202, i201)
    /\ wireGeneratorTimer s202 = false
    /\ wireGeneratorTick rnd i201 s202 = (gen_not_scheduled, s202, i201).
Proof.
  intros rnd. eexists _, _, _, _. split; [vm_compute; reflexivity|].
  split; [vm_compute; reflexivity|].
  split; [reflexivity|]. split; [reflexivity|].
  split; [vm_compute; reflexivity|]. split; reflexivity.
Qed.

(** C3, amended.  While every candidate intersects, a run started with
    an empty queue and no failure counted generates a candidate at each
    of its first 201 admission ticks and at no other tick, never enqueues
    a wire and leaves the world as it was; the admission tick after the
    201st failure clears the timer, and from then on no schedule makes the
    generator run or a wire enter the queue. *)
Theorem admission_stops_after_201 rnd ticks s i :
  alwaysIntersects rnd (world s) ->
  wiresQueue (world s) = [] ->
  wireGeneratorTimer s = true ->
  failedTries s = 0%nat ->
  exists events s' i',
    artRun rnd ticks s i = (events, s', i')
    /\ candidates events = Nat.min (admissions ticks) 201
    /\ Forall (fun e => enqueuesWire e = false) events
    /\ world s' = world s
    /\ failedTries s' = Nat.min (admissions ticks) 201
    /\ wireGeneratorTimer s' = (admissions ticks <=? 201)%nat
    /\ ((201 <= admissions ticks)%nat ->
        forall more, exists events2 s'' i'',
          artRun rnd more s' i' = (events2, s'', i'')
          /\ candidates events2 = 0%nat
          /\ Forall (fun e => enqueuesWire e = false) events2
          /\ world s'' = world s).
Proof.
  intros Hall Hq Hon Hzero.
  destruct (artRun_rejecting rnd ticks s i Hall Hq Hon ltac:(lia))
    as (events & s' & i' & Hrun & Hcount & Hnone & Hw & Hft & Htm).
  rewrite Hzero in *. rewrite Nat.sub_0_r in Hcount. cbn [Nat.add] in *.
  exists events, s', i'. repeat split; try assumption.
  intros Hmany more.
  destruct (wireGeneratorTimer s') eqn:Hon'.
  - symmetry in Htm. apply Nat.leb_le in Htm.
    destruct (artRun_rejecting rnd more s' i')
      as (events2 & s'' & i'' & Hrun2 & Hcount2 & Hnone2 & Hw2 & _);
      rewrite ?Hw; try assumption; [lia|].
    exists events2, s'', i''. repeat split; try assumption; [lia | congruence].
  - destruct (artRun_stopped rnd more s' i' Hon') as (events2 & Hrun2 & Hcount2 & Hnone2);
      [now rewrite Hw|].
    exists events2, s', i'. repeat split; assumption.
Qed.

Lemma admission_stops_after_201_witness :
  exists events s' i',
    artRun (fun _ => 0%Q) [admission_tick; animation_tick 5 5; admission_tick]
      (fullState 0) 0%nat = (events, s', i')
    /\ candidates events = 2%nat
    /\ failedTries s' = 2%nat.
Proof.
  destruct (admission_stops_after_201 (fun _ => 0%Q)
              [admission_tick; animation_tick 5 5; admission_tick] (fullState 0) 0%nat
              fullWorld_alwaysIntersects eq_refl eq_refl eq_refl)
    as (events & s' & i' & Hrun & Hcount & _ & _ & Hft & _).
  exists events, s', i'. split; [exact Hrun|]. split; [exact Hcount | exact Hft].
Defined.

(* ===================================================================== *)
(** * The reveal queue is drained first in, first out *)
(* ===================================================================== *)

Section Fifo.

Variable rnd : nat -> Q.

Lemma onlyWrote_refl w s : onlyWrote w s s.
Proof. intros key _. reflexivity. Qed.

Lemma onlyWrote_trans w s1 s2 s3 :
  onlyWrote w s1 s2 -> onlyWrote w s2 s3 -> onlyWrote w s1 s3.
Proof. intros H12 H23 key Hkey. rewrite (H23 key Hkey). now apply H12. Qed.

Lemma stateAfter_cons t ticks s i e s1 j :
  artStep rnd t s i = (e, s1, j) ->
  stateAfter rnd (t :: ticks) s i = stateAfter rnd ticks s1 j.
Proof.
  intros Hstep. unfold stateAfter. rewrite artRun_cons, Hstep.
  destruct (artRun rnd ticks s1 j) as [[es s2] k]. reflexivity.
Qed.

(** With a wire waiting, an admission tick leaves everything as it is. *)
Lemma wireGeneratorTick_busy s i entry tail :
  wiresQueue (world s) = entry :: tail ->
  exists e, wireGeneratorTick rnd i s = (e, s, i).
Proof.
  intros Hq. unfold wireGeneratorTick. rewrite Hq.
  destruct (wireGeneratorTimer s); eexists; reflexivity.
Qed.

(** One animation tick on a queue headed by the wire [w] at cursor [c]:
    either [w] stays at the head and at most a piece of one of its nodes
    is written, or the cursor has reached the length of [w], the entry is
    removed and the store is untouched. *)
Lemma wireQueueTick_head now now' s w c behind :
  wiresQueue (world s) = mkQueueEntry w c :: behind ->
  exists e s1,
    wireQueueTick now now' s = (e, s1)
    /\ ((exists c', headAt w behind c' s s1 /\ (c <= c')%nat /\ e <> queue_removed)
        \/ (e = queue_removed /\ (length w <= c)%nat
            /\ wiresQueue (world s1) = behind
            /\ wirePieces (world s1) = wirePieces (world s))).
Proof.
  intros Hq. unfold wireQueueTick. rewrite Hq. cbn [cursor wire].
  destruct (wireQueueTimer s); cbn [negb].
  2:{ eexists _, _. split; [reflexivity|]. left. exists c.
      split; [split; [exact Hq | apply onlyWrote_refl] | split; [lia | discriminate]]. }
  destruct (Nat.ltb_spec c (length w)) as [Hlt | Hge].
  - destruct (w !! c) as [currentNode|] eqn:Hcur.
    2:{ eexists _, _. split; [reflexivity|]. left. exists c.
        split; [split; [exact Hq | apply onlyWrote_refl] | split; [lia | discriminate]]. }
    assert (Hkey : keyOfWire w (nodeKey currentNode)).
    { exists currentNode. split; [|reflexivity]. apply list_elem_of_lookup. eauto. }
    unfold nodeKey in Hkey. destruct (point currentNode) as [x y]. cbn [fst snd] in Hkey.
    destruct (pieceLerpBeginTime s + 1000 / WIRE_LERP_SPEED <? now).
    + eexists _, _. split; [reflexivity|]. left. exists (S c).
      split; [split; [reflexivity|] | split; [lia | discriminate]].
      intros key Hnot. cbn [writePiece world wirePieces].
      apply lookup_insert_ne. intros <-. contradiction.
    + eexists _, _. split; [reflexivity|]. left. exists c.
      split; [split; [reflexivity|] | split; [lia | discriminate]].
      intros key Hnot. cbn [writePiece world wirePieces].
      apply lookup_insert_ne. intros <-. contradiction.
  - eexists _, _. split; [reflexivity|]. right.
    split; [reflexivity|]. split; [exact Hge|]. split; reflexivity.
Qed.

Lemma fifo_run ticks : forall s i w c behind,
  wiresQueue (world s) = mkQueueEntry w c :: behind ->
  (exists c', headAt w behind c' s (stateAfter rnd ticks s i) /\ (c <= c')%nat)
  \/ (exists ticks1 now now' ticks2 c' i1,
         ticks = ticks1 ++ animation_tick now now' :: ticks2
         /\ headAt w behind c' s (stateAfter rnd ticks1 s i)
         /\ (length w <= c')%nat
         /\ exists s2,
              artStep rnd (animation_tick now now') (stateAfter rnd ticks1 s i) i1
              = (ev_queue queue_removed, s2, i1)
              /\ wiresQueue (world s2) = behind
              /\ wirePieces (world s2) = wirePieces (world (stateAfter rnd ticks1 s i))).
Proof.
  induction ticks as [|t ticks IH]; intros s i w c behind Hq.
  - left. exists c. split; [|lia]. split; [exact Hq | apply onlyWrote_refl].
  - assert (Hstep : exists e s1 j,
               artStep rnd t s i = (e, s1, j)
               /\ ((exists c', headAt w behind c' s s1 /\ (c <= c')%nat
                               /\ e <> ev_queue queue_removed)
                   \/ (exists now now', t = animation_tick now now'
                         /\ e = ev_queue queue_removed /\ j = i
                         /\ (length w <= c)%nat
                         /\ wiresQueue (world s1) = behind
                         /\ wirePieces (world s1) = wirePieces (world s)))).
    { destruct t as [|now now'].
      - destruct (wireGeneratorTick_busy s i _ _ Hq) as (e & He).
        exists (ev_generator e), s, i. unfold artStep. rewrite He.
        split; [reflexivity|]. left. exists c.
        split; [split; [exact Hq | apply onlyWrote_refl] | split; [lia | discriminate]].
      - destruct (wireQueueTick_head now now' s w c behind Hq) as (e & s1 & He & Hcases).
        exists (ev_queue e), s1, i. unfold artStep. rewrite He.
        split; [reflexivity|]. destruct Hcases as [(c' & Hhead & Hle & Hne) | Hrem].
        + left. exists c'. split; [exact Hhead | split; [lia | congruence]].
        + right. exists now, now'. destruct Hrem as (-> & Hlen & Hq1 & Hst).
          split; [reflexivity|]. split; [reflexivity|]. split; [reflexivity|].
          split; [exact Hlen|]. split; assumption. }
    destruct Hstep as (e & s1 & j & Hstep & [(c1 & [Hq1 Hw1] & Hle1 & Hne) | Hrem]).
    + rewrite (stateAfter_cons t ticks s i e s1 j Hstep).
      destruct (IH s1 j w c1 behind Hq1)
        as [(c' & [Hq' Hw'] & Hle') | (ticks1 & now & now' & ticks2 & c' & i1 & -> & [Hq' Hw'] & Hrest)].
      * left. exists c'. split; [|lia].
        split; [exact Hq' | now apply (onlyWrote_trans w s s1)].
      * right. exists (t :: ticks1), now, now', ticks2, c', i1.
        rewrite (stateAfter_cons t ticks1 s i e s1 j Hstep).
        split; [reflexivity|].
        split; [split; [exact Hq' | now apply (onlyWrote_trans w s s1)] | exact Hrest].
    + destruct Hrem as (now & now' & -> & -> & -> & Hlen & Hq1 & Hst).
      right. exists [], now, now', ticks, c, i.
      split; [reflexivity|]. change (stateAfter rnd [] s i) with s.
      split; [split; [exact Hq | apply onlyWrote_refl]|].
      split; [exact Hlen|]. exists s1.
      split; [exact Hstep|]. split; assumption.
Qed.

End Fifo.

(** C8.  With two or more wires queued, along every schedule of ticks
    either the first wire is still at the head of the queue, the entries
    behind it are untouched and the store has changed at keys of nodes of
    the first wire only; or the schedule contains the animation tick that
    removed the first entry, and up to that tick the same held, the
    cursor had reached the length of the first wire, and the removal wrote
    nothing.  So no piece of the second wire is written before the first
    wire's cursor has reached its length and its entry has left the
    queue. *)
Theorem reveal_queue_fifo rnd ticks s i e1 e2 rest :
  wiresQueue (world s) = e1 :: e2 :: rest ->
  (exists c,
      headAt (wire e1) (e2 :: rest) c s (stateAfter rnd ticks s i)
      /\ (cursor e1 <= c)%nat)
  \/ (exists ticks1 now now' ticks2 c i1,
         ticks = ticks1 ++ animation_tick now now' :: ticks2
         /\ headAt (wire e1) (e2 :: rest) c s (stateAfter rnd ticks1 s i)
         /\ (length (wire e1) <= c)%nat
         /\ exists s2,
              artStep rnd (animation_tick now now') (stateAfter rnd ticks1 s i) i1
              = (ev_queue queue_removed, s2, i1)
              /\ wiresQueue (world s2) = e2 :: rest
              /\ wirePieces (world s2) = wirePieces (world (stateAfter rnd ticks1 s i))).
Proof.
  intros Hq. apply (fifo_run rnd ticks s i (wire e1) (cursor e1) (e2 :: rest)).
  rewrite Hq. now destruct e1.
Qed.

Lemma reveal_queue_fifo_witness :
  let s := twoWires 3 in
  let second := mkQueueEntry [mkWireNode (3, 0) down; mkWireNode (3, 1) down] 0 in
  let ticks := [animation_tick 1021 1021; admission_tick; animation_tick 1030 1030] in
  let rnd := fun _ : nat => 0%Q in
  (exists c,
      headAt exampleWire [second] c s (stateAfter rnd ticks s 0%nat) /\ (3 <= c)%nat)
  \/ (exists ticks1 now now' ticks2 c i1,
         ticks = ticks1 ++ animation_tick now now' :: ticks2
         /\ headAt exampleWire [second] c s (stateAfter rnd ticks1 s 0%nat)
         /\ (length exampleWire <= c)%nat
         /\ exists s2,
              artStep rnd (animation_tick now now') (stateAfter rnd ticks1 s 0%nat) i1
              = (ev_queue queue_removed, s2, i1)
              /\ wiresQueue (world s2) = [second]
              /\ wirePieces (world s2) = wirePieces (world (stateAfter rnd ticks1 s 0%nat))).
Proof.
  intros s second ticks rnd.
  exact (reveal_queue_fifo rnd ticks s 0%nat (mkQueueEntry exampleWire 3) second [] eq_refl).
Defined.

(** On that run the last node of the first wire is finalized, the entry
    is removed, and the store holds the piece of that node only; the
    second wire is still waiting at cursor 0. *)
Example twoWires_run :
  let s' := stateAfter (fun _ => 0%Q)
              [animation_tick 1021 1021; admission_tick; animation_tick 1030 1030]
              (twoWires 3) 0%nat in
  wiresQueue (world s') = [mkQueueEntry [mkWireNode (3, 0) down; mkWireNode (3, 1) down] 0]
  /\ wirePieces (world s') = {[ "28,5" := finalizedPiece (mkWireNode (28, 5) down_left) 4 4 ]}.
Proof. split; vm_compute; reflexivity. Qed.

(* ===================================================================== *)
(** * Further properties of the codec and of the random choice *)
(* ===================================================================== *)

Lemma toLatticePoint_same_key x y x' y' :
  toLatticePoint x y = toLatticePoint x' y' ->
  toInt32 x = toInt32 x' /\ toInt32 y = toInt32 y'.
Proof.
  intros Heq. apply (f_equal fromLatticePoint) in Heq.
  rewrite !fromLatticePoint_toLatticePoint in Heq.
  now injection Heq as -> ->.
Qed.

(** X1.  Two cells get the same key exactly when their coordinates agree
    after [| 0]: inside the signed 32-bit range distinct cells have
    distinct keys, outside of it coordinates alias modulo 2^32. *)
Theorem toLatticePoint_eq_iff x y x' y' :
  toLatticePoint x y = toLatticePoint x' y'
  <-> toInt32 x = toInt32 x' /\ toInt32 y = toInt32 y'.
Proof.
  split.
  - apply toLatticePoint_same_key.
  - intros [Hx Hy]. unfold toLatticePoint. now rewrite Hx, Hy.
Qed.

Example toLatticePoint_aliases : toLatticePoint (2 ^ 32 + 5) 7 = toLatticePoint 5 7.
Proof. vm_compute. reflexivity. Qed.

(** X2.  For arbitrary finite coordinates, decoding the key gives each
    coordinate truncated toward zero and then reduced to the signed 32-bit
    range. *)
Theorem codec_truncates_and_wraps x y :
  fromLatticePoint (toLatticePointQ x y)
  = (Some (Num (toInt32 (truncate x))), Some (Num (toInt32 (truncate y)))).
Proof. unfold toLatticePointQ. apply fromLatticePoint_toLatticePoint. Qed.

Example codec_truncates_ex :
  fromLatticePoint (toLatticePointQ (-7 # 2) (4294967299 # 1))
  = (Some (Num (-3)), Some (Num 3)).
Proof. vm_compute. reflexivity. Qed.

(** The floor of a rounded number is the exact floor or the next
    integer up to the integers that are doubles. *)
Lemma Qfloor_fl_near (x : Q) :
  (0 <= x)%Q -> Qfloor x + 1 <= 2 ^ 53 ->
  Qfloor x <= Qfloor (fl x) <= Qfloor x + 1.
Proof.
  intros Hx Hbig.
  assert (Hf0 : 0 <= Qfloor x).
  { change 0 with (Qfloor 0). now apply Qfloor_resp_le. }
  pose proof (Qfloor_le x) as Hlo. pose proof (Qlt_floor x) as Hhi.
  split.
  - rewrite <- (Qfloor_Z (Qfloor x)) at 1. apply Qfloor_resp_le.
    rewrite <- (fl_inject_Z (Qfloor x)) by lia. now apply fl_mono.
  - rewrite <- (Qfloor_Z (Qfloor x + 1)). apply Qfloor_resp_le.
    rewrite <- (fl_inject_Z (Qfloor x + 1)) by lia.
    apply fl_mono. now apply Qlt_le_weak.
Qed.

(** X3.  [randomChoice] draws one random value.  When that value is a
    double of [0,1) and the array is not empty, the result is an element
    of the array, never [undefined]: the index, the floor of the rounded
    product of the value and the length, is in range; it is the floor
    of the exact product or the integer above it.  On the empty array the
    result is [undefined] whatever the value. *)
Theorem randomChoice_picks {T} (array : list T) rnd i :
  (isDouble (rnd i) -> (0 <= rnd i /\ rnd i < 1)%Q -> array <> [] ->
   Z.of_nat (length array) <= 2 ^ 53 ->
   let exact := Qfloor (rnd i * inject_Z (Z.of_nat (length array))) in
   let index := Qfloor (fl (rnd i * inject_Z (Z.of_nat (length array)))) in
   exists x,
     randomChoice array rnd i = (Ok (Some x), S i)
     /\ array !! Z.to_nat index = Some x
     /\ x ∈ array
     /\ 0 <= index < Z.of_nat (length array)
     /\ (index = exact \/ index = exact + 1))
  /\ randomChoice (@nil T) rnd i = (Ok None, S i).
Proof.
  split.
  - intros Hd Hu Hne Hbig exact index.
    assert (Hlen : 0 < Z.of_nat (length array)) by (destruct array; [congruence | simpl; lia]).
    pose proof (Qfloor_unit (rnd i) _ (conj Hd Hu) Hlen) as Hk. fold index in Hk.
    assert (Hprod : (0 <= rnd i * inject_Z (Z.of_nat (length array)))%Q).
    { apply Qmult_le_0_compat; [apply Hu|].
      change 0%Q with (inject_Z 0). rewrite <- Zle_Qle. lia. }
    assert (Hexact : exact < Z.of_nat (length array)).
    { unfold exact. rewrite Zlt_Qlt. eapply Qle_lt_trans; [apply Qfloor_le|].
      rewrite <- (Qmult_1_l (inject_Z (Z.of_nat (length array)))) at 2.
      apply Qmult_lt_compat_r; [|apply Hu].
      change 0%Q with (inject_Z 0). now rewrite <- Zlt_Qlt. }
    pose proof (Qfloor_fl_near _ Hprod ltac:(fold exact; lia)) as Hnear.
    fold exact index in Hnear.
    unfold randomChoice, bind, Math_random, ret, jsIndex. fold index.
    destruct (index <? 0) eqn:E; [apply Z.ltb_lt in E; lia|].
    destruct (lookup_lt_is_Some_2 array (Z.to_nat index)) as [x Hx]; [lia|].
    exists x. rewrite Hx. split; [reflexivity|]. split; [reflexivity|].
    split; [apply list_elem_of_lookup; eauto|]. split; lia.
  - unfold randomChoice, bind, Math_random, ret, jsIndex.
    destruct (Qfloor (fl (rnd i * inject_Z (Z.of_nat (length (@nil T))))) <? 0);
      [reflexivity|]. now rewrite lookup_nil.
Qed.

(** At the double 0.6666666666666666 and three elements the exact product
    is below 2 and the rounded one is 2: the third element is chosen. *)
Lemma randomChoice_picks_witness :
  let u := 6004799503160661 # 9007199254740992 in
  Qfloor (u * 3) = 1
  /\ exists x,
       randomChoice ["down"; "down-left"; "down-right"] (fun _ => u) 0%nat
       = (Ok (Some x), 1%nat)
       /\ x = "down-right".
Proof.
  intros u. split; [reflexivity|].
  destruct (proj1 (randomChoice_picks ["down"; "down-left"; "down-right"] (fun _ => u) 0%nat))
    as (x & Hrun & Hx & _).
  - vm_compute. reflexivity.
  - vm_compute. split; [discriminate | reflexivity].
  - discriminate.
  - vm_compute. discriminate.
  - exists x. split; [exact Hrun|]. vm_compute in Hx. now injection Hx as <-.
Defined.

(* ===================================================================== *)
(** * Further properties of the generator *)
(* ===================================================================== *)

Section GeneratorShape.

Variable rnd : nat -> Q.

Lemma bind_Throw {A B} (m : Rand A) (f : A -> Rand B) i e j :
  bind m f rnd i = (Throw e, j) ->
  m rnd i = (Throw e, j)
  \/ exists a k, m rnd i = (Ok a, k) /\ f a rnd k = (Throw e, j).
Proof.
  unfold bind. destruct (m rnd i) as [[a | e'] k]; intros H; [right; eauto|].
  left. now injection H as -> ->.
Qed.

Lemma nextPoint_Throw p d e : nextPoint p d = Throw e -> e = "invalid".
Proof.
  unfold nextPoint. destruct p as [x y].
  repeat case_bool_decide; intros [=]. congruence.
Qed.

Lemma randomChoice_returns {T} (array : list T) i o j :
  randomChoice array rnd i = (o, j) -> exists x, o = Ok x /\ j = S i.
Proof. unfold randomChoice, bind, Math_random, ret. intros [= <- <-]. eauto. Qed.

Lemma turn_returns dir u i o j :
  turn dir u rnd i = (o, j) -> exists d, o = Ok d.
Proof.
  unfold turn. destruct (Qltb u (fl (35 # 100))); [case_bool_decide|].
  - intros Hrun. apply randomChoice_returns in Hrun as (x & -> & _). eauto.
  - intros [= <- _]. eauto.
  - intros [= <- _]. eauto.
Qed.

Lemma turn_step dir u i dir' j :
  unitRange rnd -> validDirection dir ->
  turn dir u rnd i = (Ok dir', j) ->
  validDirection dir' /\ turnOk dir dir'.
Proof.
  intros Hr Hv. unfold turn. destruct (Qltb u (fl (35 # 100))); [case_bool_decide as Hd|].
  - intros Hrun.
    destruct (randomChoice_in_range rnd ["down-left"; "down-right"] i Hr) as (x & Hx & Hin);
      [simpl; lia|].
    rewrite Hx in Hrun. injection Hrun as <- _.
    apply elem_of_cons in Hin as [-> | Hin].
    { split; [right; left; reflexivity|]. right. left. split; [exact Hd | left; reflexivity]. }
    apply elem_of_cons in Hin as [-> | Hin]; [|now apply elem_of_nil in Hin].
    split; [right; right; reflexivity|]. right. left. split; [exact Hd | right; reflexivity].
  - intros [= <- _]. split; [left; reflexivity|].
    right. right. split; [|reflexivity]. destruct Hv as [? | ?]; [contradiction | assumption].
  - intros [= <- _]. split; [assumption | left; reflexivity].
Qed.

Lemma generateLoop_S n wire prev dir :
  generateLoop (S n) wire prev dir
  = (p <- lift (nextPoint (point prev) dir) ;;
     u <- Math_random ;;
     dir' <- turn dir u ;;
     generateLoop n (wire ++ [mkWireNode p dir'])
       (default prev (last (wire ++ [mkWireNode p dir']))) dir').
Proof. reflexivity. Qed.

Lemma consecutive_snoc (R : WireNode -> WireNode -> Prop) (w : Wire) prev node :
  (forall k n1 n2, w !! k = Some n1 -> w !! S k = Some n2 -> R n1 n2) ->
  last w = Some prev -> R prev node ->
  forall k n1 n2,
    (w ++ [node]) !! k = Some n1 -> (w ++ [node]) !! S k = Some n2 -> R n1 n2.
Proof.
  intros Hall Hlast Hnew k n1 n2 H1 H2.
  assert (Hk : (S k < length (w ++ [node]))%nat) by (apply lookup_lt_is_Some; eauto).
  rewrite length_app in Hk. simpl in Hk.
  destruct (decide (S k < length w)%nat) as [Hlt | Hge].
  - rewrite lookup_app_l in H1 by lia. rewrite lookup_app_l in H2 by lia.
    now apply (Hall k).
  - rewrite lookup_app_l in H1 by lia.
    rewrite lookup_app_r in H2 by lia.
    replace (S k - length w)%nat with 0%nat in H2 by lia.
    injection H2 as <-.
    rewrite last_lookup in Hlast.
    replace (Nat.pred (length w)) with k in Hlast by lia.
    rewrite H1 in Hlast. now injection Hlast as ->.
Qed.

Lemma generateLoop_extends n : forall wire prev dir i wire' j,
  generateLoop n wire prev dir rnd i = (Ok wire', j) ->
  exists ext, wire' = wire ++ ext /\ length ext = n.
Proof.
  induction n as [|n IH]; intros wire prev dir i wire' j Hrun.
  - injection Hrun as <- _. exists []. now rewrite app_nil_r.
  - rewrite generateLoop_S in Hrun.
    apply bind_Ok in Hrun as (p & i1 & _ & Hrun).
    apply bind_Ok in Hrun as (u & i2 & _ & Hrun).
    apply bind_Ok in Hrun as (dir' & i3 & _ & Hrun).
    apply IH in Hrun as (ext & -> & Hlen).
    exists (mkWireNode p dir' :: ext). rewrite <- app_assoc. split; [reflexivity|].
    simpl. now rewrite Hlen.
Qed.

Lemma generateLoop_wellTurned n : forall wire prev dir i wire' j,
  unitRange rnd ->
  generateLoop n wire prev dir rnd i = (Ok wire', j) ->
  last wire = Some prev -> direction prev = dir -> validDirection dir ->
  wellTurned wire -> wellTurned wire'.
Proof.
  induction n as [|n IH]; intros wire prev dir i wire' j Hr Hrun Hlast Hdir Hv Hwt.
  - injection Hrun as <- _. exact Hwt.
  - rewrite generateLoop_S in Hrun.
    apply bind_Ok in Hrun as (p & i1 & _ & Hrun).
    apply bind_Ok in Hrun as (u & i2 & _ & Hrun).
    apply bind_Ok in Hrun as (dir' & i3 & Hturn & Hrun).
    destruct (turn_step dir u i2 dir' i3 Hr Hv Hturn) as [Hv' Hok].
    rewrite last_snoc in Hrun. cbn [default] in Hrun.
    apply (IH _ _ _ _ _ _ Hr Hrun); [apply last_snoc | reflexivity | exact Hv' |].
    destruct Hwt as [Hall Hpairs]. split.
    + apply Forall_app. split; [exact Hall|]. constructor; [exact Hv' | constructor].
    + apply (consecutive_snoc (fun n1 n2 => turnOk (direction n1) (direction n2)) wire prev);
        [exact Hpairs | exact Hlast | now rewrite Hdir].
Qed.

Lemma generateLoop_Throw n : forall wire prev dir i e j,
  generateLoop n wire prev dir rnd i = (Throw e, j) -> e = "invalid".
Proof.
  induction n as [|n IH]; intros wire prev dir i e j Hrun; [discriminate|].
  rewrite generateLoop_S in Hrun.
  apply bind_Throw in Hrun as [Hthrow | (p & i1 & _ & Hrun)].
  { unfold lift in Hthrow. injection Hthrow as Hthrow _. now apply nextPoint_Throw in Hthrow. }
  apply bind_Throw in Hrun as [Hthrow | (u & i2 & _ & Hrun)]; [discriminate|].
  apply bind_Throw in Hrun as [Hthrow | (dir' & i3 & _ & Hrun)].
  { apply turn_returns in Hthrow as (d & [=]). }
  now apply IH in Hrun.
Qed.

(** The first node and the loop that follows it. *)
Lemma generateWire_unfold world i :
  generateWire world rnd i
  = (let n0 := mkWireNode
                 (Qfloor (fl (rnd (S i) * inject_Z (fst (dimensions world)))),
                  Qfloor (fl (fl (fl (rnd (S (S i)) * rnd (S (S i)))
                                  * inject_Z (snd (dimensions world))) * (1 # 2))))
                 (jsIndex ["down"; "down-left"; "down-right"]
                    (Qfloor (fl (rnd (S (S (S i))) * inject_Z 3)))) in
     generateLoop (Z.to_nat (3 + Qfloor (fl (rnd i * 12)))) [n0] n0 (direction n0)
       rnd (S (S (S (S i))))).
Proof. unfold generateWire. destruct (dimensions world) as [w h]. reflexivity. Qed.

Lemma generateWire_chained world i wire j :
  generateWire world rnd i = (Ok wire, j) -> chained wire.
Proof.
  rewrite generateWire_unfold. cbv zeta. intros Hrun.
  apply (generateLoop_chained rnd _ _ _ _ _ _ _ Hrun); [reflexivity | reflexivity |].
  intros k m1 m2 _ Hm2. destruct k; discriminate Hm2.
Qed.

Lemma generateWire_head world i wire j :
  generateWire world rnd i = (Ok wire, j) ->
  exists n0,
    wire !! 0%nat = Some n0
    /\ point n0 = (Qfloor (fl (rnd (S i) * inject_Z (fst (dimensions world)))),
                   Qfloor (fl (fl (fl (rnd (S (S i)) * rnd (S (S i)))
                                   * inject_Z (snd (dimensions world))) * (1 # 2)))).
Proof.
  rewrite generateWire_unfold. cbv zeta. intros Hrun.
  apply generateLoop_extends in Hrun as (ext & -> & _).
  eexists. split; reflexivity.
Qed.

Lemma generateWire_returns world i :
  unitRange rnd ->
  exists wire j,
    generateWire world rnd i = (Ok wire, j)
    /\ length wire = S (Z.to_nat (3 + Qfloor (fl (rnd i * 12))))
    /\ (4 <= length wire <= 15)%nat
    /\ wellTurned wire.
Proof.
  intros Hr. rewrite generateWire_unfold. cbv zeta.
  destruct (jsIndex_in_range ["down"; "down-left"; "down-right"]
              (Qfloor (fl (rnd (S (S (S i))) * inject_Z 3))))
    as (d & Hd & Hin); [apply (Qfloor_unit _ 3 (Hr _)); lia|].
  rewrite Hd. cbn [direction].
  assert (Hv : validDirection (Some d)).
  { apply elem_of_cons in Hin as [-> | Hin]; [left; reflexivity|].
    apply elem_of_cons in Hin as [-> | Hin]; [right; left; reflexivity|].
    apply elem_of_cons in Hin as [-> | Hin]; [right; right; reflexivity|].
    now apply elem_of_nil in Hin. }
  match goal with
  | |- context [generateLoop ?n ?w ?p ?dir rnd ?k] =>
      destruct (generateLoop_total rnd n w p dir k Hr Hv) as (wire & j & Hloop & Hlen)
  end.
  exists wire, j. split; [exact Hloop|].
  pose proof (Qfloor_unit (rnd i) 12 (Hr i) ltac:(lia)) as Hfloor.
  change (inject_Z 12) with 12%Q in Hfloor.
  split; [rewrite Hlen; simpl length; lia|]. split; [rewrite Hlen; simpl length; lia|].
  apply (generateLoop_wellTurned _ _ _ _ _ _ _ Hr Hloop); [reflexivity | reflexivity | exact Hv |].
  split; [constructor; [exact Hv | constructor]|].
  intros k m1 m2 _ Hm2. destruct k; discriminate Hm2.
Qed.

(** Along a chained wire the row grows by one per node and the column
    moves by at most one. *)
Lemma chained_geometry (w : Wire) n0 :
  chained w -> w !! 0%nat = Some n0 ->
  forall k nk, w !! k = Some nk ->
    snd (point nk) = snd (point n0) + Z.of_nat k
    /\ Z.abs (fst (point nk) - fst (point n0)) <= Z.of_nat k.
Proof.
  intros Hch H0. induction k as [|k IH]; intros nk Hk.
  - rewrite H0 in Hk. injection Hk as <-. split; lia.
  - destruct (lookup_lt_is_Some_2 w k) as [m Hm].
    { apply lookup_lt_Some in Hk. lia. }
    destruct (IH m Hm) as [Hy Hx].
    pose proof (nextPoint_stepMatches m nk (Hch k m nk Hm Hk)) as Hstep.
    unfold stepMatches in Hstep. destruct (point m) as [x y].
    cbn [fst snd] in *.
    destruct Hstep as [[_ ->] | [[_ ->] | [_ ->]]]; cbn [fst snd]; split; lia.
Qed.

End GeneratorShape.

Lemma fl_belowOne : (fl belowOne == belowOne)%Q.
Proof. vm_compute. reflexivity. Qed.

(** The rounded square of a double of [0,1) is at most [belowOne]. *)
Lemma square_below_one u :
  isDouble u -> (0 <= u)%Q -> (u < 1)%Q ->
  (0 <= fl (u * u))%Q /\ (fl (u * u) <= belowOne)%Q.
Proof.
  intros Hd H0 H1. pose proof (double_below_one u Hd H0 H1) as Hb. split.
  - apply fl_nonneg. now apply Qmult_le_0_compat.
  - rewrite <- fl_belowOne. apply fl_mono.
    apply Qle_trans with (1 * u)%Q; [|lra].
    apply Qmult_le_compat_r; [lra | assumption].
Qed.

Lemma first_point_in_bounds (u1 u2 : Q) w h :
  isDouble u1 /\ (0 <= u1 /\ u1 < 1)%Q -> isDouble u2 /\ (0 <= u2 /\ u2 < 1)%Q ->
  0 < w -> 0 < h ->
  0 <= Qfloor (fl (u1 * inject_Z w)) < w
  /\ 0 <= Qfloor (fl (fl (fl (u2 * u2) * inject_Z h) * (1 # 2)))
  /\ 2 * Qfloor (fl (fl (fl (u2 * u2) * inject_Z h) * (1 # 2))) < h.
Proof.
  intros Hu1 (Hd & Hu0 & Hu1') Hw Hh. split; [now apply Qfloor_unit|].
  destruct (square_below_one u2 Hd Hu0 Hu1') as [Hp0 Hp1].
  destruct (fl_scale_below (fl (u2 * u2)) h Hp0 Hp1 Hh) as [Ht0 Ht1].
  set (t := fl (fl (u2 * u2) * inject_Z h)) in *.
  assert (Hh0 : (0 <= fl (t * (1 # 2)))%Q) by (apply fl_nonneg; lra).
  split.
  - change 0 with (Qfloor 0). now apply Qfloor_resp_le.
  - destruct (Qlt_le_dec t 1) as [Hsmall | Hlarge].
    + assert (Hle : (fl (t * (1 # 2)) <= fl (1 # 2))%Q) by (apply fl_mono; lra).
      apply Qfloor_resp_le in Hle.
      replace (Qfloor (fl (1 # 2))) with 0 in Hle by (vm_compute; reflexivity). lia.
    + pose proof (Qfloor_le (fl (t * (1 # 2)))) as Hfl.
      pose proof (fl_half _ Hlarge) as Hhalf. fold t in Hhalf.
      rewrite Zlt_Qlt, inject_Z_mult. change (inject_Z 2) with 2%Q. lra.
Qed.

(** X4.  When the world has at least one column and one row and the
    random values lie in [0,1), the wire that [generateWire] returns
    starts inside the upper half of the grid: 0 <= x < w and
    0 <= y with 2y < h. *)
Theorem generateWire_starts_in_upper_half world rnd i w h :
  unitRange rnd -> dimensions world = (w, h) -> 0 < w -> 0 < h ->
  exists wire j n0,
    generateWire world rnd i = (Ok wire, j)
    /\ wire !! 0%nat = Some n0
    /\ 0 <= fst (point n0) < w
    /\ 0 <= snd (point n0) /\ 2 * snd (point n0) < h.
Proof.
  intros Hr Hdim Hw Hh.
  destruct (generateWire_returns rnd world i Hr) as (wire & j & Hgen & _).
  destruct (generateWire_head rnd world i wire j Hgen) as (n0 & H0 & Hp).
  exists wire, j, n0. split; [exact Hgen|]. split; [exact H0|].
  rewrite Hp, Hdim. cbn [fst snd].
  apply first_point_in_bounds; [apply Hr | apply Hr | exact Hw | exact Hh].
Qed.

Lemma generateWire_starts_in_upper_half_witness :
  exists wire j n0,
    generateWire (mkWorld (40, 30) ∅ []) (fun _ => 1 # 2) 0%nat = (Ok wire, j)
    /\ wire !! 0%nat = Some n0
    /\ 0 <= fst (point n0) < 40
    /\ 0 <= snd (point n0) /\ 2 * snd (point n0) < 30.
Proof.
  apply (generateWire_starts_in_upper_half (mkWorld (40, 30) ∅ []) (fun _ => 1 # 2) 0%nat 40 30).
  - intros i. vm_compute. repeat split; discriminate.
  - reflexivity.
  - lia.
  - lia.
Defined.

(** X5.  In every wire that [generateWire] returns, the node at index k
    lies exactly k rows below the first node and at most k columns away
    from it. *)
Theorem generateWire_descends world rnd i wire j n0 k nk :
  generateWire world rnd i = (Ok wire, j) ->
  wire !! 0%nat = Some n0 -> wire !! k = Some nk ->
  snd (point nk) = snd (point n0) + Z.of_nat k
  /\ Z.abs (fst (point nk) - fst (point n0)) <= Z.of_nat k.
Proof.
  intros Hgen H0 Hk.
  exact (chained_geometry wire n0 (generateWire_chained rnd world i wire j Hgen) H0 k nk Hk).
Qed.

Lemma generateWire_descends_witness :
  let world := mkWorld (40, 30) ∅ [] in
  let rnd := fun i : nat => fl (Z.of_nat (i * 5 mod 7) # 7) in
  let wire := [mkWireNode (28, 2) down; mkWireNode (28, 3) down;
               mkWireNode (28, 4) down; mkWireNode (28, 5) down_left] in
  generateWire world rnd 0%nat = (Ok wire, 8%nat)
  /\ snd (point (mkWireNode (28, 5) down_left)) = snd (point (mkWireNode (28, 2) down)) + 3
  /\ Z.abs (fst (point (mkWireNode (28, 5) down_left))
            - fst (point (mkWireNode (28, 2) down))) <= 3.
Proof.
  intros world rnd wire.
  assert (Hgen : generateWire world rnd 0%nat = (Ok wire, 8%nat)) by (vm_compute; reflexivity).
  split; [exact Hgen|].
  exact (generateWire_descends world rnd 0%nat wire 8%nat _ 3%nat _ Hgen eq_refl eq_refl).
Defined.

(** X6.  With random values in [0,1), every node of the returned wire
    carries one of the three directions, and from one node to the next the
    direction stays, or turns from [down] to a diagonal, or from a diagonal
    back to [down]: a diagonal is never followed by the other diagonal. *)
Theorem generateWire_turns world rnd i :
  unitRange rnd ->
  exists wire j,
    generateWire world rnd i = (Ok wire, j)
    /\ Forall (fun node => validDirection (direction node)) wire
    /\ (forall k n1 n2,
          wire !! k = Some n1 -> wire !! S k = Some n2 ->
          turnOk (direction n1) (direction n2))
    /\ (forall k n1 n2,
          wire !! k = Some n1 -> wire !! S k = Some n2 ->
          ~ (direction n1 = down_left /\ direction n2 = down_right)
          /\ ~ (direction n1 = down_right /\ direction n2 = down_left)).
Proof.
  intros Hr.
  destruct (generateWire_returns rnd world i Hr) as (wire & j & Hgen & _ & _ & Hall & Hturn).
  exists wire, j. split; [exact Hgen|]. split; [exact Hall|]. split; [exact Hturn|].
  intros k n1 n2 H1 H2. specialize (Hturn k n1 n2 H1 H2).
  unfold turnOk, down, down_left, down_right in *.
  split; intros [E1 E2]; rewrite E1, E2 in Hturn;
    destruct Hturn as [H | [[H _] | [_ H]]]; try discriminate H;
    destruct H as [H | H]; discriminate H.
Qed.

Lemma generateWire_turns_witness :
  exists wire j,
    generateWire (mkWorld (1, 1) ∅ []) (fun _ => 0%Q) 0%nat = (Ok wire, j)
    /\ Forall (fun node => validDirection (direction node)) wire.
Proof.
  destruct (generateWire_turns (mkWorld (1, 1) ∅ []) (fun _ => 0%Q) 0%nat)
    as (wire & j & Hgen & Hall & _).
  - intros i. vm_compute. repeat split; discriminate.
  - exists wire, j. split; [exact Hgen | exact Hall].
Defined.

Lemma chained_rows_differ (w : Wire) :
  chained w ->
  forall a b na nb,
    w !! a = Some na -> w !! b = Some nb ->
    snd (point na) = snd (point nb) -> a = b.
Proof.
  intros Hch a b na nb Ha Hb Heq.
  destruct (lookup_lt_is_Some_2 w 0) as [n0 H0];
    [apply lookup_lt_Some in Ha; lia|].
  destruct (chained_geometry w n0 Hch H0 a na Ha) as [Hya _].
  destruct (chained_geometry w n0 Hch H0 b nb Hb) as [Hyb _]. lia.
Qed.

Lemma chained_distinct_keys (w : Wire) :
  chained w -> Forall (fun node => int32 (snd (point node))) w ->
  NoDup (nodeKey <$> w).
Proof.
  intros Hch Hrange. apply NoDup_alt. intros a b key Ha Hb.
  rewrite list_lookup_fmap in Ha, Hb.
  destruct (w !! a) as [na|] eqn:Hna; [|discriminate].
  destruct (w !! b) as [nb|] eqn:Hnb; [|discriminate].
  injection Ha as Ha. injection Hb as Hb.
  apply (chained_rows_differ w Hch a b na nb Hna Hnb).
  assert (Hkeys : nodeKey na = nodeKey nb) by congruence.
  unfold nodeKey in Hkeys. apply toLatticePoint_same_key in Hkeys as [_ Hy].
  rewrite Forall_forall in Hrange.
  rewrite !toInt32_id in Hy; [exact Hy | |].
  - apply Hrange, list_elem_of_lookup. eauto.
  - apply Hrange, list_elem_of_lookup. eauto.
Qed.

(** X7.  A wire returned by [generateWire] never visits a point twice;
    when its rows are in the signed 32-bit range its nodes have pairwise
    distinct keys, so no node of the wire overwrites the piece of another
    one. *)
Theorem generateWire_no_revisit world rnd i wire j :
  generateWire world rnd i = (Ok wire, j) ->
  NoDup (point <$> wire)
  /\ (Forall (fun node => int32 (snd (point node))) wire -> NoDup (nodeKey <$> wire)).
Proof.
  intros Hgen.
  pose proof (generateWire_chained rnd world i wire j Hgen) as Hch.
  split; [|now apply chained_distinct_keys].
  apply NoDup_alt. intros a b p Ha Hb.
  rewrite list_lookup_fmap in Ha, Hb.
  destruct (wire !! a) as [na|] eqn:Hna; [|discriminate].
  destruct (wire !! b) as [nb|] eqn:Hnb; [|discriminate].
  injection Ha as Ha. injection Hb as Hb.
  apply (chained_rows_differ wire Hch a b na nb Hna Hnb). congruence.
Qed.

Lemma generateWire_no_revisit_witness :
  let wire := [mkWireNode (28, 2) down; mkWireNode (28, 3) down;
               mkWireNode (28, 4) down; mkWireNode (28, 5) down_left] in
  generateWire (mkWorld (40, 30) ∅ []) (fun i : nat => fl (Z.of_nat (i * 5 mod 7) # 7)) 0%nat
  = (Ok wire, 8%nat)
  /\ NoDup (point <$> wire).
Proof.
  intros wire.
  assert (Hgen : generateWire (mkWorld (40, 30) ∅ [])
                   (fun i : nat => fl (Z.of_nat (i * 5 mod 7) # 7)) 0%nat
                 = (Ok wire, 8%nat)) by (vm_compute; reflexivity).
  split; [exact Hgen|].
  exact (proj1 (generateWire_no_revisit _ _ _ _ _ Hgen)).
Defined.

Section Locality.

Lemma readsDrawn_ret {A} (a : A) : readsDrawn (ret a).
Proof. intros rnd rnd' i o j [= <- <-] _. split; [lia | reflexivity]. Qed.

Lemma readsDrawn_lift {A} (o : outcome A) : readsDrawn (lift o).
Proof. intros rnd rnd' i o' j [= <- <-] _. split; [lia | reflexivity]. Qed.

Lemma readsDrawn_Math_random : readsDrawn Math_random.
Proof.
  intros rnd rnd' i o j [= <- <-] Hagree. split; [lia|].
  unfold Math_random. rewrite (Hagree i) by lia. reflexivity.
Qed.

Lemma readsDrawn_bind {A B} (m : Rand A) (f : A -> Rand B) :
  readsDrawn m -> (forall a, readsDrawn (f a)) -> readsDrawn (bind m f).
Proof.
  intros Hm Hf rnd rnd' i o j Hrun Hagree. unfold bind in *.
  destruct (m rnd i) as [[a | e] k] eqn:Em.
  - destruct (Hf a rnd rnd k o j Hrun ltac:(reflexivity)) as [Hkj _].
    destruct (Hm rnd rnd' i (Ok a) k Em) as [Hik Em'].
    { intros n Hn. apply Hagree. lia. }
    rewrite Em'. destruct (Hf a rnd rnd' k o j Hrun) as [_ Hrun'].
    { intros n Hn. apply Hagree. lia. }
    split; [lia | exact Hrun'].
  - injection Hrun as <- <-.
    destruct (Hm rnd rnd' i (Throw e) k Em Hagree) as [Hik Em'].
    rewrite Em'. split; [exact Hik | reflexivity].
Qed.

Lemma readsDrawn_randomChoice {T} (array : list T) : readsDrawn (randomChoice array).
Proof.
  unfold randomChoice. apply readsDrawn_bind; [apply readsDrawn_Math_random|].
  intros u. apply readsDrawn_ret.
Qed.

Lemma readsDrawn_randomPoint w h : readsDrawn (randomPoint w h).
Proof.
  unfold randomPoint. apply readsDrawn_bind; [apply readsDrawn_Math_random|].
  intros u1. apply readsDrawn_bind; [apply readsDrawn_Math_random|].
  intros u2. apply readsDrawn_ret.
Qed.

Lemma readsDrawn_turn dir u : readsDrawn (turn dir u).
Proof.
  unfold turn. destruct (Qltb u (fl (35 # 100))); [case_bool_decide|].
  - apply readsDrawn_randomChoice.
  - apply readsDrawn_ret.
  - apply readsDrawn_ret.
Qed.

Lemma readsDrawn_generateLoop n : forall wire prev dir,
  readsDrawn (generateLoop n wire prev dir).
Proof.
  induction n as [|n IH]; intros wire prev dir; [apply readsDrawn_ret|].
  rewrite generateLoop_S.
  apply readsDrawn_bind; [apply readsDrawn_lift|]. intros p.
  apply readsDrawn_bind; [apply readsDrawn_Math_random|]. intros u.
  apply readsDrawn_bind; [apply readsDrawn_turn|]. intros dir'.
  apply IH.
Qed.

Lemma readsDrawn_generateWire world : readsDrawn (generateWire world).
Proof.
  unfold generateWire. destruct (dimensions world) as [w h].
  apply readsDrawn_bind; [apply readsDrawn_Math_random|]. intros u.
  apply readsDrawn_bind; [apply readsDrawn_randomPoint|]. intros p0.
  apply readsDrawn_bind; [apply readsDrawn_randomChoice|]. intros d0.
  apply readsDrawn_generateLoop.
Qed.

(** Among the values drawn from [i] up to [j], either all are doubles of
    [0,1) or one is not. *)
Lemma drawn_values_checked (rnd : nat -> Q) i j :
  (forall k, (i <= k < j)%nat -> isDouble (rnd k) /\ (0 <= rnd k /\ rnd k < 1)%Q)
  \/ exists k, (i <= k < j)%nat /\ ~ (isDouble (rnd k) /\ (0 <= rnd k /\ rnd k < 1)%Q).
Proof.
  induction j as [|j IH]; [left; intros k Hk; lia|].
  destruct IH as [Hall | (k & Hk & Hbad)]; [|right; exists k; split; [lia | exact Hbad]].
  destruct (le_lt_dec i j) as [Hij | Hji].
  - destruct (Qeq_dec (fl (rnd j)) (rnd j)) as [Hd | Hd];
      [|right; exists j; split; [lia | intros [H _]; contradiction]].
    destruct (Qlt_le_dec (rnd j) 0) as [Hneg | H0];
      [right; exists j; split; [lia | intros (_ & H & _); lra]|].
    destruct (Qlt_le_dec (rnd j) 1) as [H1 | Hbig];
      [|right; exists j; split; [lia | intros (_ & _ & H); lra]].
    left. intros k Hk. destruct (Nat.eq_dec k j) as [-> | Hne].
    + split; [exact Hd | split; assumption].
    + apply Hall. lia.
  - left. intros k Hk. lia.
Qed.

Lemma window_agrees rnd i j k : (i <= k < j)%nat -> window rnd i j k = rnd k.
Proof.
  intros Hk. unfold window.
  destruct (Nat.leb_spec i k); [|lia]. destruct (Nat.ltb_spec k j); [reflexivity | lia].
Qed.

Lemma window_unitRange rnd i j :
  (forall k, (i <= k < j)%nat -> isDouble (rnd k) /\ (0 <= rnd k /\ rnd k < 1)%Q) ->
  unitRange (window rnd i j).
Proof.
  intros Hall k. unfold window.
  destruct (Nat.leb_spec i k); [destruct (Nat.ltb_spec k j)|]; cbn [andb].
  - apply Hall. lia.
  - split; [reflexivity | split; [discriminate | reflexivity]].
  - split; [reflexivity | split; [discriminate | reflexivity]].
Qed.

End Locality.

(** X8.  The only exception [generateWire] can raise is the ['invalid']
    of [nextPoint], and a call raises it only when one of the values it
    has itself drawn from the random source (those from its starting
    counter up to the counter at which it throws) is not a double of
    [0,1). *)
Theorem generateWire_throws_only_invalid world rnd i e j :
  generateWire world rnd i = (Throw e, j) ->
  e = "invalid"
  /\ exists k, (i <= k < j)%nat
               /\ ~ (isDouble (rnd k) /\ (0 <= rnd k /\ rnd k < 1)%Q).
Proof.
  intros Hthrow. split.
  - rewrite generateWire_unfold in Hthrow. cbv zeta in Hthrow.
    now apply generateLoop_Throw in Hthrow.
  - destruct (drawn_values_checked rnd i j) as [Hall | Hbad]; [exfalso | exact Hbad].
    destruct (readsDrawn_generateWire world rnd (window rnd i j) i _ j Hthrow)
      as [_ Hthrow'].
    { intros k Hk. now apply window_agrees. }
    destruct (generateWire_returns (window rnd i j) world i (window_unitRange rnd i j Hall))
      as (wire & j' & Hgen & _).
    congruence.
Qed.

(** With 3/2 everywhere the call throws after four draws; the fourth
    value, read for the first direction, is the one that leads out of
    the array. *)
Lemma generateWire_throws_only_invalid_witness :
  generateWire (mkWorld (40, 30) ∅ []) (fun _ => 3 # 2) 0%nat = (Throw "invalid", 4%nat)
  /\ exists k, (0 <= k < 4)%nat
               /\ ~ (isDouble (3 # 2) /\ (0 <= 3 # 2 /\ 3 # 2 < 1)%Q).
Proof.
  assert (Hthrow : generateWire (mkWorld (40, 30) ∅ []) (fun _ => 3 # 2) 0%nat
                   = (Throw "invalid", 4%nat)) by (vm_compute; reflexivity).
  split; [exact Hthrow|].
  exact (proj2 (generateWire_throws_only_invalid _ _ _ _ _ Hthrow)).
Defined.

(* ===================================================================== *)
(** * Invariants of the two timers *)
(* ===================================================================== *)

Section Transitions.

Variable rnd : nat -> Q.

(** Every tick is one of the transitions. *)
Lemma artStep_Transition t s i e s' j :
  artStep rnd t s i = (e, s', j) -> Transition s e s'.
Proof.
  destruct t as [|now now']; unfold artStep.
  - unfold wireGeneratorTick.
    destruct (wireGeneratorTimer s); cbn [negb];
      [|intros [= <- <- _]; now apply tr_idle].
    destruct (wiresQueue (world s)) as [|entry tail] eqn:Hq; cbn [length];
      [|intros [= <- <- _]; now apply tr_idle].
    change (0 <? 0)%nat with false. cbv iota.
    destruct (200 <? failedTries s)%nat;
      [intros [= <- <- _]; now apply tr_stopped|].
    destruct (generateWire (world s) rnd i) as [[candidate | msg] k];
      [|intros [= <- <- _]; now apply tr_idle].
    destruct (wireIntersects (world s) candidate) eqn:Hhit; cbn [negb];
      intros [= <- <- _]; [now apply tr_rejected | now apply tr_enqueued].
  - unfold wireQueueTick.
    destruct (wireQueueTimer s) eqn:Htimer; cbn [negb];
      [|intros [= <- <- _]; now apply tr_idle].
    destruct (wiresQueue (world s)) as [|head tail] eqn:Hq;
      [intros [= <- <- _]; now apply tr_idle|].
    destruct (Nat.ltb_spec (cursor head) (length (wire head))) as [Hlt | Hge].
    + destruct (wire head !! cursor head) as [node|] eqn:Hnode;
        [|intros [= <- <- _]; now apply tr_idle].
      assert (Hkey : nodeKey node
                     = toLatticePoint (fst (point node)) (snd (point node))) by reflexivity.
      destruct (point node) as [x y] eqn:Hp. cbn [fst snd] in Hkey. rewrite <- Hkey.
      destruct (pieceLerpBeginTime s + 1000 / WIRE_LERP_SPEED <? now);
        intros [= <- <- _].
      * now apply tr_finalized.
      * now apply tr_progress.
    + intros [= <- <- _]. rewrite <- Htimer. now apply (tr_removed s head tail).
Qed.

(** A property kept by every transition holds after every schedule. *)
Lemma artRun_invariant (P : ArtState -> Prop) :
  (forall s e s', Transition s e s' -> P s -> P s') ->
  forall ticks s i, P s -> P (stateAfter rnd ticks s i).
Proof.
  intros Hstep. induction ticks as [|t ticks IH]; intros s i HP; [exact HP|].
  destruct (artStep rnd t s i) as [[e s1] j] eqn:Hs.
  rewrite (stateAfter_cons rnd t ticks s i e s1 j Hs).
  apply IH. apply (Hstep s e s1); [now apply (artStep_Transition t s i e s1 j) | exact HP].
Qed.

Lemma Transition_queue s e s' :
  Transition s e s' ->
  (length (wiresQueue (world s)) <= 1)%nat ->
  (length (wiresQueue (world s')) <= 1)%nat.
Proof.
  intros Htr Hlen.
  destruct Htr as [e He | Hq | c Hq Hhit | c Hq Hhit | head tail node now' Hq Hnode
                  | head tail node lerp Hq Hnode | head tail Hq Hge];
    cbn [world wiresQueue clearGenerator countFailure enqueue writePiece dropHead];
    rewrite ?Hq in *; cbn [length app] in *; lia.
Qed.

Lemma Transition_store s e s' :
  Transition s e s' ->
  dimensions (world s') = dimensions (world s)
  /\ (forall key, is_Some (wirePieces (world s) !! key) ->
                  is_Some (wirePieces (world s') !! key))
  /\ dirty s' = dirty s || writesPiece e
  /\ (writesPiece e = false -> wirePieces (world s') = wirePieces (world s)).
Proof.
  intros Htr.
  destruct Htr as [e He | Hq | c Hq Hhit | c Hq Hhit | head tail node now' Hq Hnode
                  | head tail node lerp Hq Hnode | head tail Hq Hge];
    cbn [world wirePieces dimensions dirty clearGenerator countFailure enqueue
         writePiece dropHead writesPiece].
  - repeat split; try tauto.
    destruct e as [[] | []]; try discriminate He; cbn; now rewrite orb_false_r.
  - rewrite orb_false_r. tauto.
  - rewrite orb_false_r. tauto.
  - rewrite orb_false_r. tauto.
  - rewrite orb_true_r. repeat split; [|discriminate].
    intros key Hsome. rewrite lookup_insert. case_decide; [eauto | exact Hsome].
  - rewrite orb_true_r. repeat split; [|discriminate].
    intros key Hsome. rewrite lookup_insert. case_decide; [eauto | exact Hsome].
  - rewrite orb_false_r. tauto.
Qed.

Lemma occupied_mono w1 w2 :
  (forall key, is_Some (wirePieces w1 !! key) -> is_Some (wirePieces w2 !! key)) ->
  forall wire, wireIntersects w1 wire = true -> wireIntersects w2 wire = true.
Proof.
  intros Hincl wire. unfold wireIntersects. rewrite !existsb_exists.
  intros (node & Hin & Hhit). exists node. split; [exact Hin|].
  apply nodeIntersects_nodeHits. apply nodeIntersects_nodeHits in Hhit.
  unfold nodeHits, occupied in *. destruct (point node) as [x y].
  destruct Hhit as [[E [H | H]] | [[E [H | H]] | [E [H | H]]]]; apply Hincl in H; tauto.
Qed.

Lemma wireIntersects_empty_store w wire :
  wirePieces w = ∅ -> wireIntersects w wire = false.
Proof.
  intros Hempty. apply not_true_iff_false. unfold wireIntersects.
  rewrite existsb_exists. intros (node & _ & Hhit).
  apply nodeIntersects_nodeHits in Hhit.
  unfold nodeHits, occupied in Hhit. rewrite Hempty in Hhit.
  destruct (point node) as [x y].
  destruct Hhit as [[_ [H | H]] | [[_ [H | H]] | [_ [H | H]]]];
    rewrite lookup_empty in H; now destruct H.
Qed.

Lemma artRun_dirty ticks : forall s i events s' i',
  artRun rnd ticks s i = (events, s', i') ->
  dirty s' = dirty s || existsb writesPiece events
  /\ (existsb writesPiece events = false ->
      wirePieces (world s') = wirePieces (world s)).
Proof.
  induction ticks as [|t ticks IH]; intros s i events s' i' Hrun.
  - injection Hrun as <- <- _. cbn. rewrite orb_false_r. tauto.
  - rewrite artRun_cons in Hrun.
    destruct (artStep rnd t s i) as [[e s1] j] eqn:Hs.
    destruct (artRun rnd ticks s1 j) as [[es s2] k] eqn:Hr.
    injection Hrun as <- <- _.
    destruct (IH s1 j es s2 k Hr) as [Hd Hw].
    destruct (Transition_store s e s1 (artStep_Transition t s i e s1 j Hs))
      as (_ & _ & Hd1 & Hw1).
    cbn [existsb]. split.
    + rewrite Hd, Hd1. now rewrite orb_assoc.
    + intros Hnone. apply orb_false_iff in Hnone as [He Hes].
      rewrite (Hw Hes). now apply Hw1.
Qed.

End Transitions.

(** X9.  The queue never holds more than one wire: if it holds at most
    one, as after [setup], it holds at most one after every schedule of
    admission and animation ticks. *)
Theorem queue_holds_at_most_one rnd ticks s i :
  (length (wiresQueue (world s)) <= 1)%nat ->
  (length (wiresQueue (world (stateAfter rnd ticks s i))) <= 1)%nat.
Proof.
  apply (artRun_invariant rnd
           (fun st => (length (wiresQueue (world st)) <= 1)%nat)).
  intros st e st'. apply Transition_queue.
Qed.

Lemma queue_holds_at_most_one_witness :
  (length (wiresQueue (world
     (stateAfter (fun _ => 1 # 2)
        [admission_tick; admission_tick; animation_tick 30 30; admission_tick]
        (setup 960 720 0 false) 0%nat))) <= 1)%nat.
Proof.
  apply (queue_holds_at_most_one (fun _ => 1 # 2)
           [admission_tick; admission_tick; animation_tick 30 30; admission_tick]
           (setup 960 720 0 false) 0%nat).
  simpl. lia.
Defined.

(** X10.  Along every schedule the dimensions of the world stay the
    same, a key of the store is never removed, and therefore a wire that
    intersects the store keeps intersecting it. *)
Theorem store_only_grows rnd ticks s i :
  let s' := stateAfter rnd ticks s i in
  dimensions (world s') = dimensions (world s)
  /\ (forall key, is_Some (wirePieces (world s) !! key) ->
                  is_Some (wirePieces (world s') !! key))
  /\ (forall wire, wireIntersects (world s) wire = true ->
                   wireIntersects (world s') wire = true).
Proof.
  intros s'.
  assert (Hinv : dimensions (world s') = dimensions (world s)
                 /\ forall key, is_Some (wirePieces (world s) !! key) ->
                                is_Some (wirePieces (world s') !! key)).
  { apply (artRun_invariant rnd
             (fun st => dimensions (world st) = dimensions (world s)
                        /\ forall key, is_Some (wirePieces (world s) !! key) ->
                                       is_Some (wirePieces (world st) !! key))).
    - intros st e st' Htr [Hdim Hkeys].
      destruct (Transition_store st e st' Htr) as (Hdim' & Hkeys' & _).
      split; [congruence | auto].
    - split; [reflexivity | auto]. }
  destruct Hinv as [Hdim Hkeys]. split; [exact Hdim|]. split; [exact Hkeys|].
  now apply occupied_mono.
Qed.

(** X11.  After every schedule the [dirty] flag is set exactly when it was
    set before or some tick of the schedule stored a piece; and when no
    tick stored a piece the store is what it was. *)
Theorem dirty_tracks_writes rnd ticks s i events s' i' :
  artRun rnd ticks s i = (events, s', i') ->
  dirty s' = dirty s || existsb writesPiece events
  /\ (existsb writesPiece events = false ->
      wirePieces (world s') = wirePieces (world s)).
Proof. apply artRun_dirty. Qed.

Lemma dirty_tracks_writes_witness :
  exists events s' i',
    artRun (fun _ => 0%Q) [animation_tick 1010 1010; admission_tick] (twoWires 0) 0%nat
    = (events, s', i')
    /\ dirty s' = false || existsb writesPiece events
    /\ existsb writesPiece events = true.
Proof.
  eexists _, _, _.
  assert (Hrun : artRun (fun _ => 0%Q) [animation_tick 1010 1010; admission_tick]
                   (twoWires 0) 0%nat
                 = (?[events], ?[s'], ?[i'])) by (vm_compute; reflexivity).
  split; [exact Hrun|].
  split; [exact (proj1 (dirty_tracks_writes _ _ _ _ _ _ _ Hrun)) | reflexivity].
Defined.

(** X12.  After [unMount] no tick does anything: every schedule leaves
    the state and the random source as they are, each tick finding its
    timer cleared. *)
Theorem unMount_stops_both_timers rnd ticks s i :
  exists events,
    artRun rnd ticks (unMount s) i = (events, unMount s, i)
    /\ Forall (fun e => e = ev_generator gen_not_scheduled
                        \/ e = ev_queue queue_not_scheduled) events.
Proof.
  induction ticks as [|t ticks IH].
  - exists []. split; [reflexivity | constructor].
  - destruct IH as (events & Hrun & Hall).
    rewrite artRun_cons. destruct t as [|now now']; unfold artStep.
    + unfold wireGeneratorTick. cbn [unMount wireGeneratorTimer negb].
      fold (unMount s). rewrite Hrun.
      eexists. split; [reflexivity|]. constructor; [now left | exact Hall].
    + unfold wireQueueTick. cbn [unMount wireQueueTimer negb].
      fold (unMount s). rewrite Hrun.
      eexists. split; [reflexivity|]. constructor; [now right | exact Hall].
Qed.

Lemma setup_first_tick rnd i offsetWidth offsetHeight now wasDirty candidate j :
  let s := setup offsetWidth offsetHeight now wasDirty in
  generateWire (world s) rnd i = (Ok candidate, j) ->
  wireGeneratorTick rnd i s = (gen_enqueued candidate, enqueue s candidate, j).
Proof.
  intros s Hgen. unfold wireGeneratorTick.
  change (wireGeneratorTimer s) with true.
  change (wiresQueue (world s)) with (@nil QueueEntry).
  change (failedTries s) with 0%nat.
  cbn [negb length]. change (0 <? 0)%nat with false. change (200 <? 0)%nat with false.
  cbv iota. rewrite Hgen.
  now rewrite (wireIntersects_empty_store (world s) candidate eq_refl).
Qed.

(** X13.  On the world that [setup] builds, whose store is empty, the
    first admission tick accepts whatever the generator returns: with
    random values in [0,1) it enqueues a wire of 4 to 15 nodes at cursor 0
    and counts no failure. *)
Theorem first_admission_enqueues rnd i offsetWidth offsetHeight now wasDirty :
  unitRange rnd ->
  let s := setup offsetWidth offsetHeight now wasDirty in
  exists candidate j,
    wireGeneratorTick rnd i s = (gen_enqueued candidate, enqueue s candidate, j)
    /\ wiresQueue (world (enqueue s candidate)) = [mkQueueEntry candidate 0]
    /\ failedTries (enqueue s candidate) = 0%nat
    /\ (4 <= length candidate <= 15)%nat.
Proof.
  intros Hr s.
  destruct (generateWire_returns rnd (world s) i Hr) as (candidate & j & Hgen & _ & Hlen & _).
  exists candidate, j. split; [|split; [reflexivity | split; [reflexivity | exact Hlen]]].
  now apply setup_first_tick.
Qed.

Lemma first_admission_enqueues_witness :
  exists candidate j,
    wireGeneratorTick (fun _ => 1 # 2) 0%nat (setup 960 720 0 false)
    = (gen_enqueued candidate, enqueue (setup 960 720 0 false) candidate, j)
    /\ (4 <= length candidate <= 15)%nat.
Proof.
  destruct (first_admission_enqueues (fun _ => 1 # 2) 0%nat 960 720 0 false)
    as (candidate & j & Htick & _ & _ & Hlen).
  - intros i. vm_compute. repeat split; discriminate.
  - exists candidate, j. split; [exact Htick | exact Hlen].
Defined.

(** X14.  An admission tick enqueues a wire only on an empty queue and
    only if no node of the wire triggers the intersection rule; then the
    cell of every node with a valid direction is free, the wire is the only
    entry, at cursor 0, the failure counter is back to 0 and the store is
    untouched. *)
Theorem admission_enqueues_only_free rnd i s candidate s' j :
  wireGeneratorTick rnd i s = (gen_enqueued candidate, s', j) ->
  wiresQueue (world s) = []
  /\ wiresQueue (world s') = [mkQueueEntry candidate 0]
  /\ failedTries s' = 0%nat
  /\ wirePieces (world s') = wirePieces (world s)
  /\ generateWire (world s) rnd i = (Ok candidate, j)
  /\ forall node, node ∈ candidate ->
       ~ nodeHits (world s) node
       /\ (validDirection (direction node) ->
           wirePieces (world s) !! nodeKey node = None).
Proof.
  unfold wireGeneratorTick.
  destruct (wireGeneratorTimer s); cbn [negb]; [|discriminate].
  destruct (wiresQueue (world s)) as [|entry tail] eqn:Hq; cbn [length]; [|discriminate].
  change (0 <? 0)%nat with false. cbv iota.
  destruct (200 <? failedTries s)%nat; [discriminate|].
  destruct (generateWire (world s) rnd i) as [[c | msg] k] eqn:Hgen; [|discriminate].
  destruct (wireIntersects (world s) c) eqn:Hhit; cbn [negb]; [discriminate|].
  intros [= <- <- <-]. cbn [enqueue world wiresQueue wirePieces failedTries].
  rewrite Hq. cbn [app]. repeat split.
  - intros Hnode. apply not_true_iff_false in Hhit. apply Hhit.
    unfold wireIntersects. apply existsb_exists. exists node.
    split; [now apply list_elem_of_In | now apply nodeIntersects_nodeHits].
  - intros Hv.
    destruct (wirePieces (world s) !! nodeKey node) as [piece|] eqn:Hlook; [|reflexivity].
    exfalso. apply not_true_iff_false in Hhit. apply Hhit.
    unfold wireIntersects. apply existsb_exists. exists node.
    split; [now apply list_elem_of_In|]. apply nodeIntersects_nodeHits.
    unfold nodeHits, occupied. unfold nodeKey in Hlook.
    destruct (point node) as [x y]. cbn [fst snd] in Hlook. rewrite Hlook.
    destruct Hv as [Hv | [Hv | Hv]]; [left | right; left | right; right];
      (split; [exact Hv | left; eauto]).
Qed.

Lemma admission_enqueues_only_free_witness :
  exists candidate s' j,
    wireGeneratorTick (fun _ => 1 # 2) 0%nat (setup 960 720 0 false)
    = (gen_enqueued candidate, s', j)
    /\ wiresQueue (world s') = [mkQueueEntry candidate 0].
Proof.
  eexists _, _, _.
  assert (Htick : wireGeneratorTick (fun _ => 1 # 2) 0%nat (setup 960 720 0 false)
                  = (gen_enqueued ?[c], ?[s'], ?[j])) by (vm_compute; reflexivity).
  split; [exact Htick|].
  exact (proj1 (proj2 (admission_enqueues_only_free _ _ _ _ _ _ Htick))).
Defined.

Lemma ceilDiv_covers a :
  CELL_SIZE * (ceilDiv a CELL_SIZE - 1) < a <= CELL_SIZE * ceilDiv a CELL_SIZE.
Proof.
  unfold ceilDiv, CELL_SIZE.
  pose proof (Z.div_mod (- a) 24 ltac:(lia)).
  pose proof (Z.mod_pos_bound (- a) 24 ltac:(lia)). lia.
Qed.

Lemma setup_covers_dims offsetWidth offsetHeight now wasDirty :
  let s := setup offsetWidth offsetHeight now wasDirty in
  CELL_SIZE * (fst (dimensions (world s)) - 1) < offsetWidth
    <= CELL_SIZE * fst (dimensions (world s))
  /\ CELL_SIZE * (snd (dimensions (world s)) - 1) < offsetHeight
       <= CELL_SIZE * snd (dimensions (world s)).
Proof. intros s. split; apply ceilDiv_covers. Qed.

(** X15.  [setup] starts from an empty store and an empty queue, with
    both timers scheduled and no failure counted, on the smallest grid of
    cells of side 24 that covers the canvas. *)
Theorem setup_covers_canvas offsetWidth offsetHeight now wasDirty :
  let s := setup offsetWidth offsetHeight now wasDirty in
  let w := fst (dimensions (world s)) in
  let h := snd (dimensions (world s)) in
  CELL_SIZE * (w - 1) < offsetWidth <= CELL_SIZE * w
  /\ CELL_SIZE * (h - 1) < offsetHeight <= CELL_SIZE * h
  /\ wirePieces (world s) = ∅
  /\ wiresQueue (world s) = []
  /\ failedTries s = 0%nat
  /\ wireGeneratorTimer s = true /\ wireQueueTimer s = true
  /\ pieceLerpBeginTime s = now.
Proof.
  intros s w h.
  split; [apply ceilDiv_covers|]. split; [apply ceilDiv_covers|]. repeat split.
Qed.

(* ===================================================================== *)
(** * Further properties of the reveal *)
(* ===================================================================== *)

Section Reveal.

Variable rnd : nat -> Q.

Lemma later_keys_differ (w : Wire) c node :
  NoDup (nodeKey <$> w) -> w !! c = Some node ->
  ~ keyOfWire (drop (S c) w) (nodeKey node).
Proof.
  intros Hnd Hc (node' & Hin & Hkey).
  apply list_elem_of_lookup in Hin as [idx Hidx].
  rewrite lookup_drop in Hidx.
  rewrite NoDup_alt in Hnd.
  assert (Heq : c = (S c + idx)%nat).
  { apply (Hnd c (S c + idx)%nat (nodeKey node)).
    - now rewrite list_lookup_fmap, Hc.
    - rewrite list_lookup_fmap, Hidx. cbn. now rewrite Hkey. }
  lia.
Qed.

Lemma keyOfWire_drop (w : Wire) c node key :
  w !! c = Some node ->
  ~ keyOfWire (drop c w) key ->
  key <> nodeKey node /\ ~ keyOfWire (drop (S c) w) key.
Proof.
  intros Hc Hnot. rewrite (drop_S w node c Hc) in Hnot. split.
  - intros ->. apply Hnot. exists node. split; [apply elem_of_cons; now left | reflexivity].
  - intros (node' & Hin & Hkey). apply Hnot. exists node'.
    split; [apply elem_of_cons; now right | exact Hkey].
Qed.

Lemma reveal_run times : forall s i w c tail lastNow lastNow',
  wireQueueTimer s = true ->
  wiresQueue (world s) = mkQueueEntry w c :: tail ->
  (c <= length w)%nat ->
  NoDup (nodeKey <$> w) ->
  length times = (length w - c)%nat ->
  allLate (pieceLerpBeginTime s) times ->
  let s' := stateAfter rnd (animationTicks times ++ [animation_tick lastNow lastNow']) s i in
  wiresQueue (world s') = tail
  /\ (forall k node, (c <= k)%nat -> w !! k = Some node ->
        wirePieces (world s') !! nodeKey node
        = Some (finalizedPiece node (S k) (length w)))
  /\ (forall key, ~ keyOfWire (drop c w) key ->
        wirePieces (world s') !! key = wirePieces (world s) !! key).
Proof.
  induction times as [|[now now'] times IH];
    intros s i w c tail lastNow lastNow' Htimer Hq Hc Hnd Hlen Hlate s'.
  - assert (Hend : c = length w) by (simpl in Hlen; lia).
    assert (Hstep : artStep rnd (animation_tick lastNow lastNow') s i
                    = (ev_queue queue_removed, dropHead s tail, i)).
    { unfold artStep, wireQueueTick, dropHead. rewrite Htimer, Hq. cbn [negb cursor wire].
      rewrite Hend, Nat.ltb_irrefl. reflexivity. }
    unfold s'. cbn [animationTicks map app].
    rewrite (stateAfter_cons rnd _ [] s i _ _ _ Hstep).
    change (stateAfter rnd [] (dropHead s tail) i) with (dropHead s tail).
    split; [reflexivity|]. split; [|reflexivity].
    intros k node Hk Hnode. apply lookup_lt_Some in Hnode. lia.
  - cbn [allLate] in Hlate. destruct Hlate as [Hnow Hlate].
    assert (Hlt : (c < length w)%nat) by (simpl in Hlen; lia).
    destruct (lookup_lt_is_Some_2 w c Hlt) as [node Hnode].
    pose proof (wireQueueTick_finalize now now' s (mkQueueEntry w c) tail node
                  Htimer Hq Hnode Hnow) as Htick.
    cbv zeta in Htick. cbn [wire cursor] in Htick.
    set (piece := finalizedPiece node (S c) (length w)) in *.
    set (s1 := writePiece s (nodeKey node) piece (mkQueueEntry w (S c)) tail now') in *.
    assert (Hstep : artStep rnd (animation_tick now now') s i
                    = (ev_queue (queue_finalized (nodeKey node) piece), s1, i)).
    { unfold artStep. now rewrite Htick. }
    unfold s'. cbn [animationTicks map app fst snd].
    rewrite (stateAfter_cons rnd _ _ s i _ _ _ Hstep).
    destruct (IH s1 i w (S c) tail lastNow lastNow') as (Hq' & Hpieces & Hrest);
      [exact Htimer | reflexivity | lia | exact Hnd | simpl in Hlen; lia | exact Hlate |].
    fold (animationTicks times).
    split; [exact Hq'|]. split.
    + intros k nodek Hk Hnodek.
      destruct (decide (k = c)) as [-> | Hne].
      * rewrite Hnode in Hnodek. injection Hnodek as <-.
        rewrite (Hrest (nodeKey node) (later_keys_differ w c node Hnd Hnode)).
        unfold s1. cbn [writePiece world wirePieces]. apply lookup_insert_eq.
      * apply Hpieces; [lia | exact Hnodek].
    + intros key Hnot.
      destruct (keyOfWire_drop w c node key Hnode Hnot) as [Hne Hnot'].
      rewrite (Hrest key Hnot'). unfold s1. cbn [writePiece world wirePieces].
      now apply lookup_insert_ne.
Qed.

End Reveal.

(** X16.  A queued wire whose nodes have distinct keys is revealed
    completely: when each animation tick comes after the end time of the
    segment started by the previous one, one tick per remaining node and
    one more tick remove the entry from the queue, leave under the key of
    each remaining node its finalized piece ([lerp] 1, tip [begin] on the
    first node, [end] on the last of a longer wire) and touch no other
    key. *)
Theorem reveal_completes rnd s i w c tail times lastNow lastNow' :
  wireQueueTimer s = true ->
  wiresQueue (world s) = mkQueueEntry w c :: tail ->
  (c <= length w)%nat ->
  NoDup (nodeKey <$> w) ->
  length times = (length w - c)%nat ->
  allLate (pieceLerpBeginTime s) times ->
  let s' := stateAfter rnd (animationTicks times ++ [animation_tick lastNow lastNow']) s i in
  wiresQueue (world s') = tail
  /\ (forall k node, (c <= k)%nat -> w !! k = Some node ->
        wirePieces (world s') !! nodeKey node
        = Some (finalizedPiece node (S k) (length w)))
  /\ (forall key, ~ keyOfWire (drop c w) key ->
        wirePieces (world s') !! key = wirePieces (world s) !! key).
Proof. apply reveal_run. Qed.

Lemma reveal_completes_witness :
  let s' := stateAfter (fun _ => 0%Q)
              (animationTicks [(1021, 1022); (1043, 1043); (1070, 1071); (1100, 1100)]
               ++ [animation_tick 1101 1101])
              (exampleState 0) 0%nat in
  wiresQueue (world s') = []
  /\ wirePieces (world s') !! nodeKey (mkWireNode (28, 5) down_left)
     = Some (finalizedPiece (mkWireNode (28, 5) down_left) 4 4).
Proof.
  intros s'.
  destruct (reveal_completes (fun _ => 0%Q) (exampleState 0) 0%nat exampleWire 0 []
              [(1021, 1022); (1043, 1043); (1070, 1071); (1100, 1100)] 1101 1101)
    as (Hq & Hpieces & _).
  - reflexivity.
  - reflexivity.
  - simpl. lia.
  - apply (bool_decide_unpack _). vm_compute. exact I.
  - reflexivity.
  - vm_compute. repeat split.
  - split; [exact Hq|]. apply (Hpieces 3%nat); [lia | reflexivity].
Defined.

(** X17.  While a segment is growing, two successive ticks taken at
    times that do not decrease and do not pass the segment's end time
    write under the same key pieces whose [lerp] does not decrease; the
    second one replaces the first, and the queue and the segment timer
    stay as they were. *)
Theorem growing_is_monotone now1 now1' now2 now2' s head tail node :
  wireQueueTimer s = true ->
  wiresQueue (world s) = head :: tail ->
  wire head !! cursor head = Some node ->
  now1 <= now2 ->
  now2 <= pieceLerpBeginTime s + 1000 / WIRE_LERP_SPEED ->
  exists p1 s1 p2 s2,
    wireQueueTick now1 now1' s = (queue_progress (nodeKey node) p1, s1)
    /\ wireQueueTick now2 now2' s1 = (queue_progress (nodeKey node) p2, s2)
    /\ (piece_lerp p1 <= piece_lerp p2)%Q
    /\ wirePieces (world s2) = <[nodeKey node := p2]> (wirePieces (world s))
    /\ wiresQueue (world s2) = wiresQueue (world s)
    /\ pieceLerpBeginTime s2 = pieceLerpBeginTime s.
Proof.
  intros Htimer Hq Hnode H12 H2.
  pose proof (wireQueueTick_progress now1 now1' s head tail node Htimer Hq Hnode
                ltac:(lia)) as Ht1.
  cbv zeta in Ht1.
  eexists _, _. eexists _, _. split; [exact Ht1|].
  match type of Ht1 with
  | _ = (_, ?st) =>
      pose proof (wireQueueTick_progress now2 now2' st head tail node Htimer
                    eq_refl Hnode H2) as Ht2
  end.
  cbv zeta in Ht2. split; [exact Ht2|].
  cbn [growingPiece piece_lerp writePiece world wirePieces wiresQueue pieceLerpBeginTime].
  split; [|split; [apply insert_insert_eq | split; [now rewrite Hq | reflexivity]]].
  apply lerp_mono. lia.
Qed.

Lemma growing_is_monotone_witness :
  exists p1 s1 p2 s2,
    wireQueueTick 1005 1005 (exampleState 0) = (queue_progress "28,2" p1, s1)
    /\ wireQueueTick 1015 1015 s1 = (queue_progress "28,2" p2, s2)
    /\ (piece_lerp p1 <= piece_lerp p2)%Q.
Proof.
  destruct (growing_is_monotone 1005 1005 1015 1015 (exampleState 0)
              (mkQueueEntry exampleWire 0) [] (mkWireNode (28, 2) down)
              eq_refl eq_refl eq_refl)
    as (p1 & s1 & p2 & s2 & H1 & H2 & Hle & _).
  - lia.
  - vm_compute. discriminate.
  - exists p1, s1, p2, s2. split; [exact H1|]. split; [exact H2 | exact Hle].
Defined.

(* ===================================================================== *)
(** * Rendering *)
(* ===================================================================== *)

Section Rendering.

Lemma decode_key x y :
  int32 x -> int32 y ->
  fromLatticePoint (toLatticePoint x y) = (Some (Num x), Some (Num y)).
Proof.
  intros Hx Hy. rewrite fromLatticePoint_toLatticePoint.
  now rewrite (toInt32_id x Hx), (toInt32_id y Hy).
Qed.

Lemma numNonZero_inject_Z y :
  numNonZero (Some (inject_Z y)) = bool_decide (y <> 0).
Proof.
  unfold numNonZero. destruct (decide (y = 0)) as [-> | Hne].
  - reflexivity.
  - rewrite (bool_decide_eq_true_2 _ Hne).
    destruct (Qeq_bool (inject_Z y) 0) eqn:E; [|reflexivity].
    apply Qeq_bool_eq in E. unfold Qeq in E. simpl in E. lia.
Qed.

(** The segment of a piece with a valid direction, stored under the key
    of an in-range cell. *)
Lemma strokeCalls_valid x y piece :
  int32 x -> int32 y -> validDirection (piece_direction piece) ->
  let cell := inject_Z CELL_SIZE in
  let l := piece_lerp piece in
  strokeCalls (toLatticePoint x y) piece
  = [beginPath;
     moveTo (Some (fl (inject_Z x * cell))) (Some (fl (inject_Z y * cell)));
     lineTo
       (Some (if bool_decide (piece_direction piece = down_left)
              then fl (fl (inject_Z x - l) * cell)
              else if bool_decide (piece_direction piece = down)
                   then fl (inject_Z x * cell)
                   else fl (fl (inject_Z x + l) * cell)))
       (Some (fl (fl (inject_Z y + l) * cell)));
     stroke].
Proof.
  intros Hx Hy Hv cell l. unfold strokeCalls. rewrite (decode_key x y Hx Hy).
  cbn [toNumber numMul numAdd numSub].
  destruct Hv as [E | [E | E]]; rewrite E; reflexivity.
Qed.

Lemma drawTip_valid x y piece :
  validDirection (piece_direction piece) ->
  let cell := inject_Z CELL_SIZE in
  let l := piece_lerp piece in
  let tip := piece_tipPosition piece in
  drawTip (Some (inject_Z x)) (Some (inject_Z y)) piece
  = (if bool_decide (y <> 0)
        && (bool_decide (tip = tip_begin) || bool_decide (tip = tip_begin_end))
     then [ellipse (Some (fl (inject_Z x * cell))) (Some (fl (inject_Z y * cell)))
             TIP_RADIUS TIP_RADIUS]
     else [])
    ++ (if bool_decide (tip = tip_end) || bool_decide (tip = tip_begin_end)
        then [ellipse
                (Some (if bool_decide (piece_direction piece = down_left)
                       then fl (fl (inject_Z x - l) * cell)
                       else if bool_decide (piece_direction piece = down)
                            then fl (inject_Z x * cell)
                            else fl (fl (inject_Z x + l) * cell)))
                (Some (fl (fl (inject_Z y + l) * cell)))
                TIP_RADIUS TIP_RADIUS]
        else []).
Proof.
  intros Hv cell l tip. unfold drawTip. rewrite numNonZero_inject_Z.
  cbn [numMul numAdd numSub]. fold tip.
  destruct Hv as [E | [E | E]]; rewrite E;
    destruct (bool_decide (y <> 0)
              && (bool_decide (tip = tip_begin) || bool_decide (tip = tip_begin_end)));
    destruct (bool_decide (tip = tip_end) || bool_decide (tip = tip_begin_end));
    reflexivity.
Qed.

End Rendering.

Section PixelArithmetic.

Local Open Scope Q_scope.

(** The product of an integer of the signed 32-bit range and the cell
    size is computed exactly. *)
Lemma fl_cell (x : Z) :
  int32 x -> fl (inject_Z x * inject_Z CELL_SIZE) == inject_Z (x * CELL_SIZE).
Proof.
  intros Hx. rewrite <- inject_Z_mult. apply fl_inject_Z.
  unfold int32, CELL_SIZE in *. lia.
Qed.

(** The rounding error of a number of magnitude at most 2^k. *)
Lemma flPos_error x k :
  0 < x -> x <= pow2 k -> (-1022 <= k)%Z ->
  x - pow2 (k - 53) <= flPos x /\ flPos x <= x + pow2 (k - 53).
Proof.
  intros Hx Hk Hmin. destruct (Qlog2_spec x Hx) as [Hl _].
  assert (Hlog : (Qlog2 x < k + 1)%Z).
  { apply pow2_lt_inv. eapply Qle_lt_trans; [exact Hl|].
    eapply Qle_lt_trans; [exact Hk|]. apply pow2_lt. lia. }
  assert (He : (expo x <= k)%Z) by (unfold expo; lia).
  rewrite flPos_unfold. set (e := expo x) in *.
  pose proof (pow2_pos (e - 52)) as Hs'.
  assert (Hss : pow2 (52 - e) * pow2 (e - 52) == 1) by (apply pow2_cancel; lia).
  assert (Hhalf : pow2 (e - 53) == pow2 (e - 52) * (1 # 2)).
  { replace (e - 53)%Z with ((e - 52) + -1)%Z by lia. rewrite pow2_add. reflexivity. }
  assert (Hle : pow2 (e - 53) <= pow2 (k - 53)) by (apply pow2_le; lia).
  destruct (roundEven_near (x * pow2 (52 - e))) as [Hlo Hhi].
  set (R := inject_Z (roundEven (x * pow2 (52 - e)))) in *.
  assert (Hxm : x == x * pow2 (52 - e) * pow2 (e - 52)).
  { rewrite <- Qmult_assoc, Hss. ring. }
  set (m := x * pow2 (52 - e)) in *.
  split; nra.
Qed.

Lemma fl_error x k :
  (-1022 <= k)%Z -> - pow2 k <= x -> x <= pow2 k ->
  x - pow2 (k - 53) <= fl x /\ fl x <= x + pow2 (k - 53).
Proof.
  intros Hmin Hlo Hhi. pose proof (pow2_pos (k - 53)) as Hp.
  destruct (Qlt_le_dec 0 x) as [Hx | Hx].
  - rewrite (fl_pos x Hx). now apply flPos_error.
  - destruct (Qlt_le_dec x 0) as [Hx' | Hx'].
    + rewrite (fl_neg x Hx').
      destruct (flPos_error (- x) k ltac:(lra) ltac:(lra) Hmin) as [H1 H2].
      split; lra.
    + rewrite (fl_zero x) by lra. split; lra.
Qed.

(** A coordinate moved by a factor of [0,1] and scaled to pixels, as the
    renderer computes it: between the pixels of the two cells, within
    2^-15 of the exact value, and exact at both ends. *)
Lemma pixel_forward (x : Z) (l : Q) :
  int32 x -> 0 <= l -> l <= 1 ->
  let p := fl (fl (inject_Z x + l) * inject_Z CELL_SIZE) in
  inject_Z (x * CELL_SIZE) <= p /\ p <= inject_Z ((x + 1) * CELL_SIZE)
  /\ (inject_Z x + l) * inject_Z CELL_SIZE - pow2 (-15) <= p
  /\ p <= (inject_Z x + l) * inject_Z CELL_SIZE + pow2 (-15)
  /\ (l == 1 -> p == inject_Z ((x + 1) * CELL_SIZE))
  /\ (l == 0 -> p == inject_Z (x * CELL_SIZE)).
Proof.
  intros Hx Hl0 Hl1 p.
  assert (Hx' : int32 x) by exact Hx. unfold int32 in Hx.
  assert (Hxq : - (2147483648) <= inject_Z x /\ inject_Z x <= 2147483647).
  { change (-(2147483648)) with (inject_Z (-2147483648)).
    change 2147483647 with (inject_Z 2147483647).
    rewrite <- !Zle_Qle. lia. }
  assert (Hcell : inject_Z CELL_SIZE == 24) by reflexivity.
  assert (Hint : forall z, (Z.abs z <= 2 ^ 32)%Z ->
                   fl (fl (inject_Z z) * inject_Z CELL_SIZE) == inject_Z (z * CELL_SIZE)).
  { intros z Hz. rewrite (fl_inject_Z z) by lia.
    rewrite <- inject_Z_mult. apply fl_inject_Z. unfold CELL_SIZE. lia. }
  assert (Hmono : forall a b, a <= b ->
                    fl (fl a * inject_Z CELL_SIZE) <= fl (fl b * inject_Z CELL_SIZE)).
  { intros a b Hab. apply fl_mono. apply Qmult_le_compat_r; [|discriminate].
    now apply fl_mono. }
  assert (Hlow : inject_Z (x * CELL_SIZE) <= p).
  { rewrite <- (Hint x) by lia. apply Hmono. lra. }
  assert (Hhigh : p <= inject_Z ((x + 1) * CELL_SIZE)).
  { rewrite <- (Hint (x + 1)%Z) by lia. apply Hmono.
    rewrite inject_Z_plus. change (inject_Z 1) with 1. lra. }
  change (inject_Z CELL_SIZE) with 24 in *.
  assert (H32 : pow2 32 == 4294967296) by reflexivity.
  assert (H37 : pow2 37 == 137438953472) by reflexivity.
  assert (H21 : pow2 (32 - 53) == 1 # 2097152) by reflexivity.
  assert (H16 : pow2 (37 - 53) == 1 # 65536) by reflexivity.
  assert (H15 : pow2 (-15) == 1 # 32768) by reflexivity.
  destruct (fl_error (inject_Z x + l) 32 ltac:(lia) ltac:(lra) ltac:(lra)) as [Ha1 Ha2].
  destruct (fl_error (fl (inject_Z x + l) * 24) 37
              ltac:(lia) ltac:(lra) ltac:(lra)) as [Hb1 Hb2].
  fold p in Hb1, Hb2.
  split; [exact Hlow|]. split; [exact Hhigh|].
  split; [lra|]. split; [lra|]. split.
  - intros E. unfold p. rewrite E, <- (Hint (x + 1)%Z) by lia.
    rewrite inject_Z_plus. reflexivity.
  - intros E. unfold p. rewrite E, <- (Hint x) by lia.
    rewrite Qplus_0_r. reflexivity.
Qed.

Lemma pixel_backward (x : Z) (l : Q) :
  int32 x -> 0 <= l -> l <= 1 ->
  let p := fl (fl (inject_Z x - l) * inject_Z CELL_SIZE) in
  inject_Z ((x - 1) * CELL_SIZE) <= p /\ p <= inject_Z (x * CELL_SIZE)
  /\ (inject_Z x - l) * inject_Z CELL_SIZE - pow2 (-15) <= p
  /\ p <= (inject_Z x - l) * inject_Z CELL_SIZE + pow2 (-15)
  /\ (l == 1 -> p == inject_Z ((x - 1) * CELL_SIZE))
  /\ (l == 0 -> p == inject_Z (x * CELL_SIZE)).
Proof.
  intros Hx Hl0 Hl1 p.
  assert (Hx' : int32 x) by exact Hx. unfold int32 in Hx.
  assert (Hxq : - (2147483648) <= inject_Z x /\ inject_Z x <= 2147483647).
  { change (-(2147483648)) with (inject_Z (-2147483648)).
    change 2147483647 with (inject_Z 2147483647).
    rewrite <- !Zle_Qle. lia. }
  assert (Hcell : inject_Z CELL_SIZE == 24) by reflexivity.
  assert (Hint : forall z, (Z.abs z <= 2 ^ 32)%Z ->
                   fl (fl (inject_Z z) * inject_Z CELL_SIZE) == inject_Z (z * CELL_SIZE)).
  { intros z Hz. rewrite (fl_inject_Z z) by lia.
    rewrite <- inject_Z_mult. apply fl_inject_Z. unfold CELL_SIZE. lia. }
  assert (Hmono : forall a b, a <= b ->
                    fl (fl a * inject_Z CELL_SIZE) <= fl (fl b * inject_Z CELL_SIZE)).
  { intros a b Hab. apply fl_mono. apply Qmult_le_compat_r; [|discriminate].
    now apply fl_mono. }
  assert (Hpred : inject_Z (x - 1) == inject_Z x - 1).
  { unfold Z.sub. rewrite inject_Z_plus. reflexivity. }
  assert (Hlow : inject_Z ((x - 1) * CELL_SIZE) <= p).
  { rewrite <- (Hint (x - 1)%Z) by lia. apply Hmono. rewrite Hpred. lra. }
  assert (Hhigh : p <= inject_Z (x * CELL_SIZE)).
  { rewrite <- (Hint x) by lia. apply Hmono. lra. }
  change (inject_Z CELL_SIZE) with 24 in *.
  assert (H32 : pow2 32 == 4294967296) by reflexivity.
  assert (H37 : pow2 37 == 137438953472) by reflexivity.
  assert (H21 : pow2 (32 - 53) == 1 # 2097152) by reflexivity.
  assert (H16 : pow2 (37 - 53) == 1 # 65536) by reflexivity.
  assert (H15 : pow2 (-15) == 1 # 32768) by reflexivity.
  destruct (fl_error (inject_Z x - l) 32 ltac:(lia) ltac:(lra) ltac:(lra)) as [Ha1 Ha2].
  destruct (fl_error (fl (inject_Z x - l) * 24) 37
              ltac:(lia) ltac:(lra) ltac:(lra)) as [Hb1 Hb2].
  fold p in Hb1, Hb2.
  split; [exact Hlow|]. split; [exact Hhigh|].
  split; [lra|]. split; [lra|]. split.
  - intros E. unfold p. rewrite E, <- (Hint (x - 1)%Z) by lia.
    rewrite Hpred. reflexivity.
  - intros E. unfold p. rewrite E, <- (Hint x) by lia.
    unfold Qminus. rewrite Qplus_0_r. reflexivity.
Qed.

End PixelArithmetic.

(** X18.  The segment drawn for a piece that has one of the three
    directions and a factor [lerp] of [0,1], stored under the key of a
    cell (x,y) in the signed 32-bit range, starts at the pixel (24x, 24y)
    and ends between that pixel and the pixel of [nextPoint]: at the
    fraction [lerp] of the way up to a rounding error below 2^-15 of a
    pixel, the coordinates being computed in doubles; at [lerp] 1 it ends
    exactly where the segment of the next node starts. *)
Theorem stroke_follows_direction x y piece :
  int32 x -> int32 y -> validDirection (piece_direction piece) ->
  (0 <= piece_lerp piece)%Q -> (piece_lerp piece <= 1)%Q ->
  exists x' y' mx my ex ey,
    nextPoint (x, y) (piece_direction piece) = Ok (x', y')
    /\ strokeCalls (toLatticePoint x y) piece
       = [beginPath; moveTo (Some mx) (Some my); lineTo (Some ex) (Some ey); stroke]
    /\ (mx == inject_Z (x * CELL_SIZE))%Q /\ (my == inject_Z (y * CELL_SIZE))%Q
    /\ (inject_Z (Z.min x x' * CELL_SIZE) <= ex)%Q
    /\ (ex <= inject_Z (Z.max x x' * CELL_SIZE))%Q
    /\ (inject_Z (y * CELL_SIZE) <= ey)%Q /\ (ey <= inject_Z (y' * CELL_SIZE))%Q
    /\ (let target := (inject_Z x + piece_lerp piece * inject_Z (x' - x))
                      * inject_Z CELL_SIZE in
        target - pow2 (-15) <= ex /\ ex <= target + pow2 (-15))%Q
    /\ (let target := (inject_Z y + piece_lerp piece * inject_Z (y' - y))
                      * inject_Z CELL_SIZE in
        target - pow2 (-15) <= ey /\ ey <= target + pow2 (-15))%Q
    /\ ((piece_lerp piece == 1)%Q ->
        (ex == inject_Z (x' * CELL_SIZE))%Q /\ (ey == inject_Z (y' * CELL_SIZE))%Q).
Proof.
  intros Hx Hy Hv Hl0 Hl1.
  pose proof (strokeCalls_valid x y piece Hx Hy Hv) as Hcalls. cbv zeta in Hcalls.
  pose proof (fl_cell x Hx) as Hmx. pose proof (fl_cell y Hy) as Hmy.
  destruct (pixel_forward y (piece_lerp piece) Hy Hl0 Hl1)
    as (Hy1 & Hy2 & Hy3 & Hy4 & Hy5 & _).
  assert (H15 : (0 < pow2 (-15))%Q) by apply pow2_pos.
  assert (Hty : ((inject_Z y + piece_lerp piece * inject_Z (y + 1 - y)) * inject_Z CELL_SIZE
                 == (inject_Z y + piece_lerp piece) * inject_Z CELL_SIZE)%Q).
  { replace (y + 1 - y) with 1 by lia. change (inject_Z 1) with 1%Q. ring. }
  destruct Hv as [E | [E | E]]; rewrite E in *.
  - exists x, (y + 1). eexists _, _, _, _. split; [reflexivity|]. split; [exact Hcalls|].
    change (bool_decide (down = down_left)) with false.
    change (bool_decide (down = down)) with true. cbv iota zeta.
    rewrite Z.min_id, Z.max_id, Hty.
    replace (x - x) with 0 by lia. change (inject_Z 0) with 0%Q.
    assert (Htx : ((inject_Z x + piece_lerp piece * 0) * inject_Z CELL_SIZE
                   == inject_Z (x * CELL_SIZE))%Q) by (rewrite inject_Z_mult; ring).
    rewrite Htx, Hmx.
    repeat (split; try assumption); lra.
  - destruct (pixel_backward x (piece_lerp piece) Hx Hl0 Hl1)
      as (Hx1 & Hx2 & Hx3 & Hx4 & Hx5 & _).
    exists (x - 1), (y + 1). eexists _, _, _, _. split; [reflexivity|]. split; [exact Hcalls|].
    change (bool_decide (down_left = down_left)) with true. cbv iota zeta.
    replace (Z.min x (x - 1)) with (x - 1) by lia. replace (Z.max x (x - 1)) with x by lia.
    rewrite Hty. replace (x - 1 - x) with (-1) by lia.
    assert (Htx : ((inject_Z x + piece_lerp piece * inject_Z (-1)) * inject_Z CELL_SIZE
                   == (inject_Z x - piece_lerp piece) * inject_Z CELL_SIZE)%Q)
      by (change (inject_Z (-1)) with (-1 # 1)%Q; ring).
    rewrite Htx.
    repeat (split; try assumption); lra.
  - destruct (pixel_forward x (piece_lerp piece) Hx Hl0 Hl1)
      as (Hx1 & Hx2 & Hx3 & Hx4 & Hx5 & _).
    exists (x + 1), (y + 1). eexists _, _, _, _. split; [reflexivity|]. split; [exact Hcalls|].
    change (bool_decide (down_right = down_left)) with false.
    change (bool_decide (down_right = down)) with false. cbv iota zeta.
    replace (Z.min x (x + 1)) with x by lia. replace (Z.max x (x + 1)) with (x + 1) by lia.
    rewrite Hty. replace (x + 1 - x) with 1 by lia.
    assert (Htx : ((inject_Z x + piece_lerp piece * inject_Z 1) * inject_Z CELL_SIZE
                   == (inject_Z x + piece_lerp piece) * inject_Z CELL_SIZE)%Q)
      by (change (inject_Z 1) with 1%Q; ring).
    rewrite Htx.
    repeat (split; try assumption); lra.
Qed.

(** The piece stored after 1 ms at (28,2), going down-left: the segment
    is drawn to (670.8, 49.199999999999996). *)
Lemma stroke_follows_direction_witness :
  let lerp := fl (fl (inject_Z 1 / inject_Z 1000) * inject_Z WIRE_LERP_SPEED) in
  exists mx my ex ey,
    strokeCalls "28,2" (growingPiece (mkWireNode (28, 2) down_left) 0 lerp)
    = [beginPath; moveTo (Some mx) (Some my); lineTo (Some ex) (Some ey); stroke]
    /\ (mx == 672)%Q /\ (my == 48)%Q
    /\ (ex == 5900419199297126 # 8796093022208)%Q
    /\ (ey == 6924284427082137 # 140737488355328)%Q
    /\ (648 <= ex)%Q /\ (ex <= 672)%Q /\ (48 <= ey)%Q /\ (ey <= 72)%Q.
Proof.
  intros lerp.
  destruct (stroke_follows_direction 28 2 (growingPiece (mkWireNode (28, 2) down_left) 0 lerp))
    as (x' & y' & mx & my & ex & ey & Hnext & Hcalls & Hmx & Hmy & Hx1 & Hx2 & Hy1 & Hy2 & _).
  - unfold int32. lia.
  - unfold int32. lia.
  - right. left. reflexivity.
  - vm_compute. discriminate.
  - vm_compute. discriminate.
  - injection Hnext as <- <-.
    assert (Hrun : strokeCalls "28,2" (growingPiece (mkWireNode (28, 2) down_left) 0 lerp)
                   = [beginPath; moveTo (Some ?[a]) (Some ?[b]);
                      lineTo (Some ?[c]) (Some ?[d]); stroke])
      by (vm_compute; reflexivity).
    pose proof (eq_trans (eq_sym Hrun) Hcalls) as Heq.
    injection Heq as <- <- <- <-.
    eexists _, _, _, _. split; [exact Hrun|].
    split; [exact Hmx|]. split; [exact Hmy|].
    split; [vm_compute; reflexivity|]. split; [vm_compute; reflexivity|].
    split; [exact Hx1|]. split; [exact Hx2|]. split; [exact Hy1 | exact Hy2].
Defined.

(** X19.  For such a piece the tip markers sit on the ends of its
    segment: the [begin] marker is a circle centred where the segment
    starts, drawn unless the cell is in row 0, the [end] marker a circle
    centred where the segment currently ends; the marks are filled, then
    stroked, and a piece without tip draws nothing. *)
Theorem tips_sit_on_segment_ends x y piece :
  int32 x -> int32 y -> validDirection (piece_direction piece) ->
  exists mx my ex ey,
    strokeCalls (toLatticePoint x y) piece
    = [beginPath; moveTo mx my; lineTo ex ey; stroke]
    /\ let tip := piece_tipPosition piece in
       let marks :=
         (if bool_decide (y <> 0)
             && (bool_decide (tip = tip_begin) || bool_decide (tip = tip_begin_end))
          then [ellipse mx my TIP_RADIUS TIP_RADIUS] else [])
         ++ (if bool_decide (tip = tip_end) || bool_decide (tip = tip_begin_end)
             then [ellipse ex ey TIP_RADIUS TIP_RADIUS] else []) in
       tipCalls (toLatticePoint x y) piece
       = if bool_decide (tip = tip_false) then []
         else [setFillStyle "#ededed"; beginPath] ++ marks ++ [fill]
              ++ [beginPath] ++ marks ++ [stroke].
Proof.
  intros Hx Hy Hv. eexists _, _, _, _. split.
  { apply (strokeCalls_valid x y piece Hx Hy Hv). }
  cbv zeta. unfold tipCalls. rewrite (decode_key x y Hx Hy). cbn [toNumber].
  pose proof (drawTip_valid x y piece Hv) as Hmarks. cbv zeta in Hmarks.
  rewrite Hmarks. reflexivity.
Qed.

Lemma tips_sit_on_segment_ends_witness :
  tipCalls "28,0" (growingPiece (mkWireNode (28, 0) down) 0 (1 # 2))
  = [setFillStyle "#ededed"; beginPath;
     ellipse (Some (fl (28 * 24))) (Some (fl (fl (0 + (1 # 2)) * 24))) 4 4; fill;
     beginPath;
     ellipse (Some (fl (28 * 24))) (Some (fl (fl (0 + (1 # 2)) * 24))) 4 4; stroke].
Proof.
  destruct (tips_sit_on_segment_ends 28 0 (growingPiece (mkWireNode (28, 0) down) 0 (1 # 2)))
    as (mx & my & ex & ey & Hcalls & Htips).
  - unfold int32. lia.
  - unfold int32. lia.
  - left. reflexivity.
  - cbv zeta in Htips. vm_compute in Hcalls. injection Hcalls as <- <- <- <-.
    vm_compute in Htips. vm_compute. exact Htips.
Defined.

(** X20.  Between two animation frames separated by timer ticks only (no
    resize, no restart), the second frame calls [render] exactly when some
    tick in between stored a piece; a frame that is skipped therefore
    finds the store as the previous frame left it. *)
Theorem frame_skipped_only_if_unchanged rnd ticks v i entries0 entries1
    offsetWidth offsetHeight events s' i' :
  let v0 := snd (renderFn entries0 offsetWidth offsetHeight v) in
  artRun rnd ticks (art v0) i = (events, s', i') ->
  let frame := fst (renderFn entries1 offsetWidth offsetHeight
                      (mkArtView s' (renewGraphicsContext v0))) in
  (drawn frame = None <-> existsb writesPiece events = false)
  /\ (drawn frame = None -> wirePieces (world s') = wirePieces (world (art v)))
  /\ (drawn frame <> None ->
      drawn frame = Some (render entries1 offsetWidth offsetHeight))
  /\ contextRenewed frame = false.
Proof.
  intros v0 Hrun frame.
  destruct (artRun_dirty rnd ticks (art v0) i events s' i' Hrun) as [Hdirty Hstore].
  unfold v0 in Hdirty, Hstore. cbn [renderFn snd art clearDirty dirty world] in Hdirty, Hstore.
  cbn [orb] in Hdirty.
  unfold frame. cbn [renderFn fst drawn contextRenewed art renewGraphicsContext v0 snd].
  rewrite Hdirty, orb_false_r.
  destruct (existsb writesPiece events).
  - split; [split; discriminate|]. split; [discriminate|]. split; reflexivity.
  - split; [split; reflexivity|]. split; [intros _; now apply Hstore|].
    split; [congruence | reflexivity].
Qed.

Lemma frame_skipped_only_if_unchanged_witness :
  exists events s' i',
    artRun (fun _ => 0%Q) [admission_tick; animation_tick 1010 1010]
      (art (snd (renderFn [] 960 720 (mkArtView (twoWires 0) true)))) 0%nat
    = (events, s', i')
    /\ drawn (fst (renderFn [] 960 720 (mkArtView s' false))) <> None.
Proof.
  eexists _, _, _.
  assert (Hrun : artRun (fun _ => 0%Q) [admission_tick; animation_tick 1010 1010]
                   (art (snd (renderFn [] 960 720 (mkArtView (twoWires 0) true)))) 0%nat
                 = (?[events], ?[s'], ?[i'])) by (vm_compute; reflexivity).
  split; [exact Hrun|].
  destruct (frame_skipped_only_if_unchanged _ _ _ _ [] [] 960 720 _ _ _ Hrun)
    as ([Hnone _] & _).
  intros Hskip. apply Hnone in Hskip. discriminate Hskip.
Defined.

(** X21.  A resize builds a fresh world: the store and the queue are
    empty, both timers are scheduled again and no failure is counted; the
    frame that follows takes a new context and draws, and as no piece is
    stored it only clears the canvas and sets the stroke style. *)
Theorem resize_redraws_empty offsetWidth offsetHeight now v entries :
  let v' := onResize offsetWidth offsetHeight now v in
  enumerates entries (wirePieces (world (art v'))) ->
  let frame := fst (renderFn entries offsetWidth offsetHeight v') in
  wirePieces (world (art v')) = ∅
  /\ wiresQueue (world (art v')) = []
  /\ failedTries (art v') = 0%nat
  /\ wireGeneratorTimer (art v') = true /\ wireQueueTimer (art v') = true
  /\ contextRenewed frame = true
  /\ drawn frame
     = Some [clearRect 0 0 offsetWidth offsetHeight; setLineWidth 3;
             setStrokeStyle "#c8c8c8"; setLineCap "round"; setLineJoin "round"].
Proof.
  intros v' [_ Henum] frame.
  assert (Hnil : entries = []).
  { destruct entries as [|[key piece] rest]; [reflexivity|].
    assert (Hin : (key, piece) ∈ (key, piece) :: rest) by (apply elem_of_cons; now left).
    apply Henum in Hin. cbn in Hin. rewrite lookup_empty in Hin. discriminate Hin. }
  repeat split; try reflexivity.
  unfold frame. cbn [renderFn fst drawn v' onResize renewGraphicsContext].
  rewrite orb_true_r, Hnil. reflexivity.
Qed.

Lemma resize_redraws_empty_witness :
  drawn (fst (renderFn [] 960 720 (onResize 960 720 5000 (mkArtView (twoWires 2) false))))
  = Some [clearRect 0 0 960 720; setLineWidth 3;
          setStrokeStyle "#c8c8c8"; setLineCap "round"; setLineJoin "round"].
Proof.
  apply (resize_redraws_empty 960 720 5000 (mkArtView (twoWires 2) false) []).
  split; [constructor|]. intros key piece. cbn. rewrite lookup_empty. split.
  - intros Hin. now apply elem_of_nil in Hin.
  - discriminate.
Defined.

(** X22.  [render] draws every stored piece: for each entry of the
    store its segment is among the calls, and its tips come later, after
    the segments of all entries. *)
Theorem render_draws_every_piece store entries width height key piece :
  enumerates entries store ->
  store !! key = Some piece ->
  exists before after,
    entries = before ++ (key, piece) :: after
    /\ render entries width height
       = [clearRect 0 0 width height; setLineWidth 3; setStrokeStyle "#c8c8c8";
          setLineCap "round"; setLineJoin "round"]
         ++ (flat_map (fun e => strokeCalls (fst e) (snd e)) before
             ++ strokeCalls key piece
             ++ flat_map (fun e => strokeCalls (fst e) (snd e)) after)
         ++ (flat_map (fun e => tipCalls (fst e) (snd e)) before
             ++ tipCalls key piece
             ++ flat_map (fun e => tipCalls (fst e) (snd e)) after).
Proof.
  intros [_ Henum] Hlook. apply Henum in Hlook.
  apply list_elem_of_split in Hlook as (l1 & l2 & ->).
  exists l1, l2. split; [reflexivity|].
  unfold render. rewrite !flat_map_app. cbn [flat_map fst snd].
  now rewrite <- !app_assoc.
Qed.

Lemma render_draws_every_piece_witness :
  let piece := finalizedPiece (mkWireNode (28, 5) down_left) 4 4 in
  exists before after,
    [("28,5", piece)] = before ++ ("28,5", piece) :: after
    /\ render [("28,5", piece)] 960 720
       = [clearRect 0 0 960 720; setLineWidth 3; setStrokeStyle "#c8c8c8";
          setLineCap "round"; setLineJoin "round"]
         ++ (flat_map (fun e => strokeCalls (fst e) (snd e)) before
             ++ strokeCalls "28,5" piece
             ++ flat_map (fun e => strokeCalls (fst e) (snd e)) after)
         ++ (flat_map (fun e => tipCalls (fst e) (snd e)) before
             ++ tipCalls "28,5" piece
             ++ flat_map (fun e => tipCalls (fst e) (snd e)) after).
Proof.
  intros piece.
  apply (render_draws_every_piece {[ "28,5" := piece ]} [("28,5", piece)] 960 720).
  - split; [repeat constructor; set_solver|].
    intros key p. rewrite list_elem_of_singleton. split.
    + intros [= -> ->]. apply lookup_singleton_eq.
    + intros Hlook. apply lookup_singleton_Some in Hlook as [<- <-]. reflexivity.
  - apply lookup_singleton_eq.
Defined.

(* ===================================================================== *)
(** * From an empty canvas to the first wire *)
(* ===================================================================== *)

(** X23.  On a fresh world for a canvas of positive size (at most 2^31
    high), with random values in [0,1): the first admission tick enqueues
    the generated wire, and when each following animation tick comes after
    the end time of the previous segment, one tick per node and one more
    tick leave the queue empty and the store holding exactly the finalized
    pieces of the nodes of that wire. *)
Theorem first_wire_is_drawn rnd i offsetWidth offsetHeight now wasDirty :
  unitRange rnd ->
  0 < offsetWidth -> 0 < offsetHeight <= 2 ^ 31 ->
  let s := setup offsetWidth offsetHeight now wasDirty in
  exists candidate j,
    generateWire (world s) rnd i = (Ok candidate, j)
    /\ forall times lastNow lastNow',
         length times = length candidate ->
         allLate now times ->
         let s' := stateAfter rnd
                     (admission_tick
                      :: animationTicks times ++ [animation_tick lastNow lastNow'])
                     s i in
         wiresQueue (world s') = []
         /\ (forall k node, candidate !! k = Some node ->
               wirePieces (world s') !! nodeKey node
               = Some (finalizedPiece node (S k) (length candidate)))
         /\ (forall key, ~ keyOfWire candidate key ->
               wirePieces (world s') !! key = None).
Proof.
  intros Hr Hw Hh s.
  destruct (generateWire_returns rnd (world s) i Hr)
    as (candidate & j & Hgen & _ & Hlen & _).
  exists candidate, j. split; [exact Hgen|].
  intros times lastNow lastNow' Htimes Hlate s'.
  pose proof (generateWire_chained rnd (world s) i candidate j Hgen) as Hch.
  destruct (generateWire_head rnd (world s) i candidate j Hgen) as (n0 & H0 & Hp).
  destruct (setup_covers_dims offsetWidth offsetHeight now wasDirty) as [Hcw Hchh].
  fold s in Hcw, Hchh.
  set (w := fst (dimensions (world s))) in *.
  set (h := snd (dimensions (world s))) in *.
  unfold CELL_SIZE in Hcw, Hchh.
  destruct (first_point_in_bounds (rnd (S i)) (rnd (S (S i))) w h (Hr _) (Hr _))
    as (_ & Hy0 & Hy1); [lia | lia |].
  assert (Hrows : Forall (fun node => int32 (snd (point node))) candidate).
  { apply Forall_lookup. intros k node Hk.
    destruct (chained_geometry candidate n0 Hch H0 k node Hk) as [Hy _].
    apply lookup_lt_Some in Hk. rewrite Hp in Hy. cbn [snd] in Hy.
    unfold int32. lia. }
  pose proof (chained_distinct_keys candidate Hch Hrows) as Hnd.
  pose proof (setup_first_tick rnd i offsetWidth offsetHeight now wasDirty candidate j Hgen)
    as Htick. cbv zeta in Htick. fold s in Htick.
  assert (Hstep : artStep rnd admission_tick s i
                  = (ev_generator (gen_enqueued candidate), enqueue s candidate, j)).
  { unfold artStep. now rewrite Htick. }
  unfold s'. rewrite (stateAfter_cons rnd _ _ s i _ _ _ Hstep).
  destruct (reveal_run rnd times (enqueue s candidate) j candidate 0 [] lastNow lastNow')
    as (Hq & Hpieces & Hrest);
    [reflexivity | reflexivity | lia | exact Hnd | lia | exact Hlate |].
  split; [exact Hq|]. split.
  - intros k node Hk. apply Hpieces; [lia | exact Hk].
  - intros key Hnot. rewrite (Hrest key Hnot). apply lookup_empty.
Qed.

Lemma first_wire_is_drawn_witness :
  let s' := stateAfter (fun _ => 0%Q)
              (admission_tick
               :: animationTicks [(21, 22); (43, 43); (70, 71); (100, 100)]
                  ++ [animation_tick 101 101])
              (setup 960 720 0 false) 0%nat in
  wiresQueue (world s') = [].
Proof.
  intros s'.
  destruct (first_wire_is_drawn (fun _ => 0%Q) 0%nat 960 720 0 false)
    as (candidate & j & Hgen & Hrun).
  - intros i. vm_compute. repeat split; discriminate.
  - lia.
  - lia.
  - vm_compute in Hgen. injection Hgen as <- <-.
    apply (Hrun [(21, 22); (43, 43); (70, 71); (100, 100)] 101 101).
    + reflexivity.
    + vm_compute. repeat split.
Defined.
